(** * pcb_reverse: the connectivity core of the PCB reverse-engineering tool

    A shallow embedding of [src/pcb_reverse.py] (class [PCBProject]):
    identifier normalisation, the connection store and its mutators, the
    union-find net builder, net naming, the remaining-pins query, the
    search for connections, and the tables that the export of the named
    nets and the bill of materials write.

    Modelling conventions.
    - Python [str] values are [string]s of ASCII characters.  The character
      classes ([isalpha], [isdigit], whitespace) and [upper] are the ASCII
      ones; a character with code 128 or more is kept as an unclassified
      symbol, so non-ASCII text is outside the model.
    - [self.components] is a [gmap string component], [self.connections] a
      [gset (string * string)], [self.net_names] a [gmap string string].
    - A method that mutates [self] and returns a flag becomes a function
      from the project to the new project and the flag.
    - Iterating over a Python set visits its members in an unspecified
      order.  The loops are written over a list, the functions of the class
      run them over [elements], and the theorems about loops hold for every
      list.
    - Of an export method the data it writes is modelled (the dictionary of
      nets, the rows of the bill of materials), not the file.
    - The nested function [find] of [build_nets] is recursive, and the
      interpreter allows only so many nested calls.  The net builder and its
      callers take the number [frames] of nested calls of [find] that are
      left; they return [None] where the code raises [RecursionError]. *)

From Stdlib Require Import String Ascii NArith ZArith List Lia.
From stdpp Require Import base decidable option list gmap sets strings pretty sorting.

Local Open Scope string_scope.
#[local] Set Warnings "-clear-no-such-hyp".

(** ** Python string primitives (ASCII) *)

Module PyStr.

Definition code (c : ascii) : N := N_of_ascii c.

Definition between (lo hi : N) (c : ascii) : bool :=
  ((lo <=? code c) && (code c <=? hi))%N.

Definition islower_c (c : ascii) : bool := between 97 122 c.
Definition isupper_c (c : ascii) : bool := between 65 90 c.

(** [c.isalpha()] *)
Definition isalpha (c : ascii) : bool := islower_c c || isupper_c c.

(** [c.isdigit()] *)
Definition isdigit (c : ascii) : bool := between 48 57 c.

(** The characters [str.strip()] removes: TAB, LF, VT, FF, CR, the four
    separators FS, GS, RS, US, and the space. *)
Definition isspace (c : ascii) : bool :=
  between 9 13 c || between 28 31 c || (code c =? 32)%N.

Definition upper_c (c : ascii) : ascii :=
  if islower_c c then ascii_of_N (code c - 32) else c.

(** [s.upper()] *)
Fixpoint upper (s : string) : string :=
  match s with
  | EmptyString => EmptyString
  | String c s' => String (upper_c c) (upper s')
  end.

Fixpoint lstrip (s : string) : string :=
  match s with
  | EmptyString => EmptyString
  | String c s' => if isspace c then lstrip s' else s
  end.

Fixpoint rstrip (s : string) : string :=
  match s with
  | EmptyString => EmptyString
  | String c s' =>
      match rstrip s' with
      | EmptyString => if isspace c then EmptyString else String c EmptyString
      | r => String c r
      end
  end.

(** [s.strip()] *)
Definition strip (s : string) : string := rstrip (lstrip s).

(** [''.join(c for c in s if f(c))] *)
Fixpoint keep (f : ascii -> bool) (s : string) : string :=
  match s with
  | EmptyString => EmptyString
  | String c s' => if f c then String c (keep f s') else keep f s'
  end.

(** Truth value of a string: non-empty. *)
Definition truthy (s : string) : bool :=
  match s with EmptyString => false | _ => true end.

Definition digit_val (c : ascii) : N := (code c - 48)%N.

Fixpoint int_go (acc : N) (s : string) : N :=
  match s with
  | EmptyString => acc
  | String c s' => int_go (acc * 10 + digit_val c)%N s'
  end.

(** [int(s)] on a non-empty string of decimal digits. *)
Definition int (s : string) : N := int_go 0 s.

(** [f"{n:02d}"] for a natural number. *)
Definition fmt_02d (n : N) : string :=
  let d := pretty n in
  if (String.length d <? 2)%nat then "0" +:+ d else d.

(** [sep in s] for a one-character separator. *)
Fixpoint contains (sep : ascii) (s : string) : bool :=
  match s with
  | EmptyString => false
  | String c s' => if Ascii.eqb c sep then true else contains sep s'
  end.

(** [s.split(sep, 1)] for a one-character separator: one part when the
    separator is absent, otherwise the text before and after its first
    occurrence. *)
Fixpoint split1 (sep : ascii) (s : string) : list string :=
  match s with
  | EmptyString => [EmptyString]
  | String c s' =>
      if Ascii.eqb c sep then [EmptyString; s']
      else match split1 sep s' with
           | a :: rest => String c a :: rest
           | [] => []
           end
  end.

(** [s.startswith(p)] *)
Definition startswith (s p : string) : bool := String.prefix p s.

End PyStr.

Import PyStr.

(** ** Component references *)

(** [PCBProject.normalize_ref] *)
Definition normalize_ref (ref : string) : string :=
  let ref := strip (upper ref) in
  let prefix := keep isalpha ref in
  let num_str := keep isdigit ref in
  if truthy prefix && truthy num_str then
    let num := int num_str in
    if (num <? 10)%N then prefix +:+ fmt_02d num else ref
  else ref.

(** ** Component table *)

(** [get_component_type] *)
Definition get_component_type (ref : string) : string :=
  let prefix := upper (keep isalpha ref) in
  if decide (prefix = "R") then "resistor"
  else if decide (prefix = "C") then "capacitor"
  else if decide (prefix = "L") then "inductor"
  else if decide (prefix = "D") then "diode"
  else if decide (prefix = "Q") then "transistor"
  else if decide (prefix = "U") then "ic"
  else if decide (prefix = "J") then "connector"
  else if decide (prefix = "T") then "transformer"
  else if decide (prefix = "F") then "fuse"
  else if decide (prefix = "SW") then "switch"
  else if decide (prefix = "LED") then "led"
  else if decide (prefix = "TP") then "testpoint"
  else "other".

(** [get_default_pins] *)
Definition get_default_pins (ref : string) : Z :=
  let comp_type := get_component_type ref in
  if decide (comp_type = "resistor") then 2%Z
  else if decide (comp_type = "capacitor") then 2%Z
  else if decide (comp_type = "inductor") then 2%Z
  else if decide (comp_type = "diode") then 2%Z
  else if decide (comp_type = "led") then 2%Z
  else if decide (comp_type = "fuse") then 2%Z
  else if decide (comp_type = "transistor") then 3%Z
  else if decide (comp_type = "testpoint") then 1%Z
  else 2%Z.

(** One entry of [self.components].  [pins] is [None] when the entry has no
    ["pins"] key (possible for a table read from disk); the measured values
    are floating-point data of the value-formatting layer and are not part
    of the connectivity model. *)
Record component := Component {
  pins : option Z;
  value : string;
  package : string;
  description : string;
  ctype : string
}.

Record project := Project {
  components : gmap string component;
  connections : gset (string * string);
  net_names : gmap string string
}.

Definition empty_project : project := Project ∅ ∅ ∅.

Definition set_components (p : project) (c : gmap string component) : project :=
  Project c (connections p) (net_names p).

Definition set_connections (p : project) (c : gset (string * string)) : project :=
  Project (components p) c (net_names p).

Definition set_net_names (p : project) (n : gmap string string) : project :=
  Project (components p) (connections p) n.

(** [add_component(ref, pins)] with the default value, package and
    description.  The default value ["?"] is returned unchanged by
    [smart_format_value], whose first test lets the placeholders through. *)
Definition add_component (p : project) (ref : string) (npins : option Z) : project :=
  let ref := normalize_ref ref in
  let comp_type := get_component_type ref in
  let npins := match npins with Some n => n | None => get_default_pins ref end in
  set_components p
    (<[ref := Component (Some npins) "?" "?" "" comp_type]> (components p)).

(** ** Pins *)

(** [ref in self.components and self.components[ref].get("pins") == 1] *)
Definition single_pin (p : project) (ref : string) : bool :=
  match components p !! ref with
  | Some info => bool_decide (pins info = Some 1%Z)
  | None => false
  end.

(** A parsed pin: the reference and the label, [None] for the pin of a
    single-pin component. *)
Abbreviation parsed_pin := (string * option string)%type (only parsing).

(** The loop of [parse_pin] over the separators. *)
Fixpoint parse_pin_seps (p : project) (pin_str : string) (seps : list ascii)
  : option parsed_pin :=
  match seps with
  | [] => None
  | sep :: rest =>
      if contains sep pin_str then
        match split1 sep pin_str with
        | [part0; part1] =>
            let ref := normalize_ref part0 in
            let pin := strip part1 in
            let pin := if decide (upper pin = "TAB") then "TAB" else pin in
            if single_pin p ref then Some (ref, None) else Some (ref, Some pin)
        | _ => parse_pin_seps p pin_str rest
        end
      else parse_pin_seps p pin_str rest
  end.

(** [PCBProject.parse_pin] *)
Definition parse_pin (p : project) (pin_str : string) : option parsed_pin :=
  let pin_str := strip (upper pin_str) in
  if single_pin p pin_str then Some (pin_str, None)
  else
    match parse_pin_seps p pin_str ["-"; "."; "_"]%char with
    | Some r => Some r
    | None =>
        let normalized := normalize_ref pin_str in
        if single_pin p normalized then Some (normalized, None) else None
    end.

(** [PCBProject.format_pin] on a parsed pin. *)
Definition format_pin (pp : parsed_pin) : string :=
  match pp with
  | (ref, None) => ref
  | (ref, Some pin) => ref +:+ "-" +:+ pin
  end.

(** [f"{p[0]}-1"] *)
Definition alias_of (pp : parsed_pin) : string := fst pp +:+ "-1".

(** ** Connection store *)

Abbreviation conn := (string * string)%type (only parsing).

(** [tuple(sorted([a, b]))] *)
Definition sort2 (a b : string) : conn :=
  if String.ltb b a then (b, a) else (a, b).

(** [x in conn] for a stored pair. *)
Definition in_conn (x : string) (c : conn) : bool :=
  bool_decide (x = fst c) || bool_decide (x = snd c).

(** The auto-registration loop of [add_connection]. *)
Definition auto_add (p : project) (pp : parsed_pin) : project :=
  if decide (fst pp ∈ dom (components p)) then p
  else add_component p (fst pp) None.

(** [PCBProject.add_connection] *)
Definition add_connection (p : project) (pin1 pin2 : string) : project * bool :=
  match parse_pin p pin1, parse_pin p pin2 with
  | Some p1, Some p2 =>
      let p := auto_add (auto_add p p1) p2 in
      let pin1_str := format_pin p1 in
      let pin2_str := format_pin p2 in
      let c := sort2 pin1_str pin2_str in
      if decide (c ∈ connections p) then (p, false)
      else (set_connections p (connections p ∪ {[c]}), true)
  | _, _ => (p, false)
  end.

(** The spellings [delete_connection] tries for one endpoint. *)
Definition alt_variants (pp : parsed_pin) (ps : string) : list string :=
  match snd pp with
  | None => [ps; alias_of pp]
  | Some _ => [ps]
  end.

(** [PCBProject.delete_connection] *)
Definition delete_connection (p : project) (pin1 pin2 : string) : project * bool :=
  match parse_pin p pin1, parse_pin p pin2 with
  | Some p1, Some p2 =>
      let pin1_str := format_pin p1 in
      let pin2_str := format_pin p2 in
      let c := sort2 pin1_str pin2_str in
      if decide (c ∈ connections p) then
        (set_connections p (connections p ∖ {[c]}), true)
      else
        let alts :=
          v1 ← alt_variants p1 pin1_str;
          v2 ← alt_variants p2 pin2_str;
          [sort2 v1 v2] in
        match List.find (λ c, bool_decide (c ∈ connections p)) alts with
        | Some alt_conn => (set_connections p (connections p ∖ {[alt_conn]}), true)
        | None => (p, false)
        end
  | _, _ => (p, false)
  end.

(** The selection test shared by [merge_pins] and [delete_pin_connections]:
    [pin_str in conn or (p[1] is None and f"{p[0]}-1" in conn)]. *)
Definition touches (pp : parsed_pin) (c : conn) : bool :=
  in_conn (format_pin pp) c
  || (bool_decide (snd pp = None) && in_conn (alias_of pp) c).

(** The endpoint replacement of [merge_pins]:
    [to_str if pin == from_str or pin == f"{p_from[0]}-1" else pin]. *)
Definition replace_pin (p_from : parsed_pin) (to_str : string) (pin : string) : string :=
  if bool_decide (pin = format_pin p_from) || bool_decide (pin = alias_of p_from)
  then to_str else pin.

Definition rewrite_conn (p_from : parsed_pin) (to_str : string) (c : conn) : conn :=
  sort2 (replace_pin p_from to_str (fst c)) (replace_pin p_from to_str (snd c)).

(** The update loop of [merge_pins] over [to_update], threading the store
    and the counter. *)
Fixpoint merge_loop (p_from : parsed_pin) (to_str : string)
    (to_update : list conn) (conns : gset conn) (count : nat)
  : gset conn * nat :=
  match to_update with
  | [] => (conns, count)
  | c :: rest =>
      let conns := conns ∖ {[c]} in
      let new_conn := rewrite_conn p_from to_str c in
      if decide (fst new_conn ≠ snd new_conn) then
        if decide (new_conn ∉ conns) then
          merge_loop p_from to_str rest (conns ∪ {[new_conn]}) (S count)
        else merge_loop p_from to_str rest conns count
      else merge_loop p_from to_str rest conns count
  end.

(** What [merge_pins] reports: the returned flag and, when the merge ran,
    the count it prints. *)
Inductive merge_report :=
| MergeInvalid
| MergeNothing
| Merged (count : nat).

Definition merge_flag (r : merge_report) : bool :=
  match r with Merged _ => true | _ => false end.

(** [merge_pins] run on the store in a given iteration order. *)
Definition merge_pins_on (order : list conn) (p : project) (from_pin to_pin : string)
  : project * merge_report :=
  match parse_pin p from_pin, parse_pin p to_pin with
  | Some p_from, Some p_to =>
      let to_str := format_pin p_to in
      let to_update := List.filter (touches p_from) order in
      match to_update with
      | [] => (p, MergeNothing)
      | _ =>
          let '(conns, count) :=
            merge_loop p_from to_str to_update (connections p) 0 in
          (set_connections p conns, Merged count)
      end
  | _, _ => (p, MergeInvalid)
  end.

(** [PCBProject.merge_pins] *)
Definition merge_pins (p : project) (from_pin to_pin : string) : project * merge_report :=
  merge_pins_on (elements (connections p)) p from_pin to_pin.

(** [PCBProject.delete_pin_connections] *)
Definition delete_pin_connections (p : project) (pin : string) : project * bool :=
  match parse_pin p pin with
  | None => (p, false)
  | Some pp =>
      let to_remove := List.filter (touches pp) (elements (connections p)) in
      match to_remove with
      | [] => (p, false)
      | _ =>
          (set_connections p
             (fold_left (λ conns c, conns ∖ {[c]}) to_remove (connections p)), true)
      end
  end.

(** [PCBProject.delete_component] *)
Definition delete_component (p : project) (ref : string) : project * bool :=
  let ref := normalize_ref ref in
  if decide (ref ∈ dom (components p)) then
    let to_remove :=
      List.filter (λ c, startswith (fst c) (ref +:+ "-") || startswith (snd c) (ref +:+ "-"))
        (elements (connections p)) in
    let conns := fold_left (λ conns c, conns ∖ {[c]}) to_remove (connections p) in
    (Project (delete ref (components p)) conns (net_names p), true)
  else (p, false).

(** ** Net builder *)

(** The first statement of [find]: [if x not in parent: parent[x] = x]. *)
Definition ensure (parent : gmap string string) (x : string) : gmap string string :=
  match parent !! x with Some _ => parent | None => <[x := x]> parent end.

(** [sys.getrecursionlimit()]: 1000 in CPython, and the program never
    changes it.  The frames of [build_nets] and of its callers count against
    it, so fewer nested calls than this are left for [find]. *)
Definition recursion_limit : nat := 1000.

(** The nested function [find] of [build_nets], with path compression.  The
    dictionary [parent] is threaded through.  [find] calls itself once for
    every link of the chain of parents it follows; [frames] is the number of
    nested calls of [find] that the interpreter still allows, and [None] is
    the [RecursionError] of the call that would exceed it. *)
Fixpoint find (frames : nat) (parent : gmap string string) (x : string)
  : option (gmap string string * string) :=
  match frames with
  | O => None
  | S frames =>
      let parent := ensure parent x in
      px ← parent !! x;
      if decide (px ≠ x) then
        '(parent, r) ← find frames parent px;
        let parent := <[x := r]> parent in
        r' ← parent !! x;
        Some (parent, r')
      else Some (parent, px)
  end.

(** The nested function [union]. *)
Definition union_pins (frames : nat) (parent : gmap string string) (x y : string)
  : option (gmap string string) :=
  '(parent, px) ← find frames parent x;
  '(parent, py) ← find frames parent y;
  if decide (px ≠ py) then Some (<[px := py]> parent) else Some parent.

(** First loop: [for conn in self.connections: union(conn[0], conn[1])]. *)
Fixpoint union_all (frames : nat) (order : list conn) (parent : gmap string string)
  : option (gmap string string) :=
  match order with
  | [] => Some parent
  | c :: rest =>
      parent ← union_pins frames parent (fst c) (snd c);
      union_all frames rest parent
  end.

(** [nets[root].add(pin)] on a [defaultdict(set)]. *)
Definition nets_add (nets : gmap string (gset string)) (root pin : string)
  : gmap string (gset string) :=
  <[root := default ∅ (nets !! root) ∪ {[pin]}]> nets.

(** The body of the second loop for one pin. *)
Definition group_pin (frames : nat)
    (st : gmap string string * gmap string (gset string)) (pin : string)
  : option (gmap string string * gmap string (gset string)) :=
  '(parent, root) ← find frames (fst st) pin;
  Some (parent, nets_add (snd st) root pin).

(** Second loop: every endpoint is filed under its root. *)
Fixpoint group_all (frames : nat) (order : list conn)
    (st : gmap string string * gmap string (gset string))
  : option (gmap string string * gmap string (gset string)) :=
  match order with
  | [] => Some st
  | c :: rest =>
      st ← group_pin frames st (fst c);
      st ← group_pin frames st (snd c);
      group_all frames rest st
  end.

(** [build_nets] for a given iteration order of the store, with [frames]
    nested calls of [find] left. *)
Definition build_nets_on (frames : nat) (order : list conn)
  : option (gmap string (gset string)) :=
  parent ← union_all frames order ∅;
  st ← group_all frames order (parent, ∅);
  Some (snd st).

(** [PCBProject.build_nets] *)
Definition build_nets (frames : nat) (p : project)
  : option (gmap string (gset string)) :=
  build_nets_on frames (elements (connections p)).

(** ** Net naming *)

(** [f"{p[0]}-{p[1]}"]: an absent label is rendered as [None]. *)
Definition fstring_pin (pp : parsed_pin) : string :=
  fst pp +:+ "-" +:+ (match snd pp with Some pin => pin | None => "None" end).

(** What [name_net] reports. *)
Inductive name_report :=
| NameInvalid
| NameNotInNet (pin_str : string)
| Named (root : string) (npins : nat).

Definition name_flag (r : name_report) : bool :=
  match r with Named _ _ => true | _ => false end.

(** [PCBProject.name_net]; [nets.items()] is visited in the order of
    [map_to_list], and [frames] is what is left for [find] inside the call
    of [build_nets]. *)
Definition name_net (frames : nat) (p : project) (pin name : string)
  : option (project * name_report) :=
  match parse_pin p pin with
  | None => Some (p, NameInvalid)
  | Some pp =>
      nets ← build_nets frames p;
      let pin_str := fstring_pin pp in
      match List.find (λ '(root, members), bool_decide (pin_str ∈ (members : gset string)))
              (map_to_list nets) with
      | Some (root, members) =>
          Some (set_net_names p (<[root := name]> (net_names p)),
                Named root (size members))
      | None => Some (p, NameNotInNet pin_str)
      end
  end.

(** ** Remaining pins *)

(** The set [connected] of [get_remaining_pins]. *)
Definition connected_pins (conns : gset conn) : gset string :=
  set_fold (λ c acc, acc ∪ {[fst c]} ∪ {[snd c]}) ∅ conns.

(** Order of [sorted(self.components.items())]: by reference. *)
Definition item_le (a b : string * component) : Prop := String.le (fst a) (fst b).

Global Instance item_le_dec : RelDecision item_le.
Proof. intros a b. unfold item_le. apply _. Defined.

(** [filter_prefix and not ref.startswith(filter_prefix.upper())] *)
Definition filtered_out (filter_prefix : option string) (ref : string) : bool :=
  match filter_prefix with
  | None => false
  | Some f => truthy f && negb (startswith ref (upper f))
  end.

(** [info.get("pins", 0)] *)
Definition pins_or_0 (info : component) : Z := default 0%Z (pins info).

(** The inner loop over [range(1, info["pins"] + 1)]. *)
Definition remaining_of (connected : gset string) (ref : string) (info : component)
  : list (string * Z * string) :=
  omap (λ pin_num,
          let pin_str := ref +:+ "-" +:+ pretty pin_num in
          if decide (pin_str ∉ connected) then Some (ref, pin_num, value info)
          else None)
       (seqZ 1 (pins_or_0 info)).

(** [PCBProject.get_remaining_pins] *)
Definition get_remaining_pins (p : project) (filter_prefix : option string)
  : list (string * Z * string) :=
  let connected := connected_pins (connections p) in
  mbind (M := list) (λ '(ref, info),
           if (pins_or_0 info <=? 1)%Z then []
           else if filtered_out filter_prefix ref then []
           else remaining_of connected ref info)
        (merge_sort item_le (map_to_list (components p))).

(** ** The reference normaliser as the specification words it

    The specification describes [normalize_ref] through the leading
    alphabetic run and the trailing numeric run of the text; the definitions
    below follow that wording and are compared with the code further on. *)

(** [all(f(c) for c in s)] *)
Fixpoint all_chars (f : ascii -> bool) (s : string) : bool :=
  match s with
  | EmptyString => true
  | String c s' => f c && all_chars f s'
  end.

(** The longest prefix of [s] whose characters satisfy [f]. *)
Fixpoint leading_run (f : ascii -> bool) (s : string) : string :=
  match s with
  | EmptyString => EmptyString
  | String c s' => if f c then String c (leading_run f s') else EmptyString
  end.

(** The longest suffix of [s] whose characters satisfy [f]. *)
Fixpoint trailing_run (f : ascii -> bool) (s : string) : string :=
  match s with
  | EmptyString => EmptyString
  | String c s' => if f c && all_chars f s' then s else trailing_run f s'
  end.

Definition normalize_ref_spec (input : string) : string :=
  let u := upper (strip input) in
  let prefix := leading_run isalpha u in
  let ordinal := trailing_run isdigit u in
  if truthy prefix && truthy ordinal then
    if (int ordinal <? 10)%N then prefix +:+ fmt_02d (int ordinal) else u
  else u.

(** ** Sample projects *)

(** A project holding one 2-pin resistor, [R01]. *)
Definition two_pin_resistor : project :=
  add_component empty_project "R1" (Some 2%Z).

(** Two single-pin rails, [GND] and [GND-A], connected to each other. *)
Definition two_rails : project :=
  fst (add_connection
         (add_component (add_component empty_project "GND" (Some 1%Z))
            "GND-A" (Some 1%Z))
         "GND" "GND-A").

(** A 3-pin transistor [Q01] whose pin 1 is connected to [R01-1]. *)
Definition transistor_pin1 : project :=
  fst (add_connection (add_component empty_project "Q1" None) "Q1-1" "R1-1").

(** The store [A-1~B-1], [B-1~C-1]. *)
Definition chain_abc : project :=
  fst (add_connection (fst (add_connection empty_project "A-1" "B-1")) "B-1" "C-1").

(** The same store after [delete_connection("A-1", "B-1")]. *)
Definition chain_bc : project := fst (delete_connection chain_abc "A-1" "B-1").

(** A single-pin rail [GND] connected to [R01-1]. *)
Definition gnd_rail : project :=
  fst (add_connection (add_component empty_project "GND" (Some 1%Z)) "GND" "R1-1").

(** Two resistors and a capacitor, registered with the default value and
    package. *)
Definition three_parts : project :=
  add_component (add_component (add_component empty_project "r2" None) "c1" None)
    "R1" None.

(** A rail: the single-pin component [GND] connected to pin 1 of [n] parts
    [R1000], [R1001], ...; the store holds the pairs that
    [add_connection("GND", "R1000-1")], ... leave in it.  The set is built
    by insertion, as the keys of a map, so that a long rail can be
    evaluated. *)
Definition rail_pairs (n : nat) : list conn :=
  (λ k, ("GND", "R" +:+ pretty k +:+ "-1")) <$> seq 1000 n.

Definition rail (n : nat) : project :=
  set_connections (add_component empty_project "GND" (Some 1%Z))
    (dom (list_to_map ((λ c, (c, tt)) <$> rail_pairs n) : gmap conn unit)).

(** What may follow a project when connections are removed. *)
Definition deletion_of (p q : project) : Prop :=
  (exists pin1 pin2, q = fst (delete_connection p pin1 pin2))
  \/ (exists pin, q = fst (delete_pin_connections p pin))
  \/ (exists ref, q = fst (delete_component p ref)).

(** ** Store invariants *)

(** A stored pair is in canonical order. *)
Definition ordered (c : conn) : Prop := String.leb (fst c) (snd c) = true.

Definition canonical_store (X : gset conn) : Prop := forall c, c ∈ X -> ordered c.

(** No two entries are permutations of the same pair. *)
Definition no_permuted_pairs (X : gset conn) : Prop :=
  forall a b, (a, b) ∈ X -> (b, a) ∈ X -> a = b.

(** No entry joins a pin to itself. *)
Definition no_self_loops (X : gset conn) : Prop :=
  forall c, c ∈ X -> fst c <> snd c.

(** ** The parent forest of the net builder *)

(** [reaches parent x r n]: following [parent] from [x] for [n] steps ends
    at [r], which is its own parent. *)
Inductive reaches (parent : gmap string string) : string -> string -> nat -> Prop :=
| reaches_root r :
    parent !! r = Some r -> reaches parent r r 0
| reaches_step x y r n :
    parent !! x = Some y -> y <> x -> reaches parent y r n ->
    reaches parent x r (S n).

Definition root_of (parent : gmap string string) (x r : string) : Prop :=
  exists n, reaches parent x r n.

(** Every key of the dictionary leads to a root. *)
Definition forest (parent : gmap string string) : Prop :=
  forall x, x ∈ dom parent -> exists r, root_of parent x r.

(** The endpoints of a sequence of connections. *)
Definition endpoints (order : list conn) : gset string :=
  list_to_set (fst <$> order) ∪ list_to_set (snd <$> order).

(** [nets] files the pins of [S] under their roots in [m0], and nothing
    else. *)
Definition grouped (m0 : gmap string string) (S : gset string)
    (nets : gmap string (gset string)) : Prop :=
  (forall r s, nets !! r = Some s ->
               forall pin, pin ∈ s <-> pin ∈ S /\ root_of m0 pin r)
  /\ (forall pin r, pin ∈ S -> root_of m0 pin r -> is_Some (nets !! r))
  /\ (forall r s, nets !! r = Some s -> exists pin, pin ∈ s).

(** ** merge as the specification words it *)

(** The stored pairs that reference the pin or, for a single-pin
    component, its alias [ref-1]. *)
Definition selected (p_from : parsed_pin) (X : gset conn) : gset conn :=
  filter (λ c, touches p_from c = true) X.

(** Replacing the [fromPin] endpoint: the pin itself or, for a single-pin
    component, its alias. *)
Definition spec_replace (p_from : parsed_pin) (to_str pin : string) : string :=
  if bool_decide (pin = format_pin p_from)
     || (bool_decide (snd p_from = None) && bool_decide (pin = alias_of p_from))
  then to_str else pin.

Definition spec_rewrite (p_from : parsed_pin) (to_str : string) (c : conn) : conn :=
  sort2 (spec_replace p_from to_str (fst c)) (spec_replace p_from to_str (snd c)).

(** The rewritten pairs that are not self-loops. *)
Definition migrated (p_from : parsed_pin) (to_str : string) (sel : gset conn)
  : gset conn :=
  filter (λ c, fst c <> snd c) (set_map (spec_rewrite p_from to_str) sel : gset conn).

(** The same set, computed from the list [to_update] with the replacement
    of the code. *)
Definition rewritten (p_from : parsed_pin) (to_str : string) (l : list conn)
  : gset conn :=
  list_to_set (List.filter (λ c, bool_decide (fst c <> snd c))
                 (rewrite_conn p_from to_str <$> l)).

(** The store [A-1~B-1]. *)
Definition pair_ab : project := fst (add_connection empty_project "A-1" "B-1").

(** The store [X-1~X-TAB]. *)
Definition pair_x1_xtab : project := fst (add_connection empty_project "X-1" "X-TAB").

(** The projects obtained from the empty one by registering and deleting
    components and by the mutators of the store. *)
Inductive reachable : project -> Prop :=
| reachable_empty :
    reachable empty_project
| reachable_add_component p ref n :
    reachable p -> reachable (add_component p ref n)
| reachable_delete_component p ref :
    reachable p -> reachable (fst (delete_component p ref))
| reachable_add_connection p pin1 pin2 :
    reachable p -> reachable (fst (add_connection p pin1 pin2))
| reachable_delete_connection p pin1 pin2 :
    reachable p -> reachable (fst (delete_connection p pin1 pin2))
| reachable_merge_pins p from_pin to_pin :
    reachable p -> reachable (fst (merge_pins p from_pin to_pin))
| reachable_delete_pin_connections p pin :
    reachable p -> reachable (fst (delete_pin_connections p pin)).

(** The label [parse_pin] keeps: the stripped text, with [TAB] recognised. *)
Definition label_of (part1 : string) : string :=
  if decide (upper (strip part1) = "TAB") then "TAB" else strip part1.

(** ** Connectivity *)

(** The pins [a] and [b] are joined by a stored connection of the list. *)
Definition edge (l : list conn) (a b : string) : Prop := (a, b) ∈ l.

(** Linked through zero or more connections of the list, in either
    direction. *)
Definition linked (l : list conn) : relation string := rtsc (edge l).

(** The same for the connections of a store. *)
Definition connected (X : gset conn) : relation string :=
  rtsc (λ a b, (a, b) ∈ X).

(** The forest [m] represents the classes of [linked l]: two keys have the
    same root exactly when they are linked. *)
Definition classes (m : gmap string string) (l : list conn) : Prop :=
  forest m
  /\ endpoints l ⊆ dom m
  /\ forall a b ra rb, root_of m a ra -> root_of m b rb ->
                       (ra = rb <-> linked l a b).

(** Two pins lie in one of the nets. *)
Definition in_one_net (nets : gmap string (gset string)) (a b : string) : Prop :=
  exists r s, nets !! r = Some s /\ a ∈ s /\ b ∈ s.

(** ** Order of the remaining pins *)

(** Strictly before, for two reported pins: by reference, then by pin
    number. *)
Definition remaining_lt (a b : string * Z * string) : Prop :=
  (String.le (fst (fst a)) (fst (fst b)) /\ fst (fst a) <> fst (fst b))
  \/ (fst (fst a) = fst (fst b) /\ (snd (fst a) < snd (fst b))%Z).

(** ** Export of the named nets *)

(** [s.replace(a, b)] for two characters. *)
Fixpoint replace_char (a b : ascii) (s : string) : string :=
  match s with
  | EmptyString => EmptyString
  | String c r => String (if Ascii.eqb c a then b else c) (replace_char a b r)
  end.

(** [self.net_names.get(root, f"NET_{root.replace('-', '_')}")] *)
Definition net_name (p : project) (root : string) : string :=
  default ("NET_" +:+ replace_char "-" "_" root) (net_names p !! root).

(** One value of [output["nets"]]. *)
Record net_entry := NetEntry {
  net_description : string;
  pin_count : nat;
  net_pins : list string
}.

Definition export_entry (pins : gset string) : net_entry :=
  NetEntry "" (size pins) (merge_sort String.le (elements pins)).

(** One round of the loop of [export_named_nets]:
    [output["nets"][name] = {...}]. *)
Definition export_step (p : project) (out : gmap string net_entry)
    (item : string * gset string) : gmap string net_entry :=
  <[net_name p (fst item) := export_entry (snd item)]> out.

(** The dictionary [output["nets"]] that [export_named_nets] writes to the
    JSON file, [nets.items()] being visited in the order of [map_to_list]. *)
Definition export_named_nets (frames : nat) (p : project)
  : option (gmap string net_entry) :=
  nets ← build_nets frames p;
  Some (fold_left (export_step p) (map_to_list nets) ∅).

(** The entry [e] describes the net [s]: its pins, sorted, and their
    number. *)
Definition exports_net (e : net_entry) (s : gset string) : Prop :=
  net_description e = ""
  /\ pin_count e = size s
  /\ length (net_pins e) = size s
  /\ Sorted String.le (net_pins e)
  /\ forall x, x ∈ net_pins e <-> x ∈ s.

(** Two nets of two pins each, both named [GND] by [name_net]. *)
Definition two_nets_one_name : project :=
  let p := fst (add_connection empty_project "A-1" "B-1") in
  let p := fst (add_connection p "C-1" "D-1") in
  let p := match name_net 2 p "A-1" "GND" with Some (q, _) => q | None => p end in
  match name_net 2 p "C-1" "GND" with Some (q, _) => q | None => p end.

(** ** Spelling invariants *)

(** Every endpoint of a stored pair is upper-cased and stripped. *)
Definition canonical_endpoints (X : gset conn) : Prop :=
  forall c, c ∈ X ->
            strip (upper (fst c)) = fst c /\ strip (upper (snd c)) = snd c.

(** Every key of the component table is a normalised reference. *)
Definition normalized_keys (m : gmap string component) : Prop :=
  forall ref, ref ∈ dom m -> normalize_ref ref = ref.

(** ** Finding connections *)

(** [needle in hay] for two strings: [needle] occurs in [hay]. *)
Fixpoint str_in (needle hay : string) : bool :=
  String.prefix needle hay
  || match hay with
     | EmptyString => false
     | String _ rest => str_in needle rest
     end.

(** The list [search_terms] of [find_connections]. *)
Definition search_terms (p : project) (pin_or_ref : string) : list string :=
  let original := strip (upper pin_or_ref) in
  if contains "-" original || contains "." original then
    match parse_pin p original with
    | Some pp =>
        format_pin pp :: match snd pp with None => [alias_of pp] | Some _ => [] end
    | None => [original]
    end
  else
    let normalized := normalize_ref original in
    ([normalized; original]
       ++ (if decide (normalized <> original) then [original] else []))%list.

(** The inner loop of [find_connections]: some search term occurs in one
    of the two endpoints. *)
Definition conn_matches (terms : list string) (c : conn) : bool :=
  existsb (λ search, str_in search (fst c) || str_in search (snd c)) terms.

(** The outer loop, over the store in a given order. *)
Definition find_matches (terms : list string) (order : list conn) : list conn :=
  fold_left
    (λ matches c,
       if conn_matches terms c then
         if decide (c ∈ matches) then matches else (matches ++ [c])%list
       else matches)
    order [].

(** The order of Python on pairs of strings: by the first component, then
    by the second. *)
Definition conn_le (c d : conn) : Prop :=
  String.ltb (fst c) (fst d) = true
  \/ (fst c = fst d /\ String.leb (snd c) (snd d) = true).

Global Instance conn_le_dec : RelDecision conn_le.
Proof. intros c d. unfold conn_le. apply _. Defined.

(** [PCBProject.find_connections] *)
Definition find_connections (p : project) (pin_or_ref : string) : list conn :=
  merge_sort conn_le
    (find_matches (search_terms p pin_or_ref) (elements (connections p))).

(** ** Bill of materials *)

(** One value of the dictionary [bom] of [export_bom]; the value and the
    package of the entry are its key. *)
Record bom_item := BomItem {
  bom_refs : list string;
  bom_count : nat;
  bom_description : string
}.

(** [info.get("package") in ["-", "Virtual", ""]] *)
Definition bom_skipped (info : component) : bool :=
  bool_decide (package info ∈ ["-"; "Virtual"; ""]).

(** [(value, info.get("package", "?"))] *)
Definition bom_key (info : component) : string * string :=
  (value info, package info).

(** One round of the first loop of [export_bom]; [bom] is a [defaultdict]
    whose fresh entries have no reference and the count 0. *)
Definition bom_add (bom : gmap (string * string) bom_item)
    (x : string * component) : gmap (string * string) bom_item :=
  if bom_skipped (snd x) then bom
  else
    let old := default (BomItem [] 0 "") (bom !! bom_key (snd x)) in
    <[bom_key (snd x) :=
        BomItem (bom_refs old ++ [fst x]) (S (bom_count old)) (description (snd x))]>
      bom.

Definition bom_table (p : project) : gmap (string * string) bom_item :=
  fold_left bom_add (merge_sort item_le (map_to_list (components p))) ∅.

(** A row of the file: quantity, value, package, references, description. *)
Abbreviation bom_row := (nat * string * string * string * string)%type (only parsing).

Definition bom_row_of (entry : (string * string) * bom_item) : bom_row :=
  (bom_count (snd entry), fst (fst entry), snd (fst entry),
   String.concat ", " (merge_sort String.le (bom_refs (snd entry))),
   bom_description (snd entry)).

(** The rows [export_bom] writes after the header, in the order of
    [sorted(bom.keys())]. *)
Definition export_bom (p : project) : list bom_row :=
  bom_row_of <$> merge_sort (λ a b, conn_le (fst a) (fst b)) (map_to_list (bom_table p)).

(** The value and the package of a row. *)
Definition bom_row_key (row : bom_row) : string * string :=
  (snd (fst (fst (fst row))), snd (fst (fst row))).

(** The components of a sequence that are counted under [key]. *)
Definition bom_group (key : string * string) (l : list (string * component))
  : list (string * component) :=
  filter (λ x, bom_skipped (snd x) = false /\ bom_key (snd x) = key) l.

(** What the first loop of [export_bom] has built after the components
    [done]. *)
Definition bom_inv (bom : gmap (string * string) bom_item)
    (done : list (string * component)) : Prop :=
  forall key,
    match bom !! key with
    | Some it =>
        bom_refs it = (bom_group key done).*1
        /\ bom_count it = length (bom_group key done)
        /\ exists x, last (bom_group key done) = Some x
                     /\ bom_description it = description (snd x)
    | None => bom_group key done = []
    end.

(* ================================================================== *)
(** * Properties *)

(** ** Strings *)

Section string_facts.

Lemma app_nil_l_s (s : string) : "" +:+ s = s.
Proof. reflexivity. Qed.

Lemma app_cons_s (c : ascii) (a b : string) : String c a +:+ b = String c (a +:+ b).
Proof. reflexivity. Qed.

Lemma app_nil_r_s (s : string) : s +:+ "" = s.
Proof. induction s as [|c s IH]; [done|]. by rewrite app_cons_s, IH. Qed.

Ltac by_char c := destruct c as [[] [] [] [] [] [] [] []]; vm_compute; try done.

Lemma upper_c_idem c : upper_c (upper_c c) = upper_c c.
Proof. by_char c. Qed.

Lemma isspace_upper_c c : isspace (upper_c c) = isspace c.
Proof. by_char c. Qed.

Lemma isalpha_upper_c c : isalpha (upper_c c) = isalpha c.
Proof. by_char c. Qed.

Lemma isdigit_upper_c c : isdigit (upper_c c) = isdigit c.
Proof. by_char c. Qed.

Lemma isdigit_fixed_upper c : isdigit c = true -> upper_c c = c.
Proof. by_char c. Qed.

Lemma isdigit_not_space c : isdigit c = true -> isspace c = false.
Proof. by_char c. Qed.

Lemma isdigit_not_alpha c : isdigit c = true -> isalpha c = false.
Proof. by_char c. Qed.

Lemma isalpha_not_space c : isalpha c = true -> isspace c = false.
Proof. by_char c. Qed.

Lemma isalpha_not_digit c : isalpha c = true -> isdigit c = false.
Proof. by_char c. Qed.

Lemma upper_idem s : upper (upper s) = upper s.
Proof. induction s as [|c s IH]; simpl; [done|]. by rewrite upper_c_idem, IH. Qed.

Lemma upper_app a b : upper (a +:+ b) = upper a +:+ upper b.
Proof.
  induction a as [|c a IH]; [done|].
  rewrite app_cons_s. simpl. by rewrite IH, app_cons_s.
Qed.

Lemma upper_lstrip s : upper (lstrip s) = lstrip (upper s).
Proof.
  induction s as [|c s IH]; simpl; [done|].
  rewrite isspace_upper_c. by destruct (isspace c).
Qed.

Lemma upper_rstrip s : upper (rstrip s) = rstrip (upper s).
Proof.
  induction s as [|c s IH]; simpl; [done|].
  rewrite <- IH, isspace_upper_c.
  destruct (rstrip s); simpl; [by destruct (isspace c)|done].
Qed.

Lemma upper_strip s : upper (strip s) = strip (upper s).
Proof. unfold strip. by rewrite upper_rstrip, upper_lstrip. Qed.

Lemma upper_keep f s :
  (forall c, f (upper_c c) = f c) -> upper (keep f s) = keep f (upper s).
Proof.
  intros Hf. induction s as [|c s IH]; simpl; [done|].
  rewrite Hf. destruct (f c); simpl; by rewrite IH.
Qed.

Lemma rstrip_idem s : rstrip (rstrip s) = rstrip s.
Proof.
  induction s as [|c s IH]; simpl; [done|].
  destruct (rstrip s) as [|d r] eqn:E.
  - destruct (isspace c) eqn:Ec; simpl; [done|]. by rewrite Ec.
  - simpl. simpl in IH. by rewrite IH.
Qed.

Lemma rstrip_head c s :
  isspace c = false -> exists r, rstrip (String c s) = String c r.
Proof. intros Hc. simpl. rewrite Hc. destruct (rstrip s); eauto. Qed.

Lemma lstrip_head c s : isspace c = false -> lstrip (String c s) = String c s.
Proof. intros Hc. simpl. by rewrite Hc. Qed.

Lemma lstrip_shape s :
  lstrip s = "" \/ exists c r, lstrip s = String c r /\ isspace c = false.
Proof.
  induction s as [|c s IH]; simpl; [by left|].
  destruct (isspace c) eqn:Ec; [done|]. right. eauto.
Qed.

Lemma strip_idem s : strip (strip s) = strip s.
Proof.
  unfold strip. destruct (lstrip_shape s) as [->|(c & r & -> & Hc)]; [done|].
  destruct (rstrip_head c r Hc) as [r' Hr']. rewrite Hr'.
  rewrite lstrip_head by done. rewrite <- Hr'. apply rstrip_idem.
Qed.

Lemma rstrip_app a b : b <> "" -> rstrip b = b -> rstrip (a +:+ b) = a +:+ b.
Proof.
  intros Hb Hr. induction a as [|c a IH]; [done|].
  rewrite app_cons_s. simpl. rewrite IH.
  destruct (a +:+ b) eqn:E; [|done].
  destruct a; [by rewrite app_nil_l_s in E|done].
Qed.

Lemma keep_app f a b : keep f (a +:+ b) = keep f a +:+ keep f b.
Proof.
  induction a as [|c a IH]; [done|].
  rewrite app_cons_s. simpl. destruct (f c); by rewrite IH.
Qed.

Lemma keep_keep f s : keep f (keep f s) = keep f s.
Proof.
  induction s as [|c s IH]; simpl; [done|].
  destruct (f c) eqn:E; simpl; [by rewrite E, IH|done].
Qed.

Lemma keep_disjoint f g s :
  (forall c, f c = true -> g c = false) -> keep g (keep f s) = "".
Proof.
  intros Hfg. induction s as [|c s IH]; simpl; [done|].
  destruct (f c) eqn:E; simpl; [by rewrite (Hfg c E)|done].
Qed.

Lemma keep_head f s :
  truthy (keep f s) = true -> exists c r, keep f s = String c r /\ f c = true.
Proof.
  induction s as [|c s IH]; simpl; [done|].
  destruct (f c) eqn:E; eauto.
Qed.

(** A width-2 zero-padded number below ten is ["0"] and its digit. *)
Lemma fmt_02d_small (n : N) :
  (n < 10)%N ->
  exists d, fmt_02d n = String "0" (String d "")
            /\ isdigit d = true /\ digit_val d = n.
Proof.
  intros Hn. rewrite <- (N2Nat.id n).
  assert (N.to_nat n < 10)%nat as Hk by lia.
  revert Hk. generalize (N.to_nat n) as k. intros k Hk.
  do 10 (destruct k as [|k];
         [eexists; (split; [vm_compute; reflexivity|split; vm_compute; reflexivity])|]).
  lia.
Qed.

End string_facts.

(** ** normalize_ref *)

(** The upper-cased, stripped text is a fixed point of upper-casing and
    stripping. *)
Lemma canon_fixed (s : string) :
  strip (upper (strip (upper s))) = strip (upper s).
Proof. by rewrite upper_strip, upper_idem, strip_idem. Qed.

Lemma upper_canon (s : string) : upper (strip (upper s)) = strip (upper s).
Proof. by rewrite upper_strip, upper_idem. Qed.

(** The padded form: letters followed by ["0"] and one digit. *)
Lemma padded_form_fixed (s : string) (d : ascii) :
  let u := strip (upper s) in
  truthy (keep isalpha u) = true ->
  isdigit d = true ->
  let r := keep isalpha u +:+ String "0" (String d "") in
  strip (upper r) = r
  /\ keep isalpha r = keep isalpha u
  /\ keep isdigit r = String "0" (String d "").
Proof.
  intros u Hl Hd r.
  assert (upper r = r) as Hup.
  { unfold r. rewrite upper_app, (upper_keep isalpha) by apply isalpha_upper_c.
    unfold u at 1. rewrite upper_canon. simpl.
    by rewrite (isdigit_fixed_upper d Hd). }
  assert (isspace d = false) as Hsp by by apply isdigit_not_space.
  assert (isalpha d = false) as Hal by by apply isdigit_not_alpha.
  split; [|split].
  - rewrite Hup. unfold strip.
    destruct (keep_head _ _ Hl) as (c & l & Hc & Hac).
    assert (lstrip r = r) as ->.
    { unfold r. rewrite Hc, app_cons_s. apply lstrip_head.
      by apply isalpha_not_space. }
    unfold r. apply rstrip_app; [done|]. simpl. by rewrite Hsp.
  - unfold r. rewrite keep_app, keep_keep. simpl. rewrite Hal.
    apply app_nil_r_s.
  - unfold r. rewrite keep_app, (keep_disjoint isalpha isdigit)
      by apply isalpha_not_digit.
    simpl. by rewrite Hd.
Qed.

Lemma keep_all f s : all_chars f s = true -> keep f s = s.
Proof.
  induction s as [|c s IH]; simpl; [done|].
  intros [-> Hs]%andb_prop. by rewrite IH.
Qed.

Lemma keep_none f g s :
  (forall c, f c = true -> g c = false) -> all_chars f s = true -> keep g s = "".
Proof.
  intros Hfg. induction s as [|c s IH]; simpl; [done|].
  intros [Hc Hs]%andb_prop. by rewrite (Hfg c Hc), IH.
Qed.

Lemma leading_run_none f g s :
  (forall c, f c = true -> g c = false) -> all_chars f s = true ->
  leading_run g s = "".
Proof.
  intros Hfg. destruct s as [|c s]; simpl; [done|].
  intros [Hc Hs]%andb_prop. by rewrite (Hfg c Hc).
Qed.

Lemma leading_run_app f g a b :
  (forall c, g c = true -> f c = false) ->
  all_chars f a = true -> all_chars g b = true -> leading_run f (a +:+ b) = a.
Proof.
  intros Hgf Ha Hb. induction a as [|c a IH].
  - rewrite app_nil_l_s. by apply (leading_run_none g f).
  - rewrite app_cons_s. simpl in *. apply andb_prop in Ha as [-> Ha].
    by rewrite IH.
Qed.

Lemma trailing_run_all f s : all_chars f s = true -> trailing_run f s = s.
Proof. destruct s as [|c s]; simpl; [done|]. by intros ->. Qed.

Lemma trailing_run_app f g a b :
  (forall c, g c = true -> f c = false) ->
  all_chars g a = true -> all_chars f b = true -> trailing_run f (a +:+ b) = b.
Proof.
  intros Hgf Ha Hb. induction a as [|c a IH].
  - rewrite app_nil_l_s. by apply trailing_run_all.
  - rewrite app_cons_s. simpl in *. apply andb_prop in Ha as [Hc Ha].
    rewrite (Hgf c Hc). simpl. by apply IH.
Qed.

(** C8. [normalize_ref] is idempotent: normalising a normalised reference
    returns it unchanged, for every input string. *)
Theorem normalize_ref_idempotent (x : string) :
  normalize_ref (normalize_ref x) = normalize_ref x.
Proof.
  unfold normalize_ref at 2 3.
  set (u := strip (upper x)).
  destruct (truthy (keep isalpha u)) eqn:Hl; simpl;
    [destruct (truthy (keep isdigit u)) eqn:Hd; simpl;
     [destruct (int (keep isdigit u) <? 10)%N eqn:Hn|]|].
  - apply N.ltb_lt in Hn.
    destruct (fmt_02d_small _ Hn) as (d & Hfmt & Hdig & Hval).
    rewrite Hfmt.
    destruct (padded_form_fixed x d Hl Hdig) as (Hfix & Hal & Hdg).
    fold u in Hfix, Hal, Hdg.
    unfold normalize_ref. rewrite Hfix, Hal, Hdg, Hl. simpl.
    assert (int (String "0" (String d "")) = int (keep isdigit u)) as ->.
    { change (int (String "0" (String d "")))
        with ((0 * 10 + digit_val "0") * 10 + digit_val d)%N.
      change (digit_val "0") with 0%N. lia. }
    apply N.ltb_lt in Hn. by rewrite Hn, Hfmt.
  - unfold normalize_ref, u. rewrite canon_fixed. fold u.
    by rewrite Hl, Hd, Hn.
  - unfold normalize_ref, u. rewrite canon_fixed. fold u.
    by rewrite Hl, Hd.
  - unfold normalize_ref, u. rewrite canon_fixed. fold u.
    by rewrite Hl.
Qed.

(** The code and the wording of the specification agree on a text made of
    letters followed by digits. *)
Lemma normalize_ref_runs_agree (s p d : string) :
  strip (upper s) = p +:+ d ->
  all_chars isalpha p = true -> all_chars isdigit d = true ->
  normalize_ref s = normalize_ref_spec s.
Proof.
  intros Hu Hp Hd. unfold normalize_ref, normalize_ref_spec.
  rewrite upper_strip, Hu.
  rewrite keep_app, (keep_all _ _ Hp), (keep_none isdigit isalpha d)
    by (done || apply isdigit_not_alpha).
  rewrite keep_app, (keep_all _ _ Hd), (keep_none isalpha isdigit p)
    by (done || apply isalpha_not_digit).
  rewrite app_nil_r_s, app_nil_l_s.
  rewrite (leading_run_app isalpha isdigit) by (done || apply isdigit_not_alpha).
  by rewrite (trailing_run_app isdigit isalpha) by (done || apply isalpha_not_digit).
Qed.

(** C6 (as stated) fails: the text ["4D"] has no leading alphabetic run, so
    the specification's wording returns it unchanged, while the code
    collects the letter and the digit wherever they stand and returns
    ["D04"]. *)
Lemma normalize_ref_not_by_runs :
  leading_run isalpha (upper (strip "4D")) = ""
  /\ normalize_ref_spec "4D" = "4D"
  /\ normalize_ref "4D" = "D04"
  /\ normalize_ref "4D" <> normalize_ref_spec "4D".
Proof. by vm_compute. Qed.

(** C6 (amended). [normalize_ref] upper-cases and strips its input; its
    prefix is made of all the alphabetic characters of that text and its
    ordinal of all the digit characters, wherever they occur.  When both are
    non-empty and the ordinal is below ten the result is the prefix followed
    by the ordinal padded with a zero to width two (so ["D4"] becomes
    ["D04"]); in every other case (no letter, no digit, or an ordinal of ten
    or more) the result is the upper-cased, stripped input.  On a text made
    of a run of letters followed by a run of digits this is what the
    specification words describe. *)
Theorem normalize_ref_letters_digits (s : string) :
  let u := strip (upper s) in
  let letters := keep isalpha u in
  let digits := keep isdigit u in
  (letters <> "" -> digits <> "" -> (int digits < 10)%N ->
   exists d, isdigit d = true /\ digit_val d = int digits
             /\ normalize_ref s = letters +:+ String "0" (String d ""))
  /\ (letters = "" \/ digits = "" \/ (10 <= int digits)%N -> normalize_ref s = u)
  /\ (forall p d, u = p +:+ d ->
       all_chars isalpha p = true -> all_chars isdigit d = true ->
       letters = p /\ digits = d /\ normalize_ref s = normalize_ref_spec s)
  /\ normalize_ref "D4" = "D04" /\ normalize_ref "D12" = "D12".
Proof.
  intros u letters digits. split; [|split; [|split]].
  - intros Hl Hd Hn.
    destruct (fmt_02d_small _ Hn) as (d & Hfmt & Hdig & Hval).
    exists d. split; [done|split; [done|]].
    unfold normalize_ref. fold u. fold letters. fold digits.
    destruct letters; [done|]. destruct digits; [done|]. simpl.
    apply N.ltb_lt in Hn. by rewrite Hn, Hfmt.
  - intros H. unfold normalize_ref. fold u. fold letters. fold digits.
    destruct H as [->|[->|Hn]]; [done|by rewrite andb_false_r|].
    apply N.ltb_ge in Hn. rewrite Hn. by destruct (_ && _).
  - intros p d Hu Hp Hd. split; [|split].
    + unfold letters. rewrite Hu, keep_app, (keep_all _ _ Hp).
      rewrite (keep_none isdigit isalpha d) by (done || apply isdigit_not_alpha).
      apply app_nil_r_s.
    + unfold digits. rewrite Hu, keep_app, (keep_all _ _ Hd).
      by rewrite (keep_none isalpha isdigit p) by (done || apply isalpha_not_digit).
    + by apply (normalize_ref_runs_agree s p d).
  - by vm_compute.
Qed.

Lemma normalize_ref_letters_digits_witness :
  normalize_ref " d4 " = normalize_ref_spec " d4 ".
Proof.
  destruct (normalize_ref_letters_digits " d4 ") as (_ & _ & H & _).
  apply (H "D" "4"); reflexivity.
Defined.

(** ** parse_pin *)

Lemma contains_split1 (sep : ascii) (s : string) :
  contains sep s = true -> exists a b, split1 sep s = [a; b].
Proof.
  induction s as [|c s IH]; simpl; [done|].
  destruct (Ascii.eqb c sep); [eauto|].
  intros (a & b & ->)%IH. eauto.
Qed.

Lemma parse_pin_seps_some (p : project) (t : string) (seps : list ascii) :
  (exists sep, sep ∈ seps /\ contains sep t = true) ->
  is_Some (parse_pin_seps p t seps).
Proof.
  induction seps as [|sep seps IH]; intros (sep' & Hin & Hc).
  - by apply elem_of_nil in Hin.
  - simpl. destruct (contains sep t) eqn:Hs.
    + destruct (contains_split1 _ _ Hs) as (a & b & ->).
      by destruct (single_pin p (normalize_ref a)).
    + apply IH. exists sep'. split; [|done].
      apply elem_of_cons in Hin as [->|Hin]; [congruence|done].
Qed.

Lemma auto_add_connections (p : project) (pp : parsed_pin) :
  connections (auto_add p pp) = connections p.
Proof. unfold auto_add. by destruct (decide _). Qed.

Lemma add_connection_stores (p : project) (t1 t2 : string) (p1 p2 : parsed_pin) :
  parse_pin p t1 = Some p1 -> parse_pin p t2 = Some p2 ->
  sort2 (format_pin p1) (format_pin p2) ∈ connections (fst (add_connection p t1 t2)).
Proof.
  intros H1 H2. unfold add_connection. rewrite H1, H2.
  destruct (decide _) as [Hin|Hnin]; simpl; [done|].
  apply elem_of_union_r. by apply elem_of_singleton.
Qed.

Lemma split1_contains (sep : ascii) (s a b : string) :
  split1 sep s = [a; b] -> contains sep s = true.
Proof.
  revert a b. induction s as [|c s IH]; intros a b; simpl; [done|].
  destruct (Ascii.eqb c sep); [done|].
  destruct (split1 sep s) as [|a' [|b' [|]]] eqn:E; try done.
  intros _. by eapply IH.
Qed.

(** The first separator of the list that occurs in the token decides the
    split. *)
Lemma parse_pin_seps_first (p : project) (t : string)
    (before after : list ascii) (sep : ascii) (part0 part1 : string) :
  (forall s, s ∈ before -> contains s t = false) ->
  split1 sep t = [part0; part1] ->
  parse_pin_seps p t (before ++ sep :: after)
  = if single_pin p (normalize_ref part0) then Some (normalize_ref part0, None)
    else Some (normalize_ref part0,
               Some (if decide (upper (strip part1) = "TAB") then "TAB"
                     else strip part1)).
Proof.
  intros Hbefore Hsplit. induction before as [|s before IH]; simpl.
  - by rewrite (split1_contains _ _ _ _ Hsplit), Hsplit.
  - rewrite (Hbefore s) by constructor. apply IH.
    intros s' Hs'. apply Hbefore. by constructor.
Qed.

(** C10. [parse_pin] accepts every token that contains one of the
    separators; for a token [ref<sep>label] whose reference is not a
    registered single-pin component it returns the normalised reference with
    the label as typed, whatever the pin count of the component.  Hence
    [add_connection] stores a connection on a label beyond the pin count:
    pin 7 of the 2-pin resistor [R01] is connected to [C01-1]. *)
Theorem parse_pin_label_unchecked :
  (forall (p : project) (tok : string),
      (exists sep, sep ∈ ["-"; "."; "_"]%char
                   /\ contains sep (strip (upper tok)) = true) ->
      is_Some (parse_pin p tok))
  /\ (forall (p : project) (tok : string) (before after : list ascii)
             (sep : ascii) (part0 part1 : string),
        ["-"; "."; "_"]%char = (before ++ sep :: after)%list ->
        (forall s, s ∈ before -> contains s (strip (upper tok)) = false) ->
        split1 sep (strip (upper tok)) = [part0; part1] ->
        single_pin p (strip (upper tok)) = false ->
        single_pin p (normalize_ref part0) = false ->
        parse_pin p tok
        = Some (normalize_ref part0,
                Some (if decide (upper (strip part1) = "TAB") then "TAB"
                      else strip part1)))
  /\ (forall (p : project) (t1 t2 : string) (p1 p2 : parsed_pin),
        parse_pin p t1 = Some p1 -> parse_pin p t2 = Some p2 ->
        sort2 (format_pin p1) (format_pin p2)
          ∈ connections (fst (add_connection p t1 t2)))
  /\ (pins <$> components two_pin_resistor !! "R01" = Some (Some 2%Z)
      /\ parse_pin two_pin_resistor "R1-7" = Some ("R01", Some "7")
      /\ snd (add_connection two_pin_resistor "R1-7" "C1-1") = true
      /\ elements (connections (fst (add_connection two_pin_resistor "R1-7" "C1-1")))
         = [("C01-1", "R01-7")]).
Proof.
  split; [|split; [|split]].
  - intros p tok Hsep. unfold parse_pin.
    destruct (single_pin p (strip (upper tok))); [done|].
    destruct (parse_pin_seps_some p (strip (upper tok)) _ Hsep) as [r ->]. done.
  - intros p tok before after sep part0 part1 Hseps Hbefore Hsplit Hs1 Hs2.
    unfold parse_pin. rewrite Hs1, Hseps.
    by rewrite (parse_pin_seps_first _ _ _ _ _ _ _ Hbefore Hsplit), Hs2.
  - apply add_connection_stores.
  - by vm_compute.
Qed.

Lemma parse_pin_label_unchecked_witness :
  parse_pin two_pin_resistor "r1.9" = Some ("R01", Some "9").
Proof.
  destruct parse_pin_label_unchecked as (_ & H & _).
  apply (H two_pin_resistor "r1.9" ["-"%char] ["_"%char] "."%char "R1" "9").
  - reflexivity.
  - intros s Hs. apply list_elem_of_singleton in Hs. rewrite Hs. reflexivity.
  - reflexivity.
  - reflexivity.
  - reflexivity.
Defined.

(** ** delete_component *)

Lemma remove_each (l : list conn) (X : gset conn) :
  fold_left (λ conns c, conns ∖ {[c]}) l X = X ∖ list_to_set l.
Proof.
  revert X. induction l as [|c l IH]; intros X; simpl.
  - set_solver.
  - rewrite IH. set_solver.
Qed.

Lemma remove_filtered (f : conn -> bool) (X : gset conn) (c : conn) :
  c ∈ fold_left (λ conns c, conns ∖ {[c]}) (List.filter f (elements X)) X
  <-> c ∈ X /\ f c = false.
Proof.
  rewrite remove_each, elem_of_difference, elem_of_list_to_set.
  rewrite list_elem_of_In, filter_In, <- list_elem_of_In, elem_of_elements.
  destruct (f c); naive_solver.
Qed.

Lemma prefix_longer (r s : string) : s <> "" -> String.prefix (r +:+ s) r = false.
Proof.
  intros Hs. induction r as [|c r IH].
  - rewrite app_nil_l_s. by destruct s.
  - rewrite app_cons_s. simpl. by destruct (ascii_dec c c).
Qed.

(** C9 (as stated) fails: with the single-pin rails [GND] and [GND-A]
    connected, the stored pair has the bare reference [GND] as an endpoint,
    yet deleting the component [GND] removes it, because its other endpoint
    starts with ["GND-"]. *)
Lemma delete_component_drops_bare_pair :
  elements (connections two_rails) = [("GND", "GND-A")]
  /\ normalize_ref "GND" = "GND"
  /\ snd (delete_component two_rails "GND") = true
  /\ ("GND", "GND-A") ∉ connections (fst (delete_component two_rails "GND")).
Proof.
  split; [by vm_compute|split; [by vm_compute|split; [by vm_compute|]]].
  intros H%elem_of_elements. vm_compute in H. by apply elem_of_nil in H.
Qed.

(** C9 (amended). [delete_component(ref)], for a registered component,
    removes from the store exactly the pairs having an endpoint that starts
    with the normalised reference followed by ["-"]; a pair whose endpoint
    is the bare reference itself stays in the store unless its other
    endpoint starts with that prefix.  For an unknown component nothing
    changes. *)
Theorem delete_component_frame (p : project) (ref : string) :
  let r := normalize_ref ref in
  let p' := fst (delete_component p ref) in
  (r ∈ dom (components p) ->
   forall c, c ∈ connections p' <->
             c ∈ connections p
             /\ startswith (fst c) (r +:+ "-") = false
             /\ startswith (snd c) (r +:+ "-") = false)
  /\ (r ∈ dom (components p) ->
      forall other,
        startswith other (r +:+ "-") = false ->
        ((r, other) ∈ connections p -> (r, other) ∈ connections p')
        /\ ((other, r) ∈ connections p -> (other, r) ∈ connections p'))
  /\ (r ∉ dom (components p) -> delete_component p ref = (p, false)).
Proof.
  intros r p'.
  assert (r ∈ dom (components p) ->
          forall c, c ∈ connections p' <->
                    c ∈ connections p
                    /\ startswith (fst c) (r +:+ "-") = false
                    /\ startswith (snd c) (r +:+ "-") = false) as Hmain.
  { intros Hin c. unfold p', delete_component. fold r.
    destruct (decide _) as [_|]; [|done]. simpl.
    rewrite remove_filtered, orb_false_iff. done. }
  split; [done|split].
  - intros Hin other Ho.
    assert (startswith r (r +:+ "-") = false) as Hr by by apply prefix_longer.
    split; intros Hc; apply (Hmain Hin); simpl; done.
  - intros Hnin. unfold delete_component. fold r. by destruct (decide _).
Qed.

Lemma delete_component_frame_witness :
  ("GND", "R01-1") ∈ connections
     (fst (delete_component
             (fst (add_connection (add_component empty_project "GND" (Some 1%Z))
                     "GND" "R1-1")) "gnd")).
Proof.
  pose proof (delete_component_frame
    (fst (add_connection (add_component empty_project "GND" (Some 1%Z))
            "GND" "R1-1")) "gnd") as (_ & H & _).
  apply (H ltac:(by vm_compute) "R01-1"); [reflexivity|].
  apply elem_of_elements. vm_compute. constructor.
Defined.

(** ** Canonical order of the store *)

Lemma sort2_ordered (a b : string) : ordered (sort2 a b).
Proof.
  unfold ordered, sort2, String.ltb, String.leb.
  destruct (String.compare b a) eqn:E; simpl.
  - rewrite String.compare_antisym, E. done.
  - by rewrite E.
  - rewrite String.compare_antisym, E. done.
Qed.

Lemma canonical_no_permuted (X : gset conn) :
  canonical_store X -> no_permuted_pairs X.
Proof.
  intros HX a b Hab Hba. apply String.leb_antisym.
  - apply (HX _ Hab).
  - apply (HX _ Hba).
Qed.

Lemma canonical_subseteq (X Y : gset conn) :
  Y ⊆ X -> canonical_store X -> canonical_store Y.
Proof. intros HYX HX c Hc. apply HX, HYX, Hc. Qed.

Lemma canonical_add (X : gset conn) (a b : string) :
  canonical_store X -> canonical_store (X ∪ {[sort2 a b]}).
Proof.
  intros HX c [Hc| ->%elem_of_singleton]%elem_of_union; [by apply HX|].
  apply sort2_ordered.
Qed.

Lemma add_connection_canonical (p : project) (pin1 pin2 : string) :
  canonical_store (connections p) ->
  canonical_store (connections (fst (add_connection p pin1 pin2))).
Proof.
  intros HX. unfold add_connection.
  destruct (parse_pin p pin1) as [p1|]; [|done].
  destruct (parse_pin p pin2) as [p2|]; [|done].
  destruct (decide _); simpl; rewrite !auto_add_connections; [done|].
  by apply canonical_add.
Qed.

Lemma delete_connection_canonical (p : project) (pin1 pin2 : string) :
  canonical_store (connections p) ->
  canonical_store (connections (fst (delete_connection p pin1 pin2))).
Proof.
  intros HX. unfold delete_connection.
  destruct (parse_pin p pin1) as [p1|]; [|done].
  destruct (parse_pin p pin2) as [p2|]; [|done].
  destruct (decide _); simpl.
  - eapply canonical_subseteq; [|done]. set_solver.
  - destruct (List.find _ _); simpl; [|done].
    eapply canonical_subseteq; [|done]. set_solver.
Qed.

Lemma merge_loop_canonical (p_from : parsed_pin) (to_str : string)
    (l : list conn) (X : gset conn) (n : nat) :
  canonical_store X -> canonical_store (fst (merge_loop p_from to_str l X n)).
Proof.
  revert X n. induction l as [|c l IH]; intros X n HX; simpl; [done|].
  assert (canonical_store (X ∖ {[c]})) as HX'.
  { eapply canonical_subseteq; [|done]. set_solver. }
  destruct (decide _); [destruct (decide _)|]; apply IH; try done.
  by apply canonical_add.
Qed.

Lemma merge_pins_canonical (p : project) (from_pin to_pin : string) :
  canonical_store (connections p) ->
  canonical_store (connections (fst (merge_pins p from_pin to_pin))).
Proof.
  intros HX. unfold merge_pins, merge_pins_on.
  destruct (parse_pin p from_pin) as [p_from|]; [|done].
  destruct (parse_pin p to_pin) as [p_to|]; [|done].
  destruct (List.filter _ _) as [|c l] eqn:E; [done|].
  pose proof (merge_loop_canonical p_from (format_pin p_to) (c :: l)
                (connections p) 0 HX) as H.
  by destruct (merge_loop _ _ _ _ _).
Qed.

Lemma delete_pin_connections_canonical (p : project) (pin : string) :
  canonical_store (connections p) ->
  canonical_store (connections (fst (delete_pin_connections p pin))).
Proof.
  intros HX. unfold delete_pin_connections.
  destruct (parse_pin p pin) as [pp|]; [|done].
  destruct (List.filter _ _) as [|c l] eqn:E; [done|]. simpl fst.
  unfold set_connections, connections at 1. rewrite remove_each.
  eapply canonical_subseteq; [|done]. set_solver.
Qed.

Lemma delete_component_canonical (p : project) (ref : string) :
  canonical_store (connections p) ->
  canonical_store (connections (fst (delete_component p ref))).
Proof.
  intros HX. unfold delete_component. destruct (decide _); [|done]. simpl.
  rewrite remove_each. eapply canonical_subseteq; [|done]. set_solver.
Qed.

(** The half of the invariant that holds: every reachable store keeps its
    pairs sorted, hence holds no two permutations of one pair. *)
Lemma reachable_canonical (p : project) :
  reachable p -> canonical_store (connections p).
Proof.
  induction 1 as [|p ref n _ IH|p ref _ IH|p a b _ IH|p a b _ IH|p a b _ IH|p a _ IH].
  - intros c Hc. simpl in Hc. set_solver.
  - done.
  - by apply delete_component_canonical.
  - by apply add_connection_canonical.
  - by apply delete_connection_canonical.
  - by apply merge_pins_canonical.
  - by apply delete_pin_connections_canonical.
Qed.

Lemma reachable_no_permuted (p : project) :
  reachable p -> no_permuted_pairs (connections p).
Proof. intros H. by apply canonical_no_permuted, reachable_canonical. Qed.

(** C1. The store invariant is broken by [add_connection]: on the empty
    project, connecting [A-1] to itself succeeds and leaves the self-loop
    [(A-1, A-1)] in the store.  ([merge_pins] does test for this case.) *)
Theorem add_connection_stores_self_loop :
  reachable (fst (add_connection empty_project "A-1" "A-1"))
  /\ snd (add_connection empty_project "A-1" "A-1") = true
  /\ elements (connections (fst (add_connection empty_project "A-1" "A-1")))
     = [("A-1", "A-1")]
  /\ ~ no_self_loops (connections (fst (add_connection empty_project "A-1" "A-1"))).
Proof.
  split; [apply reachable_add_connection, reachable_empty|].
  split; [by vm_compute|split; [by vm_compute|]].
  intros H. apply (H ("A-1", "A-1")); [|done].
  apply elem_of_elements. vm_compute. constructor.
Qed.

(** ** merge_pins *)

(** One step of the loop on the untouched pairs [A] and the rewritten pairs
    [R]: [c] is removed and its rewriting [d] is added when it is new. *)
Lemma merge_step_new (A R : gset conn) (c d : conn) :
  c ∈ A -> (c ∈ R -> d = c) -> d ∉ (A ∪ R) ∖ {[c]} ->
  (A ∪ R) ∖ {[c]} ∪ {[d]} = A ∖ {[c]} ∪ (R ∪ {[d]})
  /\ size ((R ∪ {[d]}) ∖ (A ∖ {[c]})) = S (size (R ∖ A)).
Proof.
  intros HcA HcR Hnew. split.
  - apply set_eq. intros x. destruct (decide (x = c)) as [->|]; set_solver.
  - assert ((R ∪ {[d]}) ∖ (A ∖ {[c]}) = (R ∖ A) ∪ {[d]}) as ->.
    { apply set_eq. intros x. destruct (decide (d = c)) as [->|]; 
      destruct (decide (x = c)) as [->|]; set_solver. }
    rewrite size_union, size_singleton; [lia|].
    destruct (decide (d = c)) as [->|];  set_solver.
Qed.

Lemma merge_step_old (A R : gset conn) (c d : conn) :
  c ∈ A -> (c ∈ R -> d = c) -> d ∈ (A ∪ R) ∖ {[c]} ->
  (A ∪ R) ∖ {[c]} = A ∖ {[c]} ∪ (R ∪ {[d]})
  /\ size ((R ∪ {[d]}) ∖ (A ∖ {[c]})) = size (R ∖ A).
Proof.
  intros HcA HcR Hold.
  assert (d <> c) as Hdc by set_solver.
  assert (c ∉ R) as HcR' by (intros Hc; by destruct Hdc; apply HcR).
  clear HcR. split.
  - set_solver.
  - f_equal. set_solver.
Qed.

Lemma merge_step_loop (A R : gset conn) (c : conn) :
  c ∈ A -> c ∉ R ->
  (A ∪ R) ∖ {[c]} = A ∖ {[c]} ∪ R
  /\ size (R ∖ (A ∖ {[c]})) = size (R ∖ A).
Proof.
  intros HcA HcR. split.
  - set_solver.
  - f_equal. set_solver.
Qed.

Section merge.

Variables (p_from : parsed_pin) (to_str : string).

Implicit Types (c d : conn) (X A R : gset conn) (l : list conn).

Lemma ltb_asym (a b : string) : String.ltb b a = true -> String.ltb a b = false.
Proof.
  unfold String.ltb. rewrite (String.compare_antisym b a).
  by destruct (String.compare a b).
Qed.

Lemma sort2_idem (a b : string) :
  sort2 (fst (sort2 a b)) (snd (sort2 a b)) = sort2 a b.
Proof.
  unfold sort2 at 2 3 4. destruct (String.ltb b a) eqn:E; simpl.
  - unfold sort2. by rewrite (ltb_asym _ _ E).
  - unfold sort2. by rewrite E.
Qed.

Lemma replace_pin_idem (pin : string) :
  replace_pin p_from to_str (replace_pin p_from to_str pin)
  = replace_pin p_from to_str pin.
Proof.
  unfold replace_pin.
  destruct (bool_decide (pin = format_pin p_from) || bool_decide (pin = alias_of p_from))
    eqn:E; simpl; [|by rewrite E].
  by destruct (bool_decide (to_str = format_pin p_from)
               || bool_decide (to_str = alias_of p_from)).
Qed.

Lemma rewrite_conn_idem c :
  rewrite_conn p_from to_str (rewrite_conn p_from to_str c)
  = rewrite_conn p_from to_str c.
Proof.
  unfold rewrite_conn.
  set (a := replace_pin p_from to_str (fst c)).
  set (b := replace_pin p_from to_str (snd c)).
  assert (replace_pin p_from to_str a = a) as Ha by apply replace_pin_idem.
  assert (replace_pin p_from to_str b = b) as Hb by apply replace_pin_idem.
  unfold sort2 at 2 3 4. destruct (String.ltb b a) eqn:E; simpl; rewrite Ha, Hb.
  - unfold sort2. by rewrite (ltb_asym _ _ E).
  - unfold sort2. by rewrite E.
Qed.

Lemma elem_of_rewritten l d :
  d ∈ rewritten p_from to_str l
  <-> fst d <> snd d /\ exists c, c ∈ l /\ d = rewrite_conn p_from to_str c.
Proof.
  unfold rewritten.
  rewrite elem_of_list_to_set, list_elem_of_In, filter_In, <- list_elem_of_In.
  rewrite list_elem_of_fmap, bool_decide_eq_true. naive_solver.
Qed.

Lemma rewritten_fixed l d :
  d ∈ rewritten p_from to_str l -> rewrite_conn p_from to_str d = d.
Proof.
  intros (_ & c & _ & ->)%elem_of_rewritten. apply rewrite_conn_idem.
Qed.

Lemma rewritten_snoc_loop l c :
  fst (rewrite_conn p_from to_str c) = snd (rewrite_conn p_from to_str c) ->
  rewritten p_from to_str (l ++ [c]) = rewritten p_from to_str l.
Proof.
  intros Hloop. apply set_eq. intros d. rewrite !elem_of_rewritten.
  setoid_rewrite elem_of_app. setoid_rewrite list_elem_of_singleton.
  naive_solver.
Qed.

Lemma rewritten_snoc l c :
  fst (rewrite_conn p_from to_str c) <> snd (rewrite_conn p_from to_str c) ->
  rewritten p_from to_str (l ++ [c])
  = rewritten p_from to_str l ∪ {[rewrite_conn p_from to_str c]}.
Proof.
  intros Hloop. apply set_eq. intros d.
  rewrite elem_of_union, elem_of_singleton, !elem_of_rewritten.
  setoid_rewrite elem_of_app. setoid_rewrite list_elem_of_singleton.
  naive_solver.
Qed.

(** The loop of [merge_pins] after the pairs of [done]: the store is the
    untouched pairs with the rewritten ones, the counter is the number of
    rewritten pairs that are not untouched pairs. *)
Lemma merge_loop_inv (todo done : list conn) X :
  NoDup (done ++ todo) -> (forall c, c ∈ todo -> c ∈ X) ->
  merge_loop p_from to_str todo
    (X ∖ list_to_set done ∪ rewritten p_from to_str done)
    (size (rewritten p_from to_str done ∖ (X ∖ list_to_set done)))
  = (X ∖ list_to_set (done ++ todo) ∪ rewritten p_from to_str (done ++ todo),
     size (rewritten p_from to_str (done ++ todo)
             ∖ (X ∖ list_to_set (done ++ todo)))).
Proof.
  revert done. induction todo as [|c todo IH]; intros done Hnd Hin.
  - simpl. by rewrite app_nil_r.
  - assert (c ∈ X) as HcX by (apply Hin; constructor).
    assert (c ∉ done) as Hcd.
    { apply NoDup_app in Hnd as (_ & Hdis & _). intros Hc.
      apply (Hdis c Hc). constructor. }
    rewrite (cons_middle c done todo), app_assoc in *.
    specialize (IH (done ++ [c])%list Hnd ltac:(intros; apply Hin; by constructor)).
    rewrite <- IH. clear IH. simpl.
    set (A := X ∖ list_to_set done).
    set (R := rewritten p_from to_str done).
    set (d := rewrite_conn p_from to_str c).
    assert (c ∈ A) as HcA.
    { unfold A. apply elem_of_difference. by rewrite elem_of_list_to_set. }
    assert (X ∖ list_to_set (done ++ [c])%list = A ∖ {[c]}) as ->.
    { unfold A. rewrite list_to_set_app_L. set_solver. }
    assert (c ∈ R -> d = c /\ fst d <> snd d) as HcR.
    { intros Hc. unfold d. rewrite (rewritten_fixed _ _ Hc).
      apply elem_of_rewritten in Hc. tauto. }
    destruct (decide (fst d <> snd d)) as [Hnl|Hl].
    + rewrite (rewritten_snoc done c Hnl). fold R. fold d.
      assert (c ∈ R -> d = c) as HcR'' by (intros Hc; by destruct (HcR Hc)).
      clearbody A R d.
      destruct (decide (d ∉ (A ∪ R) ∖ {[c]})) as [Hnew|Hold].
      * destruct (merge_step_new A R c d HcA HcR'' Hnew) as [-> ->]. done.
      * apply dec_stable in Hold.
        destruct (merge_step_old A R c d HcA HcR'' Hold) as [<- ->]. done.
    + apply dec_stable in Hl.
      rewrite (rewritten_snoc_loop done c Hl). fold R.
      assert (c ∉ R) as HcR' by (intros Hc; by destruct (HcR Hc)).
      clearbody A R d.
      destruct (merge_step_loop A R c HcA HcR') as [<- ->]. done.
Qed.

Lemma merge_loop_run (l : list conn) X :
  NoDup l -> (forall c, c ∈ l -> c ∈ X) ->
  merge_loop p_from to_str l X 0
  = (X ∖ list_to_set l ∪ rewritten p_from to_str l,
     size (rewritten p_from to_str l ∖ (X ∖ list_to_set l))).
Proof.
  intros Hnd Hin. pose proof (merge_loop_inv l [] X Hnd Hin) as H.
  simpl in H. rewrite <- H. f_equal.
  - unfold rewritten. simpl. set_solver.
  - unfold rewritten. simpl.
    replace (∅ ∖ (X ∖ ∅)) with (∅ : gset conn) by set_solver.
    by rewrite size_empty.
Qed.

End merge.

Lemma in_conn_sort2 (x a b : string) :
  in_conn x (sort2 a b) = in_conn x (a, b).
Proof.
  unfold sort2, in_conn. destruct (String.ltb b a); simpl; [|done].
  apply orb_comm.
Qed.

Lemma to_update_NoDup (f : conn -> bool) (X : gset conn) :
  NoDup (List.filter f (elements X)).
Proof. apply NoDup_ListNoDup, List.NoDup_filter, NoDup_ListNoDup, NoDup_elements. Qed.

Lemma elem_of_to_update (p_from : parsed_pin) (X : gset conn) (c : conn) :
  c ∈ List.filter (touches p_from) (elements X) <-> c ∈ selected p_from X.
Proof.
  unfold selected.
  rewrite list_elem_of_In, filter_In, <- list_elem_of_In, elem_of_elements.
  rewrite elem_of_filter. tauto.
Qed.

Lemma to_update_set (p_from : parsed_pin) (X : gset conn) :
  list_to_set (List.filter (touches p_from) (elements X)) = selected p_from X.
Proof.
  apply set_eq. intros c. by rewrite elem_of_list_to_set, elem_of_to_update.
Qed.

(** Where the replacement of the code and the one of the specification
    agree: on a single-pin [fromPin], and on pairs without the endpoint
    [ref-1]. *)
Lemma rewrite_conn_spec (p_from : parsed_pin) (to_str : string) (c : conn) :
  snd p_from = None \/ alias_of p_from = format_pin p_from
  \/ in_conn (alias_of p_from) c = false ->
  rewrite_conn p_from to_str c = spec_rewrite p_from to_str c.
Proof.
  intros H. unfold rewrite_conn, spec_rewrite, replace_pin, spec_replace.
  destruct H as [->|[->|H]]; [done| |].
  { f_equal.
    - destruct (bool_decide (fst c = format_pin p_from)); [done|].
      by rewrite andb_false_r.
    - destruct (bool_decide (snd c = format_pin p_from)); [done|].
      by rewrite andb_false_r. }
  unfold in_conn in H. apply orb_false_iff in H as [H1 H2].
  apply bool_decide_eq_false in H1, H2.
  assert (bool_decide (fst c = alias_of p_from) = false) as ->
    by (apply bool_decide_eq_false; congruence).
  assert (bool_decide (snd c = alias_of p_from) = false) as ->
    by (apply bool_decide_eq_false; congruence).
  by rewrite !andb_false_r.
Qed.

Lemma elem_of_migrated (p_from : parsed_pin) (to_str : string)
    (sel : gset conn) (d : conn) :
  d ∈ migrated p_from to_str sel
  <-> fst d <> snd d /\ exists c, c ∈ sel /\ d = spec_rewrite p_from to_str c.
Proof.
  unfold migrated. rewrite elem_of_filter, elem_of_map. naive_solver.
Qed.

Lemma rewritten_migrated (p_from : parsed_pin) (to_str : string) (X : gset conn) :
  (snd p_from = None \/ alias_of p_from = format_pin p_from
   \/ forall c, c ∈ selected p_from X -> in_conn (alias_of p_from) c = false) ->
  rewritten p_from to_str (List.filter (touches p_from) (elements X))
  = migrated p_from to_str (selected p_from X).
Proof.
  intros Hslip. apply set_eq. intros d.
  rewrite elem_of_rewritten, elem_of_migrated.
  setoid_rewrite elem_of_to_update.
  assert (forall c, c ∈ selected p_from X ->
                    rewrite_conn p_from to_str c = spec_rewrite p_from to_str c) as Heq.
  { intros c Hc. apply rewrite_conn_spec.
    destruct Hslip as [?|[?|H]]; [by left|by right; left|].
    right. right. by apply H. }
  split; intros (Hd & c & Hc & ->); (split; [done|]); exists c;
    (split; [done|]); [|symmetry]; by apply Heq.
Qed.

Lemma spec_replace_not_from (p_from : parsed_pin) (to_str pin : string) :
  format_pin p_from <> to_str ->
  spec_replace p_from to_str pin <> format_pin p_from.
Proof.
  intros Hne. unfold spec_replace.
  destruct (bool_decide (pin = format_pin p_from)) eqn:E; simpl; [congruence|].
  apply bool_decide_eq_false in E.
  destruct (_ && _); congruence.
Qed.

(** C5 (as stated) fails: merging [A-1] into itself on the store [A-1~B-1]
    reports one migrated pair and leaves the pair in place, so the pin still
    appears in a stored connection afterwards. *)
Lemma merge_pins_self_keeps_pin :
  elements (connections pair_ab) = [("A-1", "B-1")]
  /\ merge_pins pair_ab "A-1" "A-1" = (pair_ab, Merged 1)
  /\ in_conn "A-1" ("A-1", "B-1") = true
  /\ ("A-1", "B-1") ∈ connections (fst (merge_pins pair_ab "A-1" "A-1")).
Proof.
  split; [compute_done|split; [compute_done|split; [done|]]].
  apply elem_of_elements. vm_compute. constructor.
Qed.

(** The replacement of the code also rewrites the endpoint [ref-1] when
    [fromPin] carries a label: on the store [X-1~X-TAB], merging [X-TAB]
    into [Y-1] turns the pair into a self-loop and drops it, where replacing
    the [fromPin] endpoint alone gives [X-1~Y-1]. *)
Lemma merge_pins_alias_rewritten :
  elements (connections pair_x1_xtab) = [("X-1", "X-TAB")]
  /\ parse_pin pair_x1_xtab "X-TAB" = Some ("X", Some "TAB")
  /\ rewrite_conn ("X", Some "TAB") "Y-1" ("X-1", "X-TAB") = ("Y-1", "Y-1")
  /\ spec_rewrite ("X", Some "TAB") "Y-1" ("X-1", "X-TAB") = ("X-1", "Y-1")
  /\ merge_pins pair_x1_xtab "X-TAB" "Y-1"
     = (set_connections pair_x1_xtab ∅, Merged 0).
Proof.
  split; [compute_done|split; [compute_done|split; [compute_done|]]].
  split; compute_done.
Qed.

(** C5 (amended). Let [fromPin] and [toPin] parse, and let no selected pair
    have the endpoint [ref-1] when [fromPin] carries a label other than [1]
    (a single-pin [fromPin] and pin [1] itself are covered).  [merge_pins] does
    nothing when no stored pair references [fromPin] (or, for a single-pin
    component, its alias).  Otherwise the store becomes the untouched pairs
    together with the selected pairs rewritten (the [fromPin] endpoint
    replaced by [toPin], the pair sorted again), self-loops left out and
    pairs already present kept once; the reported count is the number of
    distinct rewritten pairs that were not among the untouched pairs; and
    when [toPin] is another pin than [fromPin], [fromPin] is an endpoint of
    no stored connection afterwards. *)
Theorem merge_pins_spec (p : project) (from_pin to_pin : string)
    (p_from p_to : parsed_pin) :
  parse_pin p from_pin = Some p_from ->
  parse_pin p to_pin = Some p_to ->
  let from_str := format_pin p_from in
  let to_str := format_pin p_to in
  let sel := selected p_from (connections p) in
  let kept := connections p ∖ sel in
  let moved := migrated p_from to_str sel in
  (snd p_from = None \/ alias_of p_from = format_pin p_from
   \/ forall c, c ∈ sel -> in_conn (alias_of p_from) c = false) ->
  (sel = ∅ -> merge_pins p from_pin to_pin = (p, MergeNothing))
  /\ (sel <> ∅ ->
      merge_pins p from_pin to_pin
      = (set_connections p (kept ∪ moved), Merged (size (moved ∖ kept))))
  /\ (from_str <> to_str ->
      forall c, c ∈ kept ∪ moved -> in_conn from_str c = false).
Proof.
  intros Hfrom Hto from_str to_str sel kept moved Hslip.
  set (l := List.filter (touches p_from) (elements (connections p))).
  assert (list_to_set l = sel) as Hl by apply to_update_set.
  split; [|split].
  - intros Hsel. unfold merge_pins, merge_pins_on. rewrite Hfrom, Hto. fold l.
    destruct l as [|c l']; [done|].
    assert (c ∈ sel) as Hc by (rewrite <- Hl; set_solver).
    rewrite Hsel in Hc. set_solver.
  - intros Hsel. unfold merge_pins, merge_pins_on. rewrite Hfrom, Hto. fold l.
    assert (l <> []) as Hne.
    { intros E. apply Hsel. rewrite <- Hl, E. done. }
    rewrite (merge_loop_run p_from (format_pin p_to) l (connections p)).
    + fold to_str. rewrite Hl. unfold l.
      rewrite (rewritten_migrated p_from to_str (connections p) Hslip).
      fold sel. fold moved. fold kept. by destruct (List.filter _ _).
    + apply to_update_NoDup.
    + intros c Hc%elem_of_to_update. unfold selected in Hc.
      by apply elem_of_filter in Hc as [_ Hc].
  - intros Hne c [Hc|Hc]%elem_of_union.
    + apply elem_of_difference in Hc as [HcX Hcs].
      destruct (in_conn from_str c) eqn:E; [|done].
      destruct Hcs. unfold sel, selected. apply elem_of_filter. split; [|done].
      unfold touches. fold from_str. by rewrite E.
    + apply elem_of_migrated in Hc as (_ & c0 & _ & ->).
      unfold spec_rewrite. rewrite in_conn_sort2. unfold in_conn. simpl.
      apply orb_false_iff. split; apply bool_decide_eq_false; intros E;
        symmetry in E; by apply spec_replace_not_from in E.
Qed.

Lemma merge_pins_spec_witness :
  merge_pins pair_ab "A-1" "C-1"
  = (set_connections pair_ab
       ((connections pair_ab ∖ selected ("A", Some "1") (connections pair_ab))
        ∪ migrated ("A", Some "1") "C-1"
            (selected ("A", Some "1") (connections pair_ab))),
     Merged (size (migrated ("A", Some "1") "C-1"
                     (selected ("A", Some "1") (connections pair_ab))
                   ∖ (connections pair_ab
                      ∖ selected ("A", Some "1") (connections pair_ab))))).
Proof.
  pose proof (merge_pins_spec pair_ab "A-1" "C-1" ("A", Some "1") ("C", Some "1"))
    as H.
  destruct H as (_ & H & _).
  - vm_compute. reflexivity.
  - vm_compute. reflexivity.
  - right. left. reflexivity.
  - apply H. intros E.
    assert (("A-1", "B-1") ∈ selected ("A", Some "1") (connections pair_ab)) as Hin.
    { apply elem_of_filter. split; [reflexivity|].
      apply elem_of_elements. vm_compute. constructor. }
    rewrite E in Hin. exact (not_elem_of_empty _ Hin).
Defined.

(** Merging pin 1: on the store [A-1~B-1], [merge_pins("A-1", "C-1")] moves
    the one pair to [B-1~C-1] and reports 1; merging the single-pin [GND]
    of the store [GND~R01-1] into [R01-2] gives [R01-1~R01-2]. *)
Lemma merge_pins_pin_one :
  elements (connections (fst (merge_pins pair_ab "A-1" "C-1"))) = [("B-1", "C-1")]
  /\ snd (merge_pins pair_ab "A-1" "C-1") = Merged 1
  /\ elements (connections (fst (merge_pins gnd_rail "GND" "R1-2")))
     = [("R01-1", "R01-2")]
  /\ snd (merge_pins gnd_rail "GND" "R1-2") = Merged 1.
Proof. repeat split; compute_done. Qed.

(** ** The net builder *)

Section forest_facts.

Implicit Types (m : gmap string string) (x y z r : string) (n : nat).

Lemma reaches_functional m x r r' n n' :
  reaches m x r n -> reaches m x r' n' -> r = r' /\ n = n'.
Proof.
  intros H. revert r' n'. induction H as [r Hr|x y r n Hx Hne Hy IH];
    intros r' n' H'; inversion H' as [? Hr'|? y' ? k Hx' Hne' Hy']; subst.
  - done.
  - congruence.
  - congruence.
  - rewrite Hx in Hx'. injection Hx' as <-.
    destruct (IH _ _ Hy') as [-> ->]. done.
Qed.

Lemma root_of_functional m x r r' : root_of m x r -> root_of m x r' -> r = r'.
Proof. intros [n H] [n' H']. by destruct (reaches_functional _ _ _ _ _ _ H H'). Qed.

Lemma reaches_is_root m x r n : reaches m x r n -> m !! r = Some r.
Proof. induction 1; done. Qed.

Lemma reaches_dom m x r n : reaches m x r n -> x ∈ dom m.
Proof. intros H. apply elem_of_dom. destruct H; eauto. Qed.

Lemma root_of_root m r : m !! r = Some r -> root_of m r r.
Proof. intros H. exists 0. by constructor. Qed.

Lemma root_of_is_root m x r : root_of m x r -> m !! r = Some r.
Proof. intros [n H]. by eapply reaches_is_root. Qed.

(** The keys met on the way to the root are pairwise distinct. *)
Lemma reaches_nodes m x r n :
  reaches m x r n ->
  exists l : list string,
    length l = S n /\ NoDup l
    /\ forall y, y ∈ l -> exists k, k <= n /\ reaches m y r k.
Proof.
  induction 1 as [r Hr|x y r n Hx Hne Hy (l & Hlen & Hnd & Hl)].
  - exists [r]. split; [done|split; [apply NoDup_singleton|]].
    intros y ->%list_elem_of_singleton. exists 0. split; [done|by constructor].
  - exists (x :: l). split; [simpl; by rewrite Hlen|split].
    + apply NoDup_cons. split; [|done].
      intros (k & Hk & Hxk)%Hl.
      assert (reaches m x r (S n)) as Hx' by by econstructor.
      destruct (reaches_functional _ _ _ _ _ _ Hxk Hx') as [_ ->]. lia.
    + intros z [->|Hz]%elem_of_cons.
      * exists (S n). split; [done|by econstructor].
      * destruct (Hl z Hz) as (k & Hk & Hzk). exists k. split; [lia|done].
Qed.

(** A chain of parents is shorter than the dictionary. *)
Lemma reaches_bound m x r n : reaches m x r n -> n < size m.
Proof.
  intros (l & Hlen & Hnd & Hl)%reaches_nodes.
  assert (list_to_set l ⊆ dom m) as Hsub.
  { intros y Hy%elem_of_list_to_set. destruct (Hl y Hy) as (k & _ & Hk).
    by eapply reaches_dom. }
  apply subseteq_size in Hsub.
  rewrite size_list_to_set, size_dom in Hsub by done. lia.
Qed.

Lemma reaches_insert_fresh m x z r n :
  m !! x = None -> reaches m z r n -> reaches (<[x := x]> m) z r n.
Proof.
  intros Hx. induction 1 as [r Hr|z y r n Hz Hne Hy IH].
  - constructor. rewrite lookup_insert_ne; [done|congruence].
  - econstructor; [|done|done]. rewrite lookup_insert_ne; [done|congruence].
Qed.

Lemma ensure_dom m x : dom (ensure m x) = dom m ∪ {[x]}.
Proof.
  unfold ensure. destruct (m !! x) eqn:E.
  - apply (elem_of_dom_2 m) in E. set_solver.
  - rewrite dom_insert_L. set_solver.
Qed.

Lemma ensure_roots m x z rz : root_of m z rz -> root_of (ensure m x) z rz.
Proof.
  unfold ensure. destruct (m !! x) eqn:E; [done|].
  intros [n H]. exists n. by apply reaches_insert_fresh.
Qed.

Lemma ensure_forest m x : forest m -> forest (ensure m x).
Proof.
  intros Hm z. rewrite ensure_dom. intros [Hz| ->%elem_of_singleton]%elem_of_union.
  - destruct (Hm z Hz) as [r Hr]. exists r. by apply ensure_roots.
  - unfold ensure. destruct (m !! x) eqn:E.
    + apply Hm. by apply (elem_of_dom_2 m x s).
    + exists x. apply root_of_root. apply lookup_insert_eq.
Qed.

Lemma ensure_idem m x : ensure (ensure m x) x = ensure m x.
Proof.
  unfold ensure. destruct (m !! x) eqn:E.
  - by rewrite E.
  - by rewrite lookup_insert_eq.
Qed.

(** Path compression: pointing [x] at its root keeps every root. *)
Lemma compress_roots m x r z rz :
  root_of m x r -> root_of m z rz -> root_of (<[x := r]> m) z rz.
Proof.
  intros Hx [n Hz]. induction Hz as [rz Hrz|z y rz n Hzy Hne Hy IH].
  - apply root_of_root. destruct (decide (x = rz)) as [->|Hne].
    + rewrite (root_of_functional _ _ _ _ Hx (root_of_root _ _ Hrz)).
      apply lookup_insert_eq.
    + by rewrite lookup_insert_ne.
  - destruct (decide (x = z)) as [->|Hxz].
    + assert (root_of m z rz) as Hz' by (exists (S n); by econstructor).
      rewrite (root_of_functional _ _ _ _ Hx Hz').
      pose proof (reaches_is_root _ _ _ _ Hy) as Hroot.
      destruct (decide (rz = z)) as [->|Hrz]; [congruence|].
      exists 1. econstructor; [apply lookup_insert_eq|done|].
      constructor. by rewrite lookup_insert_ne.
    + destruct IH as [k Hk]. exists (S k).
      apply (reaches_step _ z y rz k); [by rewrite lookup_insert_ne|done|done].
Qed.

(** Linking the root [px] under the root [py] moves the keys of [px]. *)
Lemma link_roots m px py z rz :
  m !! px = Some px -> m !! py = Some py -> px <> py ->
  root_of m z rz ->
  root_of (<[px := py]> m) z (if decide (rz = px) then py else rz).
Proof.
  intros Hpx Hpy Hne [n Hz]. induction Hz as [rz Hrz|z y rz n Hzy Hne' Hy IH].
  - destruct (decide (rz = px)) as [->|Hrz'].
    + exists 1. econstructor; [apply lookup_insert_eq|congruence|].
      constructor. by rewrite lookup_insert_ne.
    + apply root_of_root. by rewrite lookup_insert_ne.
  - destruct IH as [k Hk]. exists (S k).
    apply (reaches_step _ z y _ k); [|done|done].
    rewrite lookup_insert_ne; [done|]. intros <-. congruence.
Qed.

Lemma ensure_known m x y : m !! x = Some y -> ensure m x = m.
Proof. unfold ensure. by intros ->. Qed.

(** [find] returns the root, keeps the keys and keeps every root, as soon
    as more nested calls are left than the chain has links. *)
Lemma find_reaches m x r n frames :
  reaches m x r n -> n < frames ->
  exists m', find frames m x = Some (m', r)
             /\ dom m' = dom m
             /\ forall z rz, root_of m z rz -> root_of m' z rz.
Proof.
  intros H. revert frames.
  induction H as [r Hr|x y r n Hx Hne Hy IH]; intros frames Hf.
  - destruct frames as [|k]; [lia|]. exists m. simpl.
    rewrite (ensure_known _ _ _ Hr), Hr. simpl.
    destruct (decide (r <> r)); done.
  - destruct frames as [|k]; [lia|].
    destruct (IH k ltac:(lia)) as (m2 & Hfind & Hdom & Hroots).
    exists (<[x := r]> m2). simpl.
    rewrite (ensure_known _ _ _ Hx), Hx. simpl.
    destruct (decide (y <> x)); [|done].
    rewrite Hfind. simpl. rewrite lookup_insert_eq. simpl.
    split; [done|split].
    + rewrite dom_insert_L, Hdom.
      apply (elem_of_dom_2 m) in Hx. set_solver.
    + intros z rz Hz. apply compress_roots; apply Hroots; [|done].
      exists (S n). by econstructor.
Qed.

(** [find] raises when the chain has as many links as nested calls are
    left, or more. *)
Lemma find_raises m x r n frames :
  reaches m x r n -> frames <= n -> find frames m x = None.
Proof.
  intros H. revert frames.
  induction H as [r Hr|x y r n Hx Hne Hy IH]; intros frames Hf.
  - by assert (frames = 0) as -> by lia.
  - destruct frames as [|k]; [done|]. simpl.
    rewrite (ensure_known _ _ _ Hx), Hx. simpl.
    destruct (decide (y <> x)); [|done].
    by rewrite (IH k ltac:(lia)).
Qed.

Lemma find_ensure frames m x : find frames (ensure m x) x = find frames m x.
Proof. destruct frames as [|k]; [done|]. simpl. by rewrite ensure_idem. Qed.

(** A call that returns returns the same with more frames left. *)
Lemma find_more_frames frames frames' m x res :
  find frames m x = Some res -> frames <= frames' -> find frames' m x = Some res.
Proof.
  revert frames' m x res.
  induction frames as [|k IH]; intros frames' m x res; [done|].
  intros Hfind Hle. destruct frames' as [|k']; [lia|]. simpl in *.
  destruct (ensure m x !! x) as [px|]; [|done]. simpl in *.
  destruct (decide (px <> x)); [|done].
  destruct (find k (ensure m x) px) as [[m1 r]|] eqn:E; [|done].
  by rewrite (IH k' _ _ _ E ltac:(lia)).
Qed.

(** A call of [find] from the loops returns when the interpreter allows as
    many nested calls as the dictionary has keys once [x] is one of them. *)
Lemma find_returns frames m x :
  forest m -> size (dom m ∪ {[x]}) <= frames ->
  exists m' r, find frames m x = Some (m', r)
               /\ forest m'
               /\ dom m' = dom m ∪ {[x]}
               /\ root_of m' x r
               /\ (forall z rz, root_of m z rz -> root_of m' z rz)
               /\ (forall z rz, root_of (ensure m x) z rz -> root_of m' z rz).
Proof.
  intros Hm Hsize.
  pose proof (ensure_forest m x Hm) as Hm1.
  destruct (Hm1 x) as (r & n & Hr); [rewrite ensure_dom; set_solver|].
  assert (n < frames) as Hn.
  { pose proof (reaches_bound _ _ _ _ Hr) as Hb.
    rewrite <- (size_dom (ensure m x)), ensure_dom in Hb. lia. }
  destruct (find_reaches _ _ _ _ _ Hr Hn) as (m' & Hfind & Hdom & Hroots).
  rewrite find_ensure in Hfind.
  exists m', r. split; [done|].
  assert (forall z rz, root_of m z rz -> root_of m' z rz) as Hall.
  { intros z rz Hz. by apply Hroots, ensure_roots. }
  split; [|split; [|split; [|done]]].
  - intros z Hz. rewrite Hdom in Hz. destruct (Hm1 z Hz) as [rz Hrz].
    exists rz. by apply Hroots.
  - by rewrite Hdom, ensure_dom.
  - apply Hroots. by exists n.
Qed.

End forest_facts.

Section net_builder.

Implicit Types (m : gmap string string) (x y z r : string).
Implicit Types (nets : gmap string (gset string)) (S : gset string).

Lemma endpoints_nil : endpoints [] = ∅.
Proof. unfold endpoints. set_solver. Qed.

Lemma endpoints_cons (c : conn) (l : list conn) :
  endpoints (c :: l) = {[fst c]} ∪ {[snd c]} ∪ endpoints l.
Proof. unfold endpoints. simpl. set_solver. Qed.

Lemma elem_of_endpoints (l : list conn) x :
  x ∈ endpoints l <-> exists c, c ∈ l /\ (x = fst c \/ x = snd c).
Proof.
  unfold endpoints. rewrite elem_of_union, !elem_of_list_to_set, !list_elem_of_fmap.
  naive_solver.
Qed.

Lemma union_pins_spec frames m x y :
  forest m -> size (dom m ∪ {[x]} ∪ {[y]}) <= frames ->
  exists m', union_pins frames m x y = Some m'
             /\ forest m' /\ dom m' = dom m ∪ {[x]} ∪ {[y]}.
Proof.
  intros Hm Hsize. unfold union_pins.
  destruct (find_returns frames m x Hm)
    as (m1 & px & -> & Hm1 & Hd1 & Hpx & H01 & _).
  { etrans; [|exact Hsize]. apply subseteq_size. set_solver. }
  simpl.
  destruct (find_returns frames m1 y Hm1)
    as (m2 & py & -> & Hm2 & Hd2 & Hpy & H12 & _).
  { by rewrite Hd1. }
  simpl. destruct (decide (px <> py)) as [Hne|_].
  - eexists. split; [done|].
    assert (m2 !! px = Some px) as Hrx.
    { apply (root_of_is_root m2 px), H12, root_of_root.
      by apply (root_of_is_root m1 x). }
    assert (m2 !! py = Some py) as Hry by by apply (root_of_is_root m2 y).
    assert (dom (<[px := py]> m2) = dom m2) as Hd.
    { rewrite dom_insert_L. apply (elem_of_dom_2 m2) in Hrx. set_solver. }
    split; [|by rewrite Hd, Hd2, Hd1].
    intros z Hz. rewrite Hd in Hz. destruct (Hm2 z Hz) as [rz Hrz].
    eexists. by apply link_roots.
  - exists m2. split; [done|split; [done|]]. by rewrite Hd2, Hd1.
Qed.

Lemma union_all_spec frames (l : list conn) m :
  forest m -> size (dom m ∪ endpoints l) <= frames ->
  exists m', union_all frames l m = Some m'
             /\ forest m' /\ dom m' = dom m ∪ endpoints l.
Proof.
  revert m. induction l as [|c l IH]; intros m Hm Hsize; simpl.
  - exists m. rewrite endpoints_nil. split; [done|split; [done|set_solver]].
  - rewrite endpoints_cons in Hsize.
    destruct (union_pins_spec frames m (fst c) (snd c) Hm)
      as (m1 & -> & Hm1 & Hd1).
    { etrans; [|exact Hsize]. apply subseteq_size. set_solver. }
    simpl. destruct (IH m1 Hm1) as (m' & -> & Hm' & Hd').
    { etrans; [|exact Hsize]. apply subseteq_size. rewrite Hd1. set_solver. }
    exists m'. split; [done|split; [done|]].
    rewrite Hd', Hd1, endpoints_cons. set_solver.
Qed.

Lemma grouped_add m0 S nets pin r :
  root_of m0 pin r -> grouped m0 S nets ->
  grouped m0 (S ∪ {[pin]}) (nets_add nets r pin).
Proof.
  intros Hr (G1 & G2 & G3). unfold nets_add. split; [|split].
  - intros r' s'. destruct (decide (r = r')) as [<-|Hne].
    + rewrite lookup_insert_eq. intros [= <-] pin'.
      rewrite elem_of_union, elem_of_singleton.
      destruct (nets !! r) as [old|] eqn:E; simpl.
      * rewrite (G1 _ _ E). set_solver.
      * split.
        -- intros [[]%not_elem_of_empty| ->]. set_solver.
        -- intros [[Hin| ->%elem_of_singleton]%elem_of_union Hroot]; [|by right].
           destruct (G2 _ _ Hin Hroot) as [? ?]. congruence.
    + rewrite lookup_insert_ne by done. intros E pin'.
      rewrite (G1 _ _ E). split; [set_solver|].
      intros [[Hin| ->%elem_of_singleton]%elem_of_union Hroot]; [done|].
      destruct Hne. by eapply root_of_functional.
  - intros pin' r' [Hin| ->%elem_of_singleton]%elem_of_union Hroot.
    + destruct (decide (r = r')) as [<-|Hne].
      * rewrite lookup_insert_eq. eauto.
      * rewrite lookup_insert_ne by done. eauto.
    + rewrite (root_of_functional _ _ _ _ Hroot Hr), lookup_insert_eq. eauto.
  - intros r' s'. destruct (decide (r = r')) as [<-|Hne].
    + rewrite lookup_insert_eq. intros [= <-]. exists pin. set_solver.
    + rewrite lookup_insert_ne by done. apply G3.
Qed.

Lemma group_pin_spec frames m0 m nets S pin :
  forest m0 -> forest m ->
  (forall z rz, root_of m0 z rz -> root_of m z rz) ->
  dom m = dom m0 -> size (dom m0) <= frames ->
  pin ∈ dom m0 -> grouped m0 S nets ->
  exists m' nets',
    group_pin frames (m, nets) pin = Some (m', nets')
    /\ forest m'
    /\ (forall z rz, root_of m0 z rz -> root_of m' z rz)
    /\ dom m' = dom m0
    /\ grouped m0 (S ∪ {[pin]}) nets'.
Proof.
  intros Hm0 Hm H0 Hdom Hsize Hpin HG. unfold group_pin. simpl.
  assert (dom m ∪ {[pin]} = dom m0) as Hd by (rewrite Hdom; set_solver).
  destruct (find_returns frames m pin Hm)
    as (m' & r & -> & Hm' & Hd' & Hr & Hroots & _).
  { by rewrite Hd. }
  simpl. exists m', (nets_add nets r pin).
  split; [done|split; [done|split; [by auto|split; [by rewrite Hd', Hd|]]]].
  apply grouped_add; [|done].
  destruct (Hm0 pin Hpin) as [r0 Hr0].
  by rewrite (root_of_functional _ _ _ _ Hr (Hroots _ _ (H0 _ _ Hr0))).
Qed.

Lemma group_all_spec frames m0 (l : list conn) m nets S :
  forest m0 -> size (dom m0) <= frames -> forest m ->
  (forall z rz, root_of m0 z rz -> root_of m z rz) ->
  dom m = dom m0 ->
  endpoints l ⊆ dom m0 -> grouped m0 S nets ->
  exists m' nets',
    group_all frames l (m, nets) = Some (m', nets')
    /\ grouped m0 (S ∪ endpoints l) nets'.
Proof.
  intros Hm0 Hsize. revert m nets S.
  induction l as [|c l IH]; intros m nets S Hm H0 Hdom Hsub HG; simpl.
  - exists m, nets. rewrite endpoints_nil. split; [done|].
    by replace (S ∪ ∅) with S by set_solver.
  - rewrite endpoints_cons in Hsub.
    destruct (group_pin_spec frames m0 m nets S (fst c))
      as (m1 & n1 & -> & Hm1 & H1 & Hd1 & G1);
      [done|done|done|done|done|set_solver|done|].
    simpl.
    destruct (group_pin_spec frames m0 m1 n1 (S ∪ {[fst c]}) (snd c))
      as (m2 & n2 & -> & Hm2 & H2 & Hd2 & G2);
      [done|done|done|done|done|set_solver|done|].
    simpl.
    destruct (IH m2 n2 (S ∪ {[fst c]} ∪ {[snd c]})) as (m' & nets' & -> & G');
      [done|done|done|set_solver|done|].
    exists m', nets'. split; [done|].
    rewrite endpoints_cons.
    by replace (S ∪ ({[fst c]} ∪ {[snd c]} ∪ endpoints l))
      with (S ∪ {[fst c]} ∪ {[snd c]} ∪ endpoints l) by set_solver.
Qed.

Lemma forest_empty : forest ∅.
Proof. intros x Hx. rewrite dom_empty_L in Hx. set_solver. Qed.

(** [build_nets] returns, in whatever order the store is visited, when the
    interpreter allows as many nested calls of [find] as the store has
    endpoints; what it returns groups the endpoints by the root of the final
    forest. *)
Lemma build_nets_on_grouped frames (order : list conn) :
  size (endpoints order) <= frames ->
  exists m0 nets,
    build_nets_on frames order = Some nets
    /\ forest m0 /\ dom m0 = endpoints order
    /\ grouped m0 (endpoints order) nets.
Proof.
  intros Hsize. unfold build_nets_on.
  destruct (union_all_spec frames order ∅ forest_empty) as (m0 & -> & Hm0 & Hd0).
  { by rewrite dom_empty_L, (left_id_L ∅ (∪)). }
  simpl.
  assert (dom m0 = endpoints order) as Hd by (rewrite Hd0, dom_empty_L; set_solver).
  destruct (group_all_spec frames m0 order m0 ∅ ∅) as (m' & nets & -> & HG);
    [done|by rewrite Hd|done|done|done|by rewrite Hd| |].
  - split; [|split].
    + intros r s. by rewrite lookup_empty.
    + intros pin r []%not_elem_of_empty.
    + intros r s. by rewrite lookup_empty.
  - simpl. exists m0, nets. split; [done|split; [done|split; [done|]]].
    by rewrite (left_id_L ∅ (∪)) in HG.
Qed.

End net_builder.

(** ** More frames change no result *)

Lemma union_pins_more_frames frames frames' (m : gmap string string)
    (x y : string) (res : gmap string string) :
  union_pins frames m x y = Some res -> frames <= frames' ->
  union_pins frames' m x y = Some res.
Proof.
  unfold union_pins. intros H Hle.
  destruct (find frames m x) as [[m1 px]|] eqn:E1; [|done].
  rewrite (find_more_frames _ _ _ _ _ E1 Hle). simpl in *.
  destruct (find frames m1 y) as [[m2 py]|] eqn:E2; [|done].
  by rewrite (find_more_frames _ _ _ _ _ E2 Hle).
Qed.

Lemma union_all_more_frames frames frames' (l : list (string * string))
    (m res : gmap string string) :
  union_all frames l m = Some res -> frames <= frames' ->
  union_all frames' l m = Some res.
Proof.
  intros H Hle. revert m H. induction l as [|c l IH]; intros m H; simpl in *; [done|].
  destruct (union_pins frames m (fst c) (snd c)) as [m1|] eqn:E; [|done].
  rewrite (union_pins_more_frames _ _ _ _ _ _ E Hle). simpl in *. by apply IH.
Qed.

Lemma group_pin_more_frames frames frames'
    (st res : gmap string string * gmap string (gset string)) (pin : string) :
  group_pin frames st pin = Some res -> frames <= frames' ->
  group_pin frames' st pin = Some res.
Proof.
  unfold group_pin. intros H Hle.
  destruct (find frames (fst st) pin) as [[m1 r]|] eqn:E; [|done].
  by rewrite (find_more_frames _ _ _ _ _ E Hle).
Qed.

Lemma group_all_more_frames frames frames' (l : list (string * string))
    (st res : gmap string string * gmap string (gset string)) :
  group_all frames l st = Some res -> frames <= frames' ->
  group_all frames' l st = Some res.
Proof.
  intros H Hle. revert st H. induction l as [|c l IH]; intros st H; simpl in *; [done|].
  destruct (group_pin frames st (fst c)) as [st1|] eqn:E1; [|done].
  rewrite (group_pin_more_frames _ _ _ _ _ E1 Hle). simpl in *.
  destruct (group_pin frames st1 (snd c)) as [st2|] eqn:E2; [|done].
  rewrite (group_pin_more_frames _ _ _ _ _ E2 Hle). simpl in *. by apply IH.
Qed.

Lemma build_nets_on_more_frames frames frames' (order : list (string * string))
    (nets : gmap string (gset string)) :
  build_nets_on frames order = Some nets -> frames <= frames' ->
  build_nets_on frames' order = Some nets.
Proof.
  unfold build_nets_on. intros H Hle.
  destruct (union_all frames order ∅) as [m0|] eqn:E1; [|done].
  rewrite (union_all_more_frames _ _ _ _ _ E1 Hle). simpl in *.
  destruct (group_all frames order (m0, ∅)) as [st|] eqn:E2; [|done].
  by rewrite (group_all_more_frames _ _ _ _ _ E2 Hle).
Qed.

Lemma build_nets_more_frames frames frames' (p : project)
    (nets : gmap string (gset string)) :
  build_nets frames p = Some nets -> frames <= frames' ->
  build_nets frames' p = Some nets.
Proof. apply build_nets_on_more_frames. Qed.

(** With fewer frames left a [RecursionError] stays one. *)
Lemma build_nets_fewer_frames frames frames' (p : project) :
  build_nets frames' p = None -> frames <= frames' -> build_nets frames p = None.
Proof.
  intros Hnone Hle. destruct (build_nets frames p) as [nets|] eqn:E; [|done].
  by rewrite (build_nets_more_frames _ _ _ _ E Hle) in Hnone.
Qed.

Lemma build_nets_on_returns frames (order : list (string * string)) :
  size (endpoints order) <= frames -> is_Some (build_nets_on frames order).
Proof.
  intros Hsize. destruct (build_nets_on_grouped frames order Hsize) as (_ & nets & -> & _).
  by exists nets.
Qed.

(** Whenever [build_nets] returns, what it returns groups the endpoints by
    the root of a forest over them. *)
Lemma build_nets_on_run frames (order : list (string * string))
    (nets : gmap string (gset string)) :
  build_nets_on frames order = Some nets ->
  exists m0, forest m0 /\ dom m0 = endpoints order
             /\ grouped m0 (endpoints order) nets.
Proof.
  intros Hrun.
  destruct (build_nets_on_grouped (frames `max` size (endpoints order)) order)
    as (m0 & nets' & Hrun' & H); [lia|].
  rewrite (build_nets_on_more_frames _ _ _ _ Hrun) in Hrun' by lia.
  injection Hrun' as <-. by exists m0.
Qed.

Lemma build_nets_on_partition frames (order : list (string * string))
    (nets : gmap string (gset string)) :
  build_nets_on frames order = Some nets ->
  (forall pin, pin ∈ endpoints order <->
               exists r s, nets !! r = Some s /\ pin ∈ s)
  /\ (forall r1 r2 s1 s2 pin,
        nets !! r1 = Some s1 -> nets !! r2 = Some s2 ->
        pin ∈ s1 -> pin ∈ s2 -> r1 = r2)
  /\ (forall r s, nets !! r = Some s -> s <> ∅).
Proof.
  intros (m0 & Hm0 & Hdom & G1 & G2 & G3)%build_nets_on_run.
  split; [|split].
  - intros pin. split.
    + intros Hin. destruct (Hm0 pin) as [r Hr]; [by rewrite Hdom|].
      destruct (G2 pin r Hin Hr) as [s Hs]. exists r, s. split; [done|].
      by apply (G1 r s Hs).
    + intros (r & s & Hs & Hin). by apply (G1 r s Hs pin).
  - intros r1 r2 s1 s2 pin H1 H2 Hin1 Hin2.
    apply (G1 _ _ H1) in Hin1 as [_ Hr1]. apply (G1 _ _ H2) in Hin2 as [_ Hr2].
    by eapply root_of_functional.
  - intros r s Hs ->. destruct (G3 r ∅ Hs) as [pin Hpin]. set_solver.
Qed.

(** C2 (as stated) fails: [build_nets] does not return on every connection
    set.  On the rail of 1001 parts every pin is linked under the next one,
    and the first [find] of the second loop has to follow the whole chain:
    with all the nested calls of the recursion limit left for [find] alone
    the call raises [RecursionError]. *)
Lemma build_nets_raises_on_long_rail :
  size (connections (rail 1001)) = 1001
  /\ build_nets recursion_limit (rail 1001) = None.
Proof. split; compute_done. Qed.

(** The store of a rail is the one [add_connection] builds. *)
Lemma rail_by_add_connection :
  connections
    (fst (add_connection
            (fst (add_connection (add_component empty_project "GND" (Some 1%Z))
                    "GND" "R1000-1"))
            "GND" "R1001-1"))
  = connections (rail 2).
Proof. compute_done. Qed.

(** C2 (amended). Whenever [build_nets] returns, what it returns is a
    partition of the endpoints: a pin is in some returned net exactly when
    it is an endpoint of a stored connection (the union of the nets is the
    set of endpoints), every endpoint is in exactly one net, nets under
    distinct keys are disjoint, and no net is empty.  It returns on every
    store that has no more endpoints than the interpreter allows nested
    calls of [find]. *)
Theorem build_nets_partition (frames : nat) (p : project) :
  (size (endpoints (elements (connections p))) <= frames ->
   is_Some (build_nets frames p))
  /\ forall nets,
       build_nets frames p = Some nets ->
       (forall pin,
           (exists c, c ∈ connections p /\ (pin = fst c \/ pin = snd c)) <->
           (exists r s, nets !! r = Some s /\ pin ∈ s))
       /\ (forall pin c,
             c ∈ connections p -> pin = fst c \/ pin = snd c ->
             exists r s, nets !! r = Some s /\ pin ∈ s
                         /\ forall r' s', nets !! r' = Some s' -> pin ∈ s' -> r' = r)
       /\ (forall r1 r2 s1 s2,
             nets !! r1 = Some s1 -> nets !! r2 = Some s2 -> r1 <> r2 -> s1 ## s2)
       /\ (forall r s, nets !! r = Some s -> s <> ∅).
Proof.
  split; [apply build_nets_on_returns|].
  intros nets (Hcover & Huniq & Hne)%build_nets_on_partition.
  assert (forall pin,
             (exists c, c ∈ connections p /\ (pin = fst c \/ pin = snd c)) <->
             (exists r s, nets !! r = Some s /\ pin ∈ s)) as Hcover'.
  { intros pin. rewrite <- Hcover, elem_of_endpoints.
    by setoid_rewrite elem_of_elements. }
  split; [done|split; [|split; [|done]]].
  - intros pin c Hc Hpin.
    destruct (proj1 (Hcover' pin)) as (r & s & Hs & Hin); [by exists c|].
    exists r, s. split; [done|split; [done|]].
    intros r' s' Hs' Hin'. by eapply Huniq.
  - intros r1 r2 s1 s2 H1 H2 Hne12 pin Hin1 Hin2.
    apply Hne12. by eapply Huniq.
Qed.

Lemma build_nets_partition_witness :
  exists nets, build_nets 3 chain_abc = Some nets
               /\ exists r s, nets !! r = Some s /\ "A-1" ∈ s.
Proof.
  destruct (build_nets_partition 3 chain_abc) as [Hreturns Hpart].
  destruct Hreturns as [nets Hrun]; [vm_compute; lia|].
  exists nets. split; [exact Hrun|].
  destruct (Hpart nets Hrun) as (_ & Hone & _).
  destruct (Hone "A-1" ("A-1", "B-1")) as (r & s & Hs & Hin & _).
  - apply elem_of_elements. vm_compute. constructor.
  - left. reflexivity.
  - exists r, s. split; [exact Hs|exact Hin].
Defined.

(** ** Removing a connection *)

(** C3 (as stated) fails: after [A-1~B-1] is removed from the store
    [A-1~B-1], [B-1~C-1], no net contains [A-1]; in particular there is no
    net [{A-1}]. *)
Lemma build_nets_drops_isolated_pin :
  exists nets, build_nets 2 chain_bc = Some nets
               /\ (forall r s, nets !! r = Some s -> "A-1" ∉ s)
               /\ ~ (exists r, nets !! r = Some {["A-1"]}).
Proof.
  exists {[ "C-1" := {[ "B-1"; "C-1" ]} ]}.
  assert (forall r (s : gset string),
             ({[ "C-1" := {[ "B-1"; "C-1" ]} ]} : gmap string (gset string)) !! r = Some s ->
             "A-1" ∉ s) as H.
  { intros r s [_ <-]%lookup_singleton_Some. set_solver. }
  split; [compute_done|split; [done|]].
  intros (r & Hr). apply (H _ _ Hr). set_solver.
Qed.

(** C3 (amended). The store [A-1~B-1], [B-1~C-1] forms the one net
    [{A-1, B-1, C-1}]; after [delete_connection("A-1", "B-1")] the store
    holds [B-1~C-1] alone and [build_nets] yields the single net
    [{B-1, C-1}]: the pin [A-1], left without connection, is in no net.
    Three nested calls of [find] are enough for both stores. *)
Theorem delete_connection_splits_net (frames : nat) :
  elements (connections chain_abc) = [("A-1", "B-1"); ("B-1", "C-1")]
  /\ (exists root, build_nets (3 + frames) chain_abc
                   = Some {[ root := {[ "A-1"; "B-1"; "C-1" ]} ]})
  /\ delete_connection chain_abc "A-1" "B-1" = (chain_bc, true)
  /\ elements (connections chain_bc) = [("B-1", "C-1")]
  /\ (exists root, build_nets (3 + frames) chain_bc
                   = Some {[ root := {[ "B-1"; "C-1" ]} ]}).
Proof.
  split; [compute_done|split].
  { exists "C-1". apply (build_nets_more_frames 3); [compute_done|lia]. }
  split; [compute_done|split; [compute_done|]].
  exists "C-1". apply (build_nets_more_frames 3); [compute_done|lia].
Qed.

(** ** name_net *)

Lemma find_net_some (nets : gmap string (gset string)) (pin_str root : string)
    (members : gset string) :
  List.find (λ '(root, members), bool_decide (pin_str ∈ (members : gset string))) (map_to_list nets)
  = Some (root, members) ->
  nets !! root = Some members /\ pin_str ∈ members.
Proof.
  intros [Hin Hm]%find_some. apply bool_decide_eq_true in Hm.
  split; [|done]. by apply elem_of_map_to_list, list_elem_of_In.
Qed.

Lemma find_net_none (nets : gmap string (gset string)) (pin_str : string) :
  List.find (λ '(root, members), bool_decide (pin_str ∈ (members : gset string))) (map_to_list nets)
  = None ->
  forall root members, nets !! root = Some members -> pin_str ∉ members.
Proof.
  intros Hnone root members Hl Hin.
  apply elem_of_map_to_list, list_elem_of_In in Hl.
  pose proof (find_none _ _ Hnone _ Hl) as H. simpl in H.
  by apply bool_decide_eq_false in H.
Qed.

Lemma name_net_more_frames frames frames' (p : project) (pin name : string)
    (res : project * name_report) :
  name_net frames p pin name = Some res -> frames <= frames' ->
  name_net frames' p pin name = Some res.
Proof.
  unfold name_net. intros H Hle. destruct (parse_pin p pin) as [pp|]; [|done].
  destruct (build_nets frames p) as [nets|] eqn:E; [|done].
  by rewrite (build_nets_more_frames _ _ _ _ E Hle).
Qed.

(** For a pin with a label, [name_net] does what C4 says whenever
    [build_nets] returns: it names the one net that has [ref-label] as a
    member, under its root key, and it fails, leaving the project
    unchanged, exactly when [ref-label] is an endpoint of no stored
    connection. *)
Lemma name_net_labelled (frames : nat) (p : project) (pin name ref label : string)
    (nets : gmap string (gset string)) :
  parse_pin p pin = Some (ref, Some label) ->
  build_nets frames p = Some nets ->
  let pin_str := ref +:+ "-" +:+ label in
  ((exists c, c ∈ connections p /\ (pin_str = fst c \/ pin_str = snd c)) ->
   exists root members,
     nets !! root = Some members /\ pin_str ∈ members
     /\ name_net frames p pin name
        = Some (set_net_names p (<[root := name]> (net_names p)),
                Named root (size members)))
  /\ (~ (exists c, c ∈ connections p /\ (pin_str = fst c \/ pin_str = snd c)) ->
      name_net frames p pin name = Some (p, NameNotInNet pin_str)).
Proof.
  intros Hparse Hrun pin_str.
  destruct (build_nets_on_partition _ _ _ Hrun) as (Hcover & _).
  setoid_rewrite elem_of_endpoints in Hcover.
  setoid_rewrite elem_of_elements in Hcover.
  unfold name_net. rewrite Hparse, Hrun. simpl.
  change (fstring_pin (ref, Some label)) with pin_str.
  destruct (List.find _ (map_to_list nets)) as [[root members]|] eqn:Hfind.
  - apply find_net_some in Hfind as [Hl Hin]. split.
    + intros _. by exists root, members.
    + intros Hno. destruct Hno. apply Hcover. eauto.
  - split; [|done].
    intros (r & s & Hs & Hin)%Hcover.
    by destruct (find_net_none _ _ Hfind r s Hs).
Qed.

(** C4. [name_net] misses the pin of a single-pin component: [GND] parses,
    is connected to [R01-1] and belongs to the net [{GND, R01-1}], but the
    lookup string is built as ["GND-None"], so the call reports that the
    pin is in no net and leaves the registry unchanged.  Naming through the
    other endpoint succeeds.  Two nested calls of [find] are enough for
    this store. *)
Theorem name_net_misses_single_pin (frames : nat) :
  parse_pin gnd_rail "GND" = Some ("GND", None)
  /\ elements (connections gnd_rail) = [("GND", "R01-1")]
  /\ (exists root, build_nets (2 + frames) gnd_rail
                   = Some {[ root := {[ "GND"; "R01-1" ]} ]})
  /\ name_net (2 + frames) gnd_rail "GND" "GROUND"
     = Some (gnd_rail, NameNotInNet "GND-None")
  /\ (exists root,
        name_net (2 + frames) gnd_rail "R1-1" "GROUND"
        = Some (set_net_names gnd_rail {[ root := "GROUND" ]}, Named root 2)).
Proof.
  split; [compute_done|split; [compute_done|]].
  split; [|split].
  - exists "R01-1". apply (build_nets_more_frames 2); [compute_done|lia].
  - apply (name_net_more_frames 2); [compute_done|lia].
  - exists "R01-1". apply (name_net_more_frames 2); [compute_done|lia].
Qed.

(** ** get_remaining_pins *)

Lemma connected_pins_spec (X : gset conn) (x : string) :
  x ∈ connected_pins X <-> exists c, c ∈ X /\ (x = fst c \/ x = snd c).
Proof.
  unfold connected_pins, set_fold. simpl.
  setoid_rewrite <- elem_of_elements at 2.
  induction (elements X) as [|c l IH]; simpl.
  - split; [set_solver|]. intros (c & Hc & _). by apply elem_of_nil in Hc.
  - rewrite !elem_of_union, !elem_of_singleton, IH. split.
    + intros [[(c' & Hc' & Hx)|Hx]|Hx].
      * exists c'. split; [by apply elem_of_cons; right|done].
      * exists c. split; [by apply elem_of_cons; left|by left].
      * exists c. split; [by apply elem_of_cons; left|by right].
    + intros (c' & [->|Hc']%elem_of_cons & Hx); [tauto|].
      left. left. eauto.
Qed.

(** C7. [get_remaining_pins] reports [(ref, n, value)] exactly when [ref]
    is a component with more than one pin that passes the optional prefix
    filter, [n] is one of the labels [1..pins], and the compound form
    [ref-n] is an endpoint of no stored connection.  Components with at most
    one pin are never reported.  For the 3-pin transistor whose pin 1 alone
    is connected, pins 2 and 3 are reported. *)
Theorem get_remaining_pins_spec (p : project) (filter_prefix : option string) :
  (forall (ref : string) (n : Z) (v : string),
      (ref, n, v) ∈ get_remaining_pins p filter_prefix <->
      exists info,
        components p !! ref = Some info
        /\ (1 < pins_or_0 info)%Z
        /\ filtered_out filter_prefix ref = false
        /\ (1 <= n <= pins_or_0 info)%Z
        /\ (forall c, c ∈ connections p ->
                      fst c <> ref +:+ "-" +:+ pretty n
                      /\ snd c <> ref +:+ "-" +:+ pretty n)
        /\ v = value info)
  /\ (forall (ref : string) (n : Z) (v : string) (info : component),
        components p !! ref = Some info -> (pins_or_0 info <= 1)%Z ->
        (ref, n, v) ∉ get_remaining_pins p filter_prefix)
  /\ get_remaining_pins transistor_pin1 (Some "q")
     = [("Q01", 2%Z, "?"); ("Q01", 3%Z, "?")].
Proof.
  assert (forall (ref : string) (n : Z) (v : string),
      (ref, n, v) ∈ get_remaining_pins p filter_prefix <->
      exists info,
        components p !! ref = Some info
        /\ (1 < pins_or_0 info)%Z
        /\ filtered_out filter_prefix ref = false
        /\ (1 <= n <= pins_or_0 info)%Z
        /\ (forall c, c ∈ connections p ->
                      fst c <> ref +:+ "-" +:+ pretty n
                      /\ snd c <> ref +:+ "-" +:+ pretty n)
        /\ v = value info) as Hmain.
  { intros ref n v. unfold get_remaining_pins.
    rewrite list_elem_of_bind. split.
    - intros ([ref' info] & Hin & Hsorted).
      rewrite merge_sort_Permutation in Hsorted.
      apply elem_of_map_to_list in Hsorted.
      destruct (pins_or_0 info <=? 1)%Z eqn:Hp; [by apply elem_of_nil in Hin|].
      destruct (filtered_out filter_prefix ref') eqn:Hf;
        [by apply elem_of_nil in Hin|].
      unfold remaining_of in Hin. apply list_elem_of_omap in Hin as (k & Hk & Hsome).
      destruct (decide _) as [Hnc|]; [|done].
      injection Hsome as <- <- <-.
      apply elem_of_seqZ in Hk. apply Z.leb_gt in Hp.
      exists info. split; [done|]. split; [lia|]. split; [done|].
      split; [lia|]. split; [|done].
      intros c Hc. split; intros Heq; apply Hnc, connected_pins_spec;
        exists c; rewrite Heq; auto.
    - intros (info & Hlook & Hp & Hf & Hn & Hfree & ->).
      exists (ref, info). split.
      + apply Z.leb_gt in Hp. rewrite Hp, Hf.
        unfold remaining_of. apply list_elem_of_omap. exists n. split.
        * apply elem_of_seqZ. lia.
        * destruct (decide _) as [|Hc]; [done|]. exfalso. apply Hc.
          intros (c & Hc' & Hx)%connected_pins_spec.
          destruct (Hfree c Hc') as [H1 H2]. by destruct Hx.
      + rewrite merge_sort_Permutation. by apply elem_of_map_to_list. }
  split; [done|split].
  - intros ref n v info Hlook Hp (info' & Hlook' & Hp' & _)%Hmain.
    rewrite Hlook in Hlook'. injection Hlook' as <-. lia.
  - by vm_compute.
Qed.

Lemma get_remaining_pins_spec_witness :
  ("TP01", 1%Z, "?") ∉ get_remaining_pins (add_component empty_project "TP1" None) None.
Proof.
  pose proof (get_remaining_pins_spec (add_component empty_project "TP1" None) None)
    as (_ & H & _).
  apply (H "TP01" 1%Z "?" (Component (Some 1%Z) "?" "?" "" "testpoint")).
  - reflexivity.
  - vm_compute. discriminate.
Defined.

(* ================================================================== *)
(** * Further properties of the code *)

(** ** Shape of a normalised reference *)

(** The two outcomes of [normalize_ref]: the upper-cased, stripped text, or
    its letters followed by ["0"] and one digit. *)
Lemma normalize_ref_shape (x : string) :
  normalize_ref x = strip (upper x)
  \/ exists d, isdigit d = true
               /\ truthy (keep isalpha (strip (upper x))) = true
               /\ normalize_ref x
                  = keep isalpha (strip (upper x)) +:+ String "0" (String d "").
Proof.
  unfold normalize_ref. set (u := strip (upper x)).
  destruct (truthy (keep isalpha u)) eqn:Hl; simpl; [|by left].
  destruct (truthy (keep isdigit u)) eqn:Hd; simpl; [|by left].
  destruct (int (keep isdigit u) <? 10)%N eqn:Hn; [|by left].
  apply N.ltb_lt in Hn.
  destruct (fmt_02d_small _ Hn) as (d & Hfmt & Hdig & _).
  right. exists d. by rewrite Hfmt.
Qed.

Lemma normalize_ref_canon (x : string) :
  strip (upper (normalize_ref x)) = normalize_ref x.
Proof.
  destruct (normalize_ref_shape x) as [->|(d & Hd & Hl & ->)].
  - apply canon_fixed.
  - by destruct (padded_form_fixed x d Hl Hd) as (H & _).
Qed.

(** X1. A normalised reference is in canonical spelling: upper-casing it
    or stripping it changes nothing, so it has no lower-case letter and no
    whitespace at either end. *)
Theorem normalize_ref_canonical (x : string) :
  upper (normalize_ref x) = normalize_ref x
  /\ strip (normalize_ref x) = normalize_ref x.
Proof.
  assert (upper (normalize_ref x) = normalize_ref x) as Hup.
  { rewrite <- (normalize_ref_canon x) at 1.
    rewrite upper_strip, upper_idem. apply normalize_ref_canon. }
  split; [done|].
  rewrite <- Hup at 1. apply normalize_ref_canon.
Qed.

(** Normalising twice is normalising once (the form used by the proofs
    below). *)
Lemma normalize_ref_fixed (x : string) :
  normalize_ref (normalize_ref x) = normalize_ref x.
Proof.
  unfold normalize_ref at 2 3.
  set (u := strip (upper x)).
  destruct (truthy (keep isalpha u)) eqn:Hl; simpl;
    [destruct (truthy (keep isdigit u)) eqn:Hd; simpl;
     [destruct (int (keep isdigit u) <? 10)%N eqn:Hn|]|].
  - apply N.ltb_lt in Hn.
    destruct (fmt_02d_small _ Hn) as (d & Hfmt & Hdig & Hval).
    rewrite Hfmt.
    destruct (padded_form_fixed x d Hl Hdig) as (Hfix & Hal & Hdg).
    fold u in Hfix, Hal, Hdg.
    unfold normalize_ref. rewrite Hfix, Hal, Hdg, Hl. simpl.
    assert (int (String "0" (String d "")) = int (keep isdigit u)) as ->.
    { change (int (String "0" (String d "")))
        with ((0 * 10 + digit_val "0") * 10 + digit_val d)%N.
      change (digit_val "0") with 0%N. lia. }
    apply N.ltb_lt in Hn. by rewrite Hn, Hfmt.
  - unfold normalize_ref, u. rewrite canon_fixed. fold u.
    by rewrite Hl, Hd, Hn.
  - unfold normalize_ref, u. rewrite canon_fixed. fold u.
    by rewrite Hl, Hd.
  - unfold normalize_ref, u. rewrite canon_fixed. fold u.
    by rewrite Hl.
Qed.

(** ** Outcomes of parse_pin *)

Lemma parse_pin_seps_none (p : project) (t : string) (seps : list ascii) :
  (forall s, s ∈ seps -> contains s t = false) -> parse_pin_seps p t seps = None.
Proof.
  induction seps as [|sep seps IH]; intros Hno; simpl; [done|].
  rewrite (Hno sep) by constructor. apply IH.
  intros s Hs. apply Hno. by constructor.
Qed.

Lemma parse_pin_seps_inv (p : project) (t : string) (seps : list ascii)
    (pp : parsed_pin) :
  parse_pin_seps p t seps = Some pp ->
  exists before sep after part0 part1,
    seps = (before ++ sep :: after)%list
    /\ (forall s, s ∈ before -> contains s t = false)
    /\ split1 sep t = [part0; part1]
    /\ pp = if single_pin p (normalize_ref part0) then (normalize_ref part0, None)
            else (normalize_ref part0, Some (label_of part1)).
Proof.
  induction seps as [|sep seps IH]; simpl; [done|].
  destruct (contains sep t) eqn:Hc.
  - destruct (contains_split1 _ _ Hc) as (a & b & Hsplit). rewrite Hsplit.
    intros Hpp. exists [], sep, seps, a, b.
    split; [done|split; [by intros s Hs%elem_of_nil|split; [done|]]].
    unfold label_of. destruct (single_pin p (normalize_ref a)); congruence.
  - intros (before & sep' & after & a & b & -> & Hno & Hsplit & Hpp)%IH.
    exists (sep :: before), sep', after, a, b.
    split; [done|split; [|done]].
    intros s [->|Hs]%elem_of_cons; [done|by apply Hno].
Qed.

(** X2. [parse_pin] fails exactly on a token that, once upper-cased and
    stripped, contains none of the separators [-], [.], [_] and is not the
    name of a registered single-pin component, neither as typed nor
    normalised. *)
Theorem parse_pin_fails_iff (p : project) (tok : string) :
  let t := strip (upper tok) in
  parse_pin p tok = None
  <-> (contains "-" t = false /\ contains "." t = false /\ contains "_" t = false)
      /\ single_pin p t = false
      /\ single_pin p (normalize_ref t) = false.
Proof.
  intros t. unfold parse_pin. fold t. split.
  - destruct (single_pin p t) eqn:H1; [done|].
    destruct (parse_pin_seps p t _) as [r|] eqn:Hseps; [done|].
    destruct (single_pin p (normalize_ref t)) eqn:H2; [done|]. intros _.
    split; [|done].
    assert (forall sep, sep ∈ ["-"; "."; "_"]%char -> contains sep t = false) as Hno.
    { intros sep Hsep. destruct (contains sep t) eqn:Hc; [|done].
      destruct (parse_pin_seps_some p t ["-"; "."; "_"]%char) as [r Hr];
        [by exists sep|congruence]. }
    repeat split; apply Hno; repeat constructor.
  - intros ((Hd & Hp & Hu) & -> & ->).
    rewrite parse_pin_seps_none; [done|].
    intros s Hs. repeat (apply elem_of_cons in Hs as [->|Hs]; [done|]).
    by apply elem_of_nil in Hs.
Qed.

(** The three ways [parse_pin] succeeds. *)
Lemma parse_pin_inv (p : project) (tok : string) (pp : parsed_pin) :
  let t := strip (upper tok) in
  parse_pin p tok = Some pp ->
  (single_pin p t = true /\ pp = (t, None))
  \/ (single_pin p t = false
      /\ exists before sep after part0 part1,
           ["-"; "."; "_"]%char = (before ++ sep :: after)%list
           /\ (forall s, s ∈ before -> contains s t = false)
           /\ split1 sep t = [part0; part1]
           /\ pp = if single_pin p (normalize_ref part0)
                   then (normalize_ref part0, None)
                   else (normalize_ref part0, Some (label_of part1)))
  \/ (single_pin p t = false
      /\ single_pin p (normalize_ref t) = true /\ pp = (normalize_ref t, None)).
Proof.
  intros t. unfold parse_pin. fold t.
  destruct (single_pin p t) eqn:H1; [intros [= <-]; by left|].
  destruct (parse_pin_seps p t _) as [r|] eqn:Hseps.
  - intros [= <-]. right. left. split; [done|]. by apply parse_pin_seps_inv.
  - destruct (single_pin p (normalize_ref t)) eqn:H2; [|done].
    intros [= <-]. right. by right.
Qed.

(** ** Stored pin strings parse back *)

Lemma contains_app (c : ascii) (a b : string) :
  contains c (a +:+ b) = contains c a || contains c b.
Proof.
  induction a as [|x a IH]; [done|].
  rewrite app_cons_s. simpl. by destruct (Ascii.eqb x c).
Qed.

Lemma split1_before (sep : ascii) (s a b : string) :
  split1 sep s = [a; b] -> contains sep a = false.
Proof.
  revert a b. induction s as [|x s IH]; intros a b; simpl; [done|].
  destruct (Ascii.eqb x sep) eqn:E; [by intros [= <- _]|].
  destruct (split1 sep s) as [|a' [|b' [|]]] eqn:Es; try done.
  intros [= <- <-]. simpl. rewrite E. by eapply IH.
Qed.

Lemma split1_app (sep : ascii) (a b : string) :
  contains sep a = false -> split1 sep (a +:+ String sep b) = [a; b].
Proof.
  induction a as [|x a IH].
  - intros _. rewrite app_nil_l_s. simpl. by rewrite Ascii.eqb_refl.
  - rewrite app_cons_s. simpl. destruct (Ascii.eqb x sep); [done|].
    intros Ha. by rewrite (IH Ha).
Qed.

Lemma split1_parts (f : string -> Prop) (sep : ascii) :
  f "" -> (forall x s, f (String x s) -> f s) ->
  (forall x a s, f (String x s) -> f a -> f (String x a)) ->
  forall s a b, f s -> split1 sep s = [a; b] -> f a /\ f b.
Proof.
  intros Hnil Htl Hcons s. induction s as [|x s IH]; intros a b Hs; simpl; [done|].
  destruct (Ascii.eqb x sep); [intros [= <- <-]; eauto|].
  destruct (split1 sep s) as [|a' [|b' [|]]] eqn:Es; try done.
  intros [= Ea Eb]. subst a b. destruct (IH a' b') as [Ha Hb]; eauto.
Qed.

Lemma split1_upper (sep : ascii) (s a b : string) :
  upper s = s -> split1 sep s = [a; b] -> upper a = a /\ upper b = b.
Proof.
  apply (split1_parts (λ s, upper s = s)); simpl; [done|congruence..].
Qed.

Lemma split1_contains_parts (c sep : ascii) (s a b : string) :
  contains c s = false -> split1 sep s = [a; b] ->
  contains c a = false /\ contains c b = false.
Proof.
  apply (split1_parts (λ s, contains c s = false)); simpl; [done|..].
  - intros x s'. by destruct (Ascii.eqb x c).
  - intros x a' s'. by destruct (Ascii.eqb x c).
Qed.

Lemma contains_upper_dash (s : string) : contains "-" (upper s) = contains "-" s.
Proof.
  induction s as [|x s IH]; simpl; [done|]. rewrite IH. f_equal.
  destruct x as [[] [] [] [] [] [] [] []]; reflexivity.
Qed.

Lemma contains_lstrip (c : ascii) (s : string) :
  contains c s = false -> contains c (lstrip s) = false.
Proof.
  induction s as [|x s IH]; simpl; [done|].
  destruct (Ascii.eqb x c) eqn:E; [done|]. intros Hs.
  destruct (isspace x); [by apply IH|]. simpl. by rewrite E.
Qed.

Lemma contains_rstrip (c : ascii) (s : string) :
  contains c s = false -> contains c (rstrip s) = false.
Proof.
  induction s as [|x s IH]; simpl; [done|].
  destruct (Ascii.eqb x c) eqn:E; [done|]. intros Hs. specialize (IH Hs).
  destruct (rstrip s); simpl.
  - destruct (isspace x); simpl; [done|by rewrite E].
  - by rewrite E.
Qed.

Lemma contains_keep (f : ascii -> bool) (c : ascii) (s : string) :
  f c = false -> contains c (keep f s) = false.
Proof.
  intros Hc. induction s as [|x s IH]; simpl; [done|].
  destruct (f x) eqn:Hx; [|done]. simpl.
  destruct (Ascii.eqb_spec x c) as [->|]; [congruence|done].
Qed.

Lemma normalize_ref_no_dash (x : string) :
  contains "-" x = false -> contains "-" (normalize_ref x) = false.
Proof.
  intros Hx. destruct (normalize_ref_shape x) as [->|(d & Hd & _ & ->)].
  - apply contains_rstrip, contains_lstrip. by rewrite contains_upper_dash.
  - rewrite contains_app, contains_keep by done. simpl.
    destruct (Ascii.eqb_spec d "-") as [->|]; [done|done].
Qed.

Lemma strip_fixed_parts (s : string) :
  strip s = s -> lstrip s = s /\ rstrip s = s.
Proof.
  intros Hs. split.
  - destruct (lstrip_shape s) as [E|(c & r & E & Hc)].
    + unfold strip in Hs. rewrite E in Hs. simpl in Hs. by rewrite <- Hs.
    + unfold strip in Hs. rewrite E in Hs.
      destruct (rstrip_head c r Hc) as [r' Hr']. rewrite Hr' in Hs.
      rewrite <- Hs. by apply lstrip_head.
  - rewrite <- Hs at 1. unfold strip. rewrite rstrip_idem. apply Hs.
Qed.

Lemma lstrip_fixed_app (a b : string) (c : ascii) :
  lstrip a = a -> isspace c = false -> lstrip (a +:+ String c b) = a +:+ String c b.
Proof.
  intros Ha Hc. destruct a as [|x a].
  - rewrite app_nil_l_s. by apply lstrip_head.
  - rewrite app_cons_s. apply lstrip_head.
    destruct (isspace x) eqn:Hx; [|done]. simpl in Ha. rewrite Hx in Ha.
    destruct (lstrip_shape a) as [E|(y & r & E & Hy)]; rewrite E in Ha;
      [done|]. injection Ha as -> _. congruence.
Qed.

Lemma rstrip_cons_fixed (c : ascii) (s : string) :
  isspace c = false -> rstrip s = s -> rstrip (String c s) = String c s.
Proof. intros Hc Hs. simpl. rewrite Hs, Hc. by destruct s. Qed.

(** A reference, a dash and a label, each in canonical spelling, form a
    canonical token. *)
Lemma compound_canon (r l : string) :
  strip (upper r) = r -> upper l = l -> strip l = l ->
  strip (upper (r +:+ "-" +:+ l)) = r +:+ "-" +:+ l.
Proof.
  intros Hr Hul Hsl.
  assert (upper r = r) as Hur.
  { rewrite <- Hr at 1. rewrite upper_strip, upper_idem. done. }
  assert (strip r = r) as Hsr by (by rewrite Hur in Hr).
  destruct (strip_fixed_parts r Hsr) as [Hlr _].
  destruct (strip_fixed_parts l Hsl) as [_ Hrl].
  rewrite !upper_app, Hur, Hul. change (upper "-") with "-".
  unfold strip. change ("-" +:+ l) with (String "-" l).
  rewrite (lstrip_fixed_app r l "-" Hlr eq_refl).
  apply rstrip_app; [done|]. by apply rstrip_cons_fixed.
Qed.

(** On an upper-cased part the recognition of [TAB] changes nothing. *)
Lemma label_of_upper (part1 : string) :
  upper part1 = part1 ->
  label_of part1 = strip part1
  /\ upper (label_of part1) = label_of part1
  /\ strip (label_of part1) = label_of part1.
Proof.
  intros Hu.
  assert (upper (strip part1) = strip part1) as Hus by by rewrite upper_strip, Hu.
  assert (label_of part1 = strip part1) as ->.
  { unfold label_of. rewrite Hus. by destruct (decide _) as [->|]. }
  split; [done|split; [done|apply strip_idem]].
Qed.

Lemma lstrip_app_stop (a b : string) (c : ascii) :
  isspace c = false -> lstrip (a +:+ String c b) = lstrip a +:+ String c b.
Proof.
  intros Hc. induction a as [|x a IH].
  - rewrite app_nil_l_s. simpl. by rewrite Hc.
  - rewrite app_cons_s. simpl. by destruct (isspace x).
Qed.

Lemma rstrip_app_stop (a b : string) (c : ascii) :
  isspace c = false -> rstrip (a +:+ String c b) = a +:+ String c (rstrip b).
Proof.
  intros Hc. induction a as [|x a IH].
  - rewrite !app_nil_l_s. simpl. rewrite Hc. by destruct (rstrip b).
  - rewrite !app_cons_s. simpl. rewrite IH. by destruct a.
Qed.

Lemma lstrip_idem (s : string) : lstrip (lstrip s) = lstrip s.
Proof.
  destruct (lstrip_shape s) as [->|(c & r & -> & Hc)]; [done|by apply lstrip_head].
Qed.

Lemma normalize_ref_lstrip_upper (ref : string) :
  normalize_ref (lstrip (upper ref)) = normalize_ref ref.
Proof.
  unfold normalize_ref.
  assert (strip (upper (lstrip (upper ref))) = strip (upper ref)) as ->; [|done].
  rewrite upper_lstrip, upper_idem. unfold strip. by rewrite lstrip_idem.
Qed.

(** X3. All labels of a single-pin component are one pin: a token
    [ref-label] whose reference is a registered single-pin component parses
    to that component's one pin, whatever label was typed, unless the whole
    token is itself the name of a single-pin component. *)
Theorem parse_pin_single_pin_forced (p : project) (ref label : string) :
  contains "-" ref = false ->
  single_pin p (normalize_ref ref) = true ->
  single_pin p (strip (upper (ref +:+ "-" +:+ label))) = false ->
  parse_pin p (ref +:+ "-" +:+ label) = Some (normalize_ref ref, None).
Proof.
  intros Hdash Hs Ht. unfold parse_pin. rewrite Ht.
  assert (strip (upper (ref +:+ "-" +:+ label))
          = lstrip (upper ref) +:+ String "-" (rstrip (upper label))) as ->.
  { rewrite upper_app. change (upper ("-" +:+ label)) with (String "-" (upper label)).
    unfold strip. by rewrite lstrip_app_stop, rstrip_app_stop. }
  rewrite (parse_pin_seps_first p _ [] ["."; "_"]%char "-"
             (lstrip (upper ref)) (rstrip (upper label))).
  - by rewrite normalize_ref_lstrip_upper, Hs.
  - by intros s Hs'%elem_of_nil.
  - apply split1_app, contains_lstrip. by rewrite contains_upper_dash.
Qed.

Lemma parse_pin_single_pin_forced_witness :
  parse_pin gnd_rail "gnd-7" = Some ("GND", None).
Proof.
  apply (parse_pin_single_pin_forced gnd_rail "gnd" "7").
  - reflexivity.
  - reflexivity.
  - reflexivity.
Defined.

(** X4. What [parse_pin] returns is stable: formatting a parsed pin with
    [format_pin] and parsing the result gives the same parsed pin, provided
    that for a labelled pin the formatted string [ref-label] is not itself
    the name of a registered single-pin component.  So the endpoints that
    [add_connection] stores parse back to themselves. *)
Theorem parse_format_roundtrip (p : project) (tok : string) (pp : parsed_pin) :
  parse_pin p tok = Some pp ->
  (snd pp <> None -> single_pin p (format_pin pp) = false) ->
  parse_pin p (format_pin pp) = Some pp.
Proof.
  intros Hparse Hsingle.
  assert (forall r, strip (upper r) = r -> single_pin p r = true ->
                    parse_pin p (format_pin (r, None)) = Some (r, None)) as Hbare.
  { intros r Hr Hs. simpl. unfold parse_pin. by rewrite Hr, Hs. }
  destruct (parse_pin_inv p tok pp Hparse)
    as [[Hs ->]|[(Ht & before & sep & after & part0 & part1 & Hseps & Hbefore
                  & Hsplit & ->)|(Ht & Hs & ->)]].
  - apply Hbare; [apply canon_fixed|done].
  - destruct (single_pin p (normalize_ref part0)) eqn:Hs.
    { apply Hbare; [apply normalize_ref_canon|done]. }
    assert (upper (strip (upper tok)) = strip (upper tok)) as Hut
      by apply upper_canon.
    destruct (split1_upper _ _ _ _ Hut Hsplit) as [_ Hu1].
    destruct (label_of_upper part1 Hu1) as (Hl & Hul & Hsl).
    assert (contains "-" part0 = false) as Hdash.
    { destruct before as [|b0 before'].
      - injection Hseps as <- _. by eapply split1_before.
      - injection Hseps as <- _.
        assert (contains "-" (strip (upper tok)) = false) as Hno
          by (apply Hbefore; constructor).
        by destruct (split1_contains_parts "-" _ _ _ _ Hno Hsplit). }
    specialize (Hsingle ltac:(done)). simpl in Hsingle. simpl.
    set (r := normalize_ref part0) in *. set (l := label_of part1) in *.
    unfold parse_pin.
    rewrite (compound_canon r l) by (done || apply normalize_ref_canon).
    rewrite Hsingle.
    change ("-" +:+ l) with (String "-" l).
    rewrite (parse_pin_seps_first p _ [] ["."; "_"]%char "-" r l);
      [|by intros s Hs'%elem_of_nil
       |by apply split1_app, normalize_ref_no_dash].
    unfold r at 1 2 3. rewrite normalize_ref_fixed. fold r. rewrite Hs.
    do 3 f_equal. fold (label_of l). unfold l.
    destruct (label_of_upper (label_of part1) Hul) as (-> & _). done.
  - apply Hbare; [apply normalize_ref_canon|done].
Qed.

Lemma parse_format_roundtrip_witness :
  parse_pin two_pin_resistor (format_pin ("R01", Some "7")) = Some ("R01", Some "7").
Proof.
  apply (parse_format_roundtrip two_pin_resistor "r1.7" ("R01", Some "7")).
  - reflexivity.
  - intros _. reflexivity.
Defined.

(** ** Adding and removing connections *)

Lemma sort2_comm (a b : string) : sort2 a b = sort2 b a.
Proof.
  unfold sort2, String.ltb.
  rewrite (String.compare_antisym b a).
  destruct (String.compare a b) eqn:E; simpl; [|done..].
  apply String.compare_eq_iff in E. by subst.
Qed.

Lemma single_pin_dom (p : project) (ref : string) :
  single_pin p ref = true -> ref ∈ dom (components p).
Proof.
  unfold single_pin. destruct (components p !! ref) eqn:E; [|done].
  intros _. by apply (elem_of_dom_2 (components p) ref c).
Qed.

(** The reference of a parsed pin is registered or is a normalised
    reference. *)
Lemma parse_pin_ref (p : project) (tok : string) (pp : parsed_pin) :
  parse_pin p tok = Some pp ->
  fst pp ∈ dom (components p) \/ normalize_ref (fst pp) = fst pp.
Proof.
  intros [[Hs ->]|[(_ & before & sep & after & part0 & part1 & _ & _ & _ & ->)
                  |(_ & _ & ->)]]%parse_pin_inv.
  - left. by apply single_pin_dom.
  - right. destruct (single_pin p (normalize_ref part0)); apply normalize_ref_fixed.
  - right. apply normalize_ref_fixed.
Qed.

Lemma auto_add_registered (p : project) (pp : parsed_pin) :
  fst pp ∈ dom (components p) -> auto_add p pp = p.
Proof. intros H. unfold auto_add. by destruct (decide _). Qed.

Lemma auto_add_fresh (p : project) (pp : parsed_pin) :
  fst pp ∉ dom (components p) -> normalize_ref (fst pp) = fst pp ->
  auto_add p pp
  = set_components p
      (<[fst pp := Component (Some (get_default_pins (fst pp))) "?" "?" ""
                     (get_component_type (fst pp))]> (components p)).
Proof.
  intros Hnin Hn. unfold auto_add, add_component.
  destruct (decide _); [done|]. by rewrite Hn.
Qed.

Lemma auto_add_comm (p : project) (pp1 pp2 : parsed_pin) :
  (fst pp1 ∈ dom (components p) \/ normalize_ref (fst pp1) = fst pp1) ->
  (fst pp2 ∈ dom (components p) \/ normalize_ref (fst pp2) = fst pp2) ->
  auto_add (auto_add p pp1) pp2 = auto_add (auto_add p pp2) pp1.
Proof.
  intros H1 H2.
  assert (forall q k v, fst q ∈ dom (components p) ->
            auto_add (set_components p (<[k := v]> (components p))) q
            = set_components p (<[k := v]> (components p))) as Hkeep.
  { intros q k v Hq. apply auto_add_registered. simpl.
    rewrite dom_insert_L. set_solver. }
  assert (forall q v,
            auto_add (set_components p (<[fst q := v]> (components p))) q
            = set_components p (<[fst q := v]> (components p))) as Hsame.
  { intros q v. apply auto_add_registered. simpl.
    rewrite dom_insert_L. set_solver. }
  destruct (decide (fst pp1 ∈ dom (components p))) as [Hin1|Hnin1];
    destruct (decide (fst pp2 ∈ dom (components p))) as [Hin2|Hnin2].
  - by rewrite (auto_add_registered p pp1 Hin1), (auto_add_registered p pp2 Hin2),
      (auto_add_registered p pp1 Hin1).
  - destruct H2 as [?|H2]; [done|].
    rewrite (auto_add_registered p pp1 Hin1), (auto_add_fresh p pp2 Hnin2 H2).
    by rewrite Hkeep.
  - destruct H1 as [?|H1]; [done|].
    rewrite (auto_add_registered p pp2 Hin2), (auto_add_fresh p pp1 Hnin1 H1).
    by rewrite Hkeep.
  - destruct H1 as [?|H1]; [done|]. destruct H2 as [?|H2]; [done|].
    rewrite (auto_add_fresh p pp1 Hnin1 H1), (auto_add_fresh p pp2 Hnin2 H2).
    destruct (decide (fst pp1 = fst pp2)) as [E|Hne].
    + rewrite E at 1 2 3. rewrite Hsame. rewrite <- E at 1 2 3 4. by rewrite Hsame, E.
    + rewrite !auto_add_fresh; simpl; try done;
        try (rewrite dom_insert_L; set_solver).
      unfold set_components. simpl. f_equal. by apply insert_insert_ne.
Qed.

(** X5. The order of the two pins does not matter to [add_connection]:
    both orders give the same flag and the same project (the same stored
    pair and the same auto-registered components). *)
Theorem add_connection_symmetric (p : project) (pin1 pin2 : string) :
  add_connection p pin1 pin2 = add_connection p pin2 pin1.
Proof.
  unfold add_connection.
  destruct (parse_pin p pin1) as [p1|] eqn:H1;
    destruct (parse_pin p pin2) as [p2|] eqn:H2; try done.
  rewrite (auto_add_comm p p1 p2) by by eapply parse_pin_ref.
  by rewrite (sort2_comm (format_pin p1) (format_pin p2)).
Qed.

Lemma set_connections_id (p : project) : set_connections p (connections p) = p.
Proof. by destruct p. Qed.

(** [parse_pin] reads the component table only. *)
Lemma parse_pin_components (p q : project) (tok : string) :
  components p = components q -> parse_pin p tok = parse_pin q tok.
Proof.
  intros E.
  assert (forall r, single_pin p r = single_pin q r) as Hs
    by (intros r; unfold single_pin; by rewrite E).
  assert (forall t seps, parse_pin_seps p t seps = parse_pin_seps q t seps) as Hseps.
  { intros t seps. induction seps as [|sep seps IH]; simpl; [done|].
    rewrite IH. destruct (contains sep t); [|done].
    destruct (split1 sep t) as [|a [|b [|]]]; try done. by rewrite Hs. }
  unfold parse_pin. by rewrite !Hs, Hseps.
Qed.

(** X6. For two pins of registered components whose pair is not yet stored,
    [add_connection] stores the sorted pair and succeeds; adding the same
    connection again reports a duplicate and changes nothing; and
    [delete_connection] then gives back the project as it was. *)
Theorem add_then_delete (p : project) (pin1 pin2 : string) (p1 p2 : parsed_pin) :
  parse_pin p pin1 = Some p1 -> parse_pin p pin2 = Some p2 ->
  fst p1 ∈ dom (components p) -> fst p2 ∈ dom (components p) ->
  sort2 (format_pin p1) (format_pin p2) ∉ connections p ->
  let p' := set_connections p
              (connections p ∪ {[sort2 (format_pin p1) (format_pin p2)]}) in
  add_connection p pin1 pin2 = (p', true)
  /\ add_connection p' pin1 pin2 = (p', false)
  /\ add_connection p' pin2 pin1 = (p', false)
  /\ delete_connection p' pin1 pin2 = (p, true).
Proof.
  intros H1 H2 Hd1 Hd2 Hnew p'.
  assert (parse_pin p' pin1 = Some p1) as H1'
    by by rewrite <- (parse_pin_components p p').
  assert (parse_pin p' pin2 = Some p2) as H2'
    by by rewrite <- (parse_pin_components p p').
  assert (add_connection p' pin1 pin2 = (p', false)) as Hdup.
  { unfold add_connection. rewrite H1', H2'.
    rewrite (auto_add_registered p' p1 Hd1), (auto_add_registered p' p2 Hd2).
    destruct (decide _) as [|Hn]; [done|]. destruct Hn. simpl. set_solver. }
  split; [|split; [done|split]].
  - unfold add_connection. rewrite H1, H2.
    rewrite (auto_add_registered p p1 Hd1), (auto_add_registered p p2 Hd2).
    by destruct (decide _).
  - unfold add_connection. rewrite H1', H2'.
    rewrite (auto_add_registered p' p2 Hd2), (auto_add_registered p' p1 Hd1).
    rewrite (sort2_comm (format_pin p2)).
    destruct (decide _) as [|Hn]; [done|]. destruct Hn. simpl. set_solver.
  - unfold delete_connection. rewrite H1', H2'.
    destruct (decide _) as [_|Hn]; [|destruct Hn; simpl; set_solver].
    f_equal. unfold set_connections. simpl.
    replace ((connections p ∪ {[sort2 (format_pin p1) (format_pin p2)]})
               ∖ {[sort2 (format_pin p1) (format_pin p2)]})
      with (connections p) by set_solver.
    by destruct p.
Qed.

Lemma add_then_delete_witness :
  delete_connection
    (set_connections pair_ab (connections pair_ab ∪ {[("A-2", "B-2")]}))
    "a-2" "b-2"
  = (pair_ab, true).
Proof.
  pose proof (add_then_delete pair_ab "a-2" "b-2" ("A", Some "2") ("B", Some "2"))
    as H.
  destruct H as (_ & _ & _ & H).
  - reflexivity.
  - reflexivity.
  - vm_compute. reflexivity.
  - vm_compute. reflexivity.
  - intros Hin. apply elem_of_elements in Hin. vm_compute in Hin.
    apply list_elem_of_singleton in Hin. discriminate Hin.
  - exact H.
Defined.

(** Why the components must be registered: the first call registers the
    test point [TP01] with one pin, after which the same token parses to
    the bare reference, and the second call stores a second pair. *)
Lemma add_connection_testpoint_twice :
  elements (connections
    (fst (add_connection (fst (add_connection empty_project "TP1-1" "R1-1"))
            "TP1-1" "R1-1")))
  = [("R01-1", "TP01-1"); ("R01-1", "TP01")].
Proof. compute_done. Qed.

(** The spellings of the pair that [delete_connection] looks up. *)
Lemma delete_connection_run (p : project) (pin1 pin2 : string) (p1 p2 : parsed_pin) :
  parse_pin p pin1 = Some p1 -> parse_pin p pin2 = Some p2 ->
  delete_connection p pin1 pin2
  = match List.find (λ c, bool_decide (c ∈ connections p))
            (v1 ← alt_variants p1 (format_pin p1);
             v2 ← alt_variants p2 (format_pin p2);
             [sort2 v1 v2]) with
    | Some c => (set_connections p (connections p ∖ {[c]}), true)
    | None => (p, false)
    end.
Proof.
  intros H1 H2. unfold delete_connection. rewrite H1, H2.
  destruct (decide _) as [Hin|Hnin]; [|done].
  assert (exists rest,
    (v1 ← alt_variants p1 (format_pin p1);
     v2 ← alt_variants p2 (format_pin p2); [sort2 v1 v2])
    = sort2 (format_pin p1) (format_pin p2) :: rest) as [rest ->].
  { unfold alt_variants. destruct (snd p1), (snd p2); simpl; eauto. }
  simpl. by rewrite bool_decide_eq_true_2.
Qed.

(** X7. [delete_connection] removes at most one stored pair.  It succeeds
    exactly when the pair is stored under one of the spellings it tries
    (each endpoint as formatted or, for a single-pin component, as
    [ref-1]); it then removes one such pair and nothing else, and on
    failure the project is unchanged. *)
Theorem delete_connection_outcome (p : project) (pin1 pin2 : string)
    (p1 p2 : parsed_pin) :
  parse_pin p pin1 = Some p1 -> parse_pin p pin2 = Some p2 ->
  let r := delete_connection p pin1 pin2 in
  let stored_as (c : string * string) :=
    c ∈ connections p
    /\ exists v1 v2, v1 ∈ alt_variants p1 (format_pin p1)
                     /\ v2 ∈ alt_variants p2 (format_pin p2)
                     /\ c = sort2 v1 v2 in
  (snd r = true <-> exists c, stored_as c)
  /\ (snd r = true ->
      exists c, stored_as c
                /\ fst r = set_connections p (connections p ∖ {[c]})
                /\ S (size (connections (fst r))) = size (connections p))
  /\ (snd r = false -> fst r = p).
Proof.
  intros H1 H2 r stored_as. unfold r.
  rewrite (delete_connection_run p pin1 pin2 p1 p2 H1 H2).
  set (alts := v1 ← alt_variants p1 (format_pin p1);
               v2 ← alt_variants p2 (format_pin p2); [sort2 v1 v2]).
  assert (forall c, c ∈ alts <->
            exists v1 v2, v1 ∈ alt_variants p1 (format_pin p1)
                          /\ v2 ∈ alt_variants p2 (format_pin p2)
                          /\ c = sort2 v1 v2) as Halts.
  { intros c. unfold alts. rewrite list_elem_of_bind.
    setoid_rewrite list_elem_of_bind. setoid_rewrite list_elem_of_singleton.
    naive_solver. }
  destruct (List.find _ alts) as [c|] eqn:Hfind; simpl.
  - apply find_some in Hfind as [Hin Hc].
    apply list_elem_of_In, Halts in Hin. apply bool_decide_eq_true in Hc.
    assert (stored_as c) as Hst by done.
    split; [split; eauto|split; [|done]].
    intros _. exists c. split; [done|split; [done|]].
    rewrite size_difference by set_solver. rewrite size_singleton.
    assert (size (connections p) <> 0); [|lia].
    intros Hz%size_empty_inv. set_solver.
  - split; [|split; [done|done]]. split; [done|].
    intros (c & Hc & Hv). apply Halts, list_elem_of_In in Hv.
    pose proof (find_none _ _ Hfind c Hv) as Hn. simpl in Hn.
    by apply bool_decide_eq_false in Hn.
Qed.

Lemma delete_connection_outcome_witness :
  fst (delete_connection gnd_rail "R1-2" "GND") = gnd_rail.
Proof.
  pose proof (delete_connection_outcome gnd_rail "R1-2" "GND"
                ("R01", Some "2") ("GND", None)) as H.
  destruct H as (_ & _ & H).
  - reflexivity.
  - reflexivity.
  - apply H. vm_compute. reflexivity.
Defined.

(** X8. [delete_pin_connections] keeps exactly the stored pairs that do not
    reference the pin (as formatted or, for a single-pin component, as
    [ref-1]); it succeeds exactly when some stored pair references it, it
    touches neither the component table nor the registry, and a second call
    finds nothing left. *)
Theorem delete_pin_connections_spec (p : project) (pin : string) (pp : parsed_pin) :
  parse_pin p pin = Some pp ->
  let r := delete_pin_connections p pin in
  (forall c, c ∈ connections (fst r) <-> c ∈ connections p /\ touches pp c = false)
  /\ (snd r = true <-> exists c, c ∈ connections p /\ touches pp c = true)
  /\ components (fst r) = components p
  /\ net_names (fst r) = net_names p
  /\ delete_pin_connections (fst r) pin = (fst r, false).
Proof.
  intros Hparse r.
  assert (forall q, components q = components p ->
            delete_pin_connections q pin
            = match List.filter (touches pp) (elements (connections q)) with
              | [] => (q, false)
              | _ => (set_connections q
                        (fold_left (λ conns c, conns ∖ {[c]})
                           (List.filter (touches pp) (elements (connections q)))
                           (connections q)), true)
              end) as Hrun.
  { intros q Hq. unfold delete_pin_connections.
    by rewrite (parse_pin_components q p pin Hq), Hparse. }
  assert (forall (X : gset (string * string)),
            List.filter (touches pp) (elements X) = [] <->
            forall c, c ∈ X -> touches pp c = false) as Hnil.
  { intros X. split.
    - intros E c Hc. destruct (touches pp c) eqn:Ht; [|done].
      assert (c ∈ List.filter (touches pp) (elements X)) as Hin.
      { apply list_elem_of_In, filter_In. split; [|done].
        by apply list_elem_of_In, elem_of_elements. }
      rewrite E in Hin. by apply elem_of_nil in Hin.
    - intros Hall. destruct (List.filter _ _) as [|c l] eqn:E; [done|].
      assert (c ∈ List.filter (touches pp) (elements X)) as Hin
        by (rewrite E; constructor).
      apply list_elem_of_In, filter_In in Hin as [Hin Ht].
      apply list_elem_of_In, elem_of_elements in Hin.
      rewrite (Hall c Hin) in Ht. done. }
  assert (forall c, c ∈ connections (fst r) <->
                    c ∈ connections p /\ touches pp c = false) as Hkeep.
  { intros c. unfold r. rewrite (Hrun p eq_refl).
    destruct (List.filter _ _) as [|c0 l] eqn:E.
    - simpl. pose proof (proj1 (Hnil _) E) as E'. naive_solver.
    - rewrite <- E. apply remove_filtered. }
  assert (components (fst r) = components p) as Hcomp.
  { unfold r. rewrite (Hrun p eq_refl). by destruct (List.filter _ _). }
  split; [done|split; [|split; [done|split]]].
  - unfold r. rewrite (Hrun p eq_refl).
    destruct (List.filter _ _) as [|c0 l] eqn:E; simpl.
    + split; [done|]. intros (c & Hc & Ht).
      pose proof (proj1 (Hnil _) E) as E'. by rewrite (E' c Hc) in Ht.
    + split; [|done]. intros _.
      assert (c0 ∈ List.filter (touches pp) (elements (connections p))) as Hin
        by (rewrite E; constructor).
      apply list_elem_of_In, filter_In in Hin as [Hin Ht].
      apply list_elem_of_In, elem_of_elements in Hin. eauto.
  - unfold r. rewrite (Hrun p eq_refl). by destruct (List.filter _ _).
  - rewrite (Hrun (fst r) Hcomp).
    assert (List.filter (touches pp) (elements (connections (fst r))) = []) as ->;
      [|done].
    apply (proj2 (Hnil _)). intros c Hc. by apply Hkeep in Hc as [_ Hc].
Qed.

Lemma delete_pin_connections_spec_witness :
  delete_pin_connections (fst (delete_pin_connections chain_abc "b-1")) "b-1"
  = (fst (delete_pin_connections chain_abc "b-1"), false).
Proof.
  pose proof (delete_pin_connections_spec chain_abc "b-1" ("B", Some "1")) as H.
  destruct H as (_ & _ & _ & _ & H).
  - reflexivity.
  - exact H.
Defined.

(** ** Self-loops and the frame of the mutators *)

Lemma no_self_loops_subseteq (X Y : gset (string * string)) :
  Y ⊆ X -> no_self_loops X -> no_self_loops Y.
Proof. intros HYX HX c Hc. apply HX, HYX, Hc. Qed.

Lemma merge_loop_no_self_loops (p_from : parsed_pin) (to_str : string)
    (l : list (string * string)) (X : gset (string * string)) (n : nat) :
  no_self_loops X -> no_self_loops (fst (merge_loop p_from to_str l X n)).
Proof.
  revert X n. induction l as [|c l IH]; intros X n HX; simpl; [done|].
  assert (no_self_loops (X ∖ {[c]})) as HX'.
  { eapply no_self_loops_subseteq; [|done]. set_solver. }
  destruct (decide _) as [Hnl|]; [destruct (decide _)|]; apply IH; try done.
  intros d [Hd| ->%elem_of_singleton]%elem_of_union; [by apply HX'|done].
Qed.

(** X9. A store without self-loops stays without self-loops under
    [merge_pins], [delete_connection], [delete_pin_connections] and
    [delete_component], and under [add_connection] as long as the two pins
    are not formatted to the same string. *)
Theorem no_self_loops_preserved (p : project) :
  no_self_loops (connections p) ->
  (forall from_pin to_pin,
      no_self_loops (connections (fst (merge_pins p from_pin to_pin))))
  /\ (forall pin1 pin2,
        no_self_loops (connections (fst (delete_connection p pin1 pin2))))
  /\ (forall pin, no_self_loops (connections (fst (delete_pin_connections p pin))))
  /\ (forall ref, no_self_loops (connections (fst (delete_component p ref))))
  /\ (forall pin1 pin2 p1 p2,
        parse_pin p pin1 = Some p1 -> parse_pin p pin2 = Some p2 ->
        format_pin p1 <> format_pin p2 ->
        no_self_loops (connections (fst (add_connection p pin1 pin2)))).
Proof.
  intros HX. split; [|split; [|split; [|split]]].
  - intros from_pin to_pin. unfold merge_pins, merge_pins_on.
    destruct (parse_pin p from_pin) as [p_from|]; [|done].
    destruct (parse_pin p to_pin) as [p_to|]; [|done].
    destruct (List.filter _ _) as [|c l] eqn:E; [done|].
    pose proof (merge_loop_no_self_loops p_from (format_pin p_to) (c :: l)
                  (connections p) 0 HX) as H.
    by destruct (merge_loop _ _ _ _ _).
  - intros pin1 pin2. unfold delete_connection.
    destruct (parse_pin p pin1) as [p1|]; [|done].
    destruct (parse_pin p pin2) as [p2|]; [|done].
    destruct (decide _); simpl.
    + eapply no_self_loops_subseteq; [|done]. set_solver.
    + destruct (List.find _ _); simpl; [|done].
      eapply no_self_loops_subseteq; [|done]. set_solver.
  - intros pin. unfold delete_pin_connections.
    destruct (parse_pin p pin) as [pp|]; [|done].
    destruct (List.filter _ _) as [|c l] eqn:E; [done|]. simpl fst.
    unfold set_connections, connections at 1. rewrite remove_each.
    eapply no_self_loops_subseteq; [|done]. set_solver.
  - intros ref. unfold delete_component. destruct (decide _); [|done]. simpl.
    rewrite remove_each. eapply no_self_loops_subseteq; [|done]. set_solver.
  - intros pin1 pin2 p1 p2 H1 H2 Hne. unfold add_connection. rewrite H1, H2.
    destruct (decide _); simpl; rewrite !auto_add_connections; [done|].
    intros c [Hc| ->%elem_of_singleton]%elem_of_union; [by apply HX|].
    unfold sort2. destruct (String.ltb _ _); simpl; congruence.
Qed.

Lemma no_self_loops_preserved_witness :
  no_self_loops (connections (fst (merge_pins chain_abc "B-1" "A-1"))).
Proof.
  pose proof (no_self_loops_preserved chain_abc) as H.
  destruct H as (H & _).
  - intros c Hc. apply elem_of_elements in Hc. vm_compute in Hc.
    apply elem_of_cons in Hc as [->|Hc]; [discriminate|].
    apply list_elem_of_singleton in Hc as ->. discriminate.
  - apply H.
Defined.

(** X10. The mutators of the store leave the rest of the project alone:
    [delete_connection], [delete_pin_connections] and [merge_pins] change
    neither the component table nor the registry of net names;
    [add_connection] never changes the registry nor an existing entry of
    the component table, and after it has parsed its two pins both
    references are registered. *)
Theorem store_mutators_frame (p : project) :
  (forall pin1 pin2,
      components (fst (delete_connection p pin1 pin2)) = components p
      /\ net_names (fst (delete_connection p pin1 pin2)) = net_names p)
  /\ (forall pin,
        components (fst (delete_pin_connections p pin)) = components p
        /\ net_names (fst (delete_pin_connections p pin)) = net_names p)
  /\ (forall from_pin to_pin,
        components (fst (merge_pins p from_pin to_pin)) = components p
        /\ net_names (fst (merge_pins p from_pin to_pin)) = net_names p)
  /\ (forall pin1 pin2,
        net_names (fst (add_connection p pin1 pin2)) = net_names p
        /\ (forall ref info,
              components p !! ref = Some info ->
              components (fst (add_connection p pin1 pin2)) !! ref = Some info)
        /\ (forall p1 p2,
              parse_pin p pin1 = Some p1 -> parse_pin p pin2 = Some p2 ->
              fst p1 ∈ dom (components (fst (add_connection p pin1 pin2)))
              /\ fst p2 ∈ dom (components (fst (add_connection p pin1 pin2))))).
Proof.
  split; [|split; [|split]].
  - intros pin1 pin2. unfold delete_connection.
    destruct (parse_pin p pin1); [|done]. destruct (parse_pin p pin2); [|done].
    destruct (decide _); [done|]. by destruct (List.find _ _).
  - intros pin. unfold delete_pin_connections.
    destruct (parse_pin p pin); [|done]. by destruct (List.filter _ _).
  - intros from_pin to_pin. unfold merge_pins, merge_pins_on.
    destruct (parse_pin p from_pin); [|done]. destruct (parse_pin p to_pin); [|done].
    destruct (List.filter _ _); [done|]. by destruct (merge_loop _ _ _ _ _).
  - intros pin1 pin2.
    assert (forall q pp, net_names (auto_add q pp) = net_names q) as Hnames.
    { intros q pp. unfold auto_add. by destruct (decide _). }
    assert (forall q pp ref info,
              fst pp ∈ dom (components q) \/ normalize_ref (fst pp) = fst pp ->
              components q !! ref = Some info ->
              components (auto_add q pp) !! ref = Some info) as Hkeep.
    { intros q pp ref info Hn Hl. unfold auto_add, add_component.
      destruct (decide _) as [|Hnin]; [done|]. simpl.
      destruct Hn as [?|Hn]; [done|]. rewrite Hn.
      rewrite lookup_insert_ne; [done|]. intros <-.
      apply Hnin. by eapply elem_of_dom_2. }
    assert (forall q pp,
              fst pp ∈ dom (components q) \/ normalize_ref (fst pp) = fst pp ->
              fst pp ∈ dom (components (auto_add q pp))) as Hreg.
    { intros q pp Hn. unfold auto_add, add_component.
      destruct (decide _) as [|Hnin]; [done|]. simpl.
      destruct Hn as [?|Hn]; [done|]. rewrite Hn, dom_insert_L. set_solver. }
    assert (forall q pp, dom (components q) ⊆ dom (components (auto_add q pp)))
      as Hgrow.
    { intros q pp. unfold auto_add, add_component.
      destruct (decide _); [done|]. simpl. rewrite dom_insert_L. set_solver. }
    unfold add_connection.
    destruct (parse_pin p pin1) as [p1|] eqn:H1;
      [|split; [done|split; [done|by intros ?? [=]]]].
    destruct (parse_pin p pin2) as [p2|] eqn:H2;
      [|split; [done|split; [done|by intros ?? _ [=]]]].
    pose proof (parse_pin_ref _ _ _ H1) as N1.
    pose proof (parse_pin_ref _ _ _ H2) as N2.
    assert (fst p2 ∈ dom (components (auto_add p p1))
            \/ normalize_ref (fst p2) = fst p2) as N2'.
    { destruct N2 as [N2|N2]; [left; by apply Hgrow|by right]. }
    assert (forall X,
              components (fst (if decide (X ∈ connections (auto_add (auto_add p p1) p2))
                               then (auto_add (auto_add p p1) p2, false)
                               else (set_connections (auto_add (auto_add p p1) p2)
                                       (connections (auto_add (auto_add p p1) p2)
                                        ∪ {[X]}), true)))
              = components (auto_add (auto_add p p1) p2)) as Hc
      by (intros X; by destruct (decide _)).
    split; [|split].
    + destruct (decide _); simpl; by rewrite !Hnames.
    + intros ref info Hl. rewrite Hc. by apply Hkeep, Hkeep.
    + intros q1 q2 [= <-] [= <-]. rewrite Hc. split.
      * by apply Hgrow, Hreg.
      * by apply Hreg.
Qed.

(** ** The nets are the connected components *)

Section components_of_the_store.

Implicit Types (m : gmap string string) (x y z r a b : string).
Implicit Types (l : list (string * string)).

Lemma linked_mono l l' a b :
  (forall c, c ∈ l -> c ∈ l') -> linked l a b -> linked l' a b.
Proof.
  intros Hsub. apply (rtsc_congruence id). intros u v. apply Hsub.
Qed.

Lemma linked_isolated l x b : x ∉ endpoints l -> linked l x b -> x = b.
Proof.
  intros Hx H. eapply rtsc_nf; [exact H|].
  intros [z [Hz|Hz]]; apply Hx, elem_of_endpoints; eexists; (split; [exact Hz|]);
    simpl; auto.
Qed.

(** Adding one connection joins the classes of its two endpoints. *)
Lemma linked_snoc l x y a b :
  linked (l ++ [(x, y)]) a b
  <-> linked l a b
      \/ (linked l a x /\ linked l y b)
      \/ (linked l a y /\ linked l x b).
Proof.
  assert (forall u v, linked l u v -> linked (l ++ [(x, y)]) u v) as Hup.
  { intros u v. apply linked_mono. intros c Hc. apply elem_of_app. by left. }
  assert (linked (l ++ [(x, y)]) x y) as Hxy.
  { apply rtsc_lr. unfold edge. apply elem_of_app. right. constructor. }
  split.
  - intros H. unfold linked, rtsc in H.
    induction H as [a|a a' b Hstep _ IH].
    + left. reflexivity.
    + assert (linked l a a' \/ (a = x /\ a' = y) \/ (a = y /\ a' = x)) as Hcase.
      { destruct Hstep as [Hs|Hs]; unfold edge in Hs;
          apply elem_of_app in Hs as [Hs|Hs%list_elem_of_singleton].
        - left. by apply rtsc_lr.
        - right. left. by injection Hs as -> ->.
        - left. by apply rtsc_rl.
        - right. right. by injection Hs as -> ->. }
      destruct Hcase as [Hl|[[-> ->]|[-> ->]]].
      * destruct IH as [IH|[[I1 I2]|[I1 I2]]].
        -- left. by etrans.
        -- right. left. split; [by etrans|done].
        -- right. right. split; [by etrans|done].
      * destruct IH as [IH|[[I1 I2]|[I1 I2]]].
        -- right. left. split; [reflexivity|done].
        -- left. etrans; [symmetry; exact I1|done].
        -- left. done.
      * destruct IH as [IH|[[I1 I2]|[I1 I2]]].
        -- right. right. split; [reflexivity|done].
        -- left. done.
        -- left. etrans; [symmetry; exact I1|done].
  - intros [H|[[H1 H2]|[H1 H2]]].
    + by apply Hup.
    + etrans; [apply Hup, H1|]. etrans; [exact Hxy|]. by apply Hup.
    + etrans; [apply Hup, H1|]. etrans; [symmetry; exact Hxy|]. by apply Hup.
Qed.

Lemma root_of_dom m z rz : root_of m z rz -> z ∈ dom m.
Proof. intros [n H]. by eapply reaches_dom. Qed.

(** A dictionary with the same keys and the same roots represents the
    same classes. *)
Lemma classes_same_roots m m' l :
  classes m l -> dom m' = dom m ->
  (forall z rz, root_of m z rz -> root_of m' z rz) ->
  classes m' l.
Proof.
  intros (Hm & Hdom & Hcl) Hd Hroots.
  assert (forall z rz, root_of m' z rz -> root_of m z rz) as Hback.
  { intros z rz Hz. destruct (Hm z) as [r0 Hr0].
    - rewrite <- Hd. by eapply root_of_dom.
    - by rewrite (root_of_functional _ _ _ _ Hz (Hroots _ _ Hr0)). }
  split; [|split].
  - intros z Hz. rewrite Hd in Hz. destruct (Hm z Hz) as [r Hr]. eauto.
  - by rewrite Hd.
  - intros a b ra rb Ha Hb. apply Hcl; by apply Hback.
Qed.

Lemma classes_ensure m l x : classes m l -> classes (ensure m x) l.
Proof.
  intros (Hm & Hdom & Hcl). unfold ensure.
  destruct (m !! x) eqn:E; [done|].
  assert (x ∉ dom m) as Hx by by apply not_elem_of_dom.
  assert (root_of (<[x := x]> m) x x) as Hxx
    by (apply root_of_root, lookup_insert_eq).
  assert (forall z rz, z <> x -> root_of (<[x := x]> m) z rz ->
                       root_of m z rz /\ rz <> x) as Hold.
  { intros z rz Hz Hr. destruct (Hm z) as [r0 Hr0].
    - apply root_of_dom in Hr. rewrite dom_insert_L in Hr. set_solver.
    - assert (root_of (<[x := x]> m) z r0) as Hr0'.
      { destruct Hr0 as [n Hn]. exists n. by apply reaches_insert_fresh. }
      rewrite (root_of_functional _ _ _ _ Hr Hr0'). split; [done|].
      intros ->. apply Hx. apply root_of_is_root in Hr0.
      by eapply elem_of_dom_2. }
  split; [|split].
  - pose proof (ensure_forest m x Hm) as H. unfold ensure in H. by rewrite E in H.
  - rewrite dom_insert_L. set_solver.
  - intros a b ra rb Ha Hb.
    destruct (decide (a = x)) as [->|Hax]; destruct (decide (b = x)) as [->|Hbx].
    + rewrite (root_of_functional _ _ _ _ Ha Hxx),
        (root_of_functional _ _ _ _ Hb Hxx). split; [reflexivity|done].
    + rewrite (root_of_functional _ _ _ _ Ha Hxx).
      destruct (Hold b rb Hbx Hb) as [_ Hne]. split; [by intros <-|].
      intros Hl. destruct Hbx. symmetry. eapply linked_isolated; [|exact Hl].
      set_solver.
    + rewrite (root_of_functional _ _ _ _ Hb Hxx).
      destruct (Hold a ra Hax Ha) as [_ Hne]. split; [done|].
      intros Hl. destruct Hax. symmetry in Hl.
      symmetry. eapply linked_isolated; [|exact Hl]. set_solver.
    + destruct (Hold a ra Hax Ha) as [Ha' _].
      destruct (Hold b rb Hbx Hb) as [Hb' _]. by apply Hcl.
Qed.

Lemma classes_find frames m l x :
  classes m l -> size (dom m ∪ {[x]}) <= frames ->
  exists m' r, find frames m x = Some (m', r)
               /\ classes m' l /\ root_of m' x r
               /\ dom m' = dom m ∪ {[x]}
               /\ forall z rz, root_of m z rz -> root_of m' z rz.
Proof.
  intros Hc Hsize. pose proof Hc as (Hm & _).
  destruct (find_returns frames m x Hm Hsize)
    as (m' & r & Hf & _ & Hd & Hr & Hold & Hroots).
  exists m', r. split; [done|split; [|done]].
  apply (classes_same_roots (ensure m x)); [by apply classes_ensure| |done].
  by rewrite Hd, ensure_dom.
Qed.

Lemma endpoints_snoc l x y :
  endpoints (l ++ [(x, y)]) = endpoints l ∪ {[x]} ∪ {[y]}.
Proof.
  apply set_eq. intros z.
  rewrite !elem_of_union, !elem_of_singleton, !elem_of_endpoints.
  setoid_rewrite elem_of_app. setoid_rewrite list_elem_of_singleton.
  split.
  - intros (c & [Hc| ->] & Hz); simpl in *; [left; left; eauto|tauto].
  - intros [[(c & Hc & Hz)| ->]| ->]; [eauto|exists (x, y); simpl; auto..].
Qed.

Lemma classes_joined m l x y r :
  classes m l -> root_of m x r -> root_of m y r ->
  classes m (l ++ [(x, y)]).
Proof.
  intros (Hm & Hdom & Hcl) Hx Hy.
  assert (linked l x y) as Hxy by by apply (Hcl x y r r).
  split; [done|split].
  - rewrite endpoints_snoc. apply root_of_dom in Hx, Hy. set_solver.
  - intros a b ra rb Ha Hb. rewrite (Hcl a b ra rb Ha Hb), linked_snoc.
    split; [by left|].
    intros [H|[[H1 H2]|[H1 H2]]]; [done|..].
    + etrans; [exact H1|]. by etrans.
    + etrans; [exact H1|]. etrans; [symmetry; exact Hxy|done].
Qed.

Lemma classes_link m l x y px py :
  classes m l -> root_of m x px -> root_of m y py -> px <> py ->
  classes (<[px := py]> m) (l ++ [(x, y)]).
Proof.
  intros (Hm & Hdom & Hcl) Hx Hy Hne.
  pose proof (root_of_is_root _ _ _ Hx) as Hpx.
  pose proof (root_of_is_root _ _ _ Hy) as Hpy.
  assert (dom (<[px := py]> m) = dom m) as Hd.
  { rewrite dom_insert_L. apply (elem_of_dom_2 m) in Hpx. set_solver. }
  assert (forall z rz', root_of (<[px := py]> m) z rz' ->
            exists rz, root_of m z rz
                       /\ rz' = if decide (rz = px) then py else rz) as Hnew.
  { intros z rz' Hz. destruct (Hm z) as [rz Hrz].
    - rewrite <- Hd. by eapply root_of_dom.
    - exists rz. split; [done|].
      eapply root_of_functional; [exact Hz|]. by apply link_roots. }
  split; [|split].
  - intros z Hz. rewrite Hd in Hz. destruct (Hm z Hz) as [rz Hrz].
    eexists. by apply link_roots.
  - rewrite Hd, endpoints_snoc. apply root_of_dom in Hx, Hy. set_solver.
  - intros a b ra' rb' Ha Hb.
    destruct (Hnew a ra' Ha) as (ra & Hra & ->).
    destruct (Hnew b rb' Hb) as (rb & Hrb & ->).
    rewrite linked_snoc.
    rewrite <- (Hcl a b ra rb Hra Hrb), <- (Hcl a x ra px Hra Hx),
      <- (Hcl y b py rb Hy Hrb), <- (Hcl a y ra py Hra Hy),
      <- (Hcl x b px rb Hx Hrb).
    repeat case_decide; naive_solver.
Qed.

Lemma union_pins_classes frames m l x y :
  classes m l -> size (dom m ∪ {[x]} ∪ {[y]}) <= frames ->
  exists m', union_pins frames m x y = Some m'
             /\ classes m' (l ++ [(x, y)])
             /\ dom m' = dom m ∪ {[x]} ∪ {[y]}.
Proof.
  intros Hc Hsize. unfold union_pins.
  destruct (classes_find frames m l x Hc) as (m1 & px & -> & Hc1 & Hpx & Hd1 & _).
  { etrans; [|exact Hsize]. apply subseteq_size. set_solver. }
  simpl.
  destruct (classes_find frames m1 l y Hc1)
    as (m2 & py & -> & Hc2 & Hpy & Hd2 & Hroots).
  { by rewrite Hd1. }
  simpl.
  assert (root_of m2 x px) as Hpx2 by by apply Hroots.
  destruct (decide (px <> py)) as [Hne|Heq].
  - eexists. split; [done|]. split; [by apply classes_link|].
    rewrite dom_insert_L, Hd2, Hd1.
    pose proof (root_of_dom _ _ _ (root_of_root _ _ (root_of_is_root _ _ _ Hpx2)))
      as Hin.
    rewrite Hd2, Hd1 in Hin. set_solver.
  - apply dec_stable in Heq. subst py. exists m2. split; [done|].
    split; [by eapply classes_joined|by rewrite Hd2, Hd1].
Qed.

Lemma union_all_classes frames l (done : list (string * string)) m :
  classes m done -> size (dom m ∪ endpoints l) <= frames ->
  exists m', union_all frames l m = Some m' /\ classes m' (done ++ l).
Proof.
  revert done m. induction l as [|[x y] l IH]; intros done m Hc Hsize; simpl.
  - exists m. by rewrite app_nil_r.
  - rewrite endpoints_cons in Hsize. simpl in Hsize.
    destruct (union_pins_classes frames m done x y Hc) as (m1 & -> & Hc1 & Hd1).
    { etrans; [|exact Hsize]. apply subseteq_size. set_solver. }
    simpl.
    destruct (IH (done ++ [(x, y)])%list m1 Hc1) as (m' & -> & Hc').
    { etrans; [|exact Hsize]. apply subseteq_size. rewrite Hd1. set_solver. }
    exists m'. split; [done|]. by rewrite <- app_assoc in Hc'.
Qed.

Lemma classes_empty : classes ∅ [].
Proof.
  split; [apply forest_empty|split].
  - rewrite endpoints_nil. set_solver.
  - intros a b ra rb Ha. apply root_of_dom in Ha.
    rewrite dom_empty_L in Ha. set_solver.
Qed.

(** The nets returned by [build_nets], for any order of visit: two pins
    share a net exactly when both are endpoints and they are linked. *)
Lemma build_nets_on_classes frames (order : list (string * string)) :
  size (endpoints order) <= frames ->
  exists nets,
    build_nets_on frames order = Some nets
    /\ forall a b,
         in_one_net nets a b
         <-> a ∈ endpoints order /\ b ∈ endpoints order /\ linked order a b.
Proof.
  intros Hsize. unfold build_nets_on.
  assert (size (dom (∅ : gmap string string) ∪ endpoints order) <= frames) as Hsize0.
  { by rewrite dom_empty_L, (left_id_L ∅ (∪)). }
  destruct (union_all_classes frames order [] ∅ classes_empty Hsize0)
    as (m0 & Hrun & Hc).
  destruct (union_all_spec frames order ∅ forest_empty Hsize0)
    as (m0' & Hrun' & _ & Hd0).
  rewrite Hrun in Hrun'. injection Hrun' as <-. rewrite Hrun.
  rewrite dom_empty_L, (left_id_L ∅ (∪)) in Hd0.
  simpl. simpl in Hc. destruct Hc as (Hm0 & Hdom & Hcl).
  destruct (group_all_spec frames m0 order m0 ∅ ∅)
    as (m' & nets & -> & G1 & G2 & G3);
    [done|by rewrite Hd0|done|done|done|done| |].
  - split; [|split].
    + intros r s. by rewrite lookup_empty.
    + intros pin r []%not_elem_of_empty.
    + intros r s. by rewrite lookup_empty.
  - simpl. exists nets. split; [done|]. intros a b.
    rewrite (left_id_L ∅ (∪)) in G1, G2. split.
    + intros (r & s & Hs & Ha & Hb).
      apply (G1 r s Hs) in Ha as [Ha Hra]. apply (G1 r s Hs) in Hb as [Hb Hrb].
      split; [done|split; [done|]]. by apply (Hcl a b r r).
    + intros (Ha & Hb & Hl).
      destruct (Hm0 a) as [ra Hra]; [by apply Hdom|].
      destruct (Hm0 b) as [rb Hrb]; [by apply Hdom|].
      assert (ra = rb) as <- by by apply (Hcl a b ra rb).
      destruct (G2 a ra Ha Hra) as [s Hs]. exists ra, s.
      split; [done|]. split; by apply (G1 ra s Hs).
Qed.

End components_of_the_store.

Lemma build_nets_on_linked frames (order : list (string * string))
    (nets : gmap string (gset string)) :
  build_nets_on frames order = Some nets ->
  forall a b,
    in_one_net nets a b
    <-> a ∈ endpoints order /\ b ∈ endpoints order /\ linked order a b.
Proof.
  intros Hrun.
  destruct (build_nets_on_classes (frames `max` size (endpoints order)) order)
    as (nets' & Hrun' & H); [lia|].
  rewrite (build_nets_on_more_frames _ _ _ _ Hrun) in Hrun' by lia.
  by injection Hrun' as <-.
Qed.

Lemma linked_elements (X : gset (string * string)) (a b : string) :
  linked (elements X) a b <-> connected X a b.
Proof.
  unfold linked, connected, edge. split; apply (rtsc_congruence id);
    intros u v; by rewrite elem_of_elements.
Qed.

Lemma endpoints_elements (X : gset (string * string)) :
  endpoints (elements X) = connected_pins X.
Proof.
  apply set_eq. intros x. rewrite elem_of_endpoints, connected_pins_spec.
  by setoid_rewrite elem_of_elements.
Qed.

Lemma build_nets_returns (frames : nat) (p : project) :
  size (connected_pins (connections p)) <= frames -> is_Some (build_nets frames p).
Proof.
  intros Hsize. apply build_nets_on_returns. by rewrite endpoints_elements.
Qed.

(** X11. The nets of [build_nets] are the connected components of the
    store: whenever it returns, two pins lie in one net exactly when both
    are endpoints of stored connections and a chain of stored connections,
    taken in either direction, leads from one to the other.  It returns on
    every store that has no more endpoints than the interpreter allows
    nested calls of [find]. *)
Theorem build_nets_connected (frames : nat) (p : project) :
  (size (connected_pins (connections p)) <= frames ->
   is_Some (build_nets frames p))
  /\ forall nets,
       build_nets frames p = Some nets ->
       forall a b,
         in_one_net nets a b
         <-> a ∈ connected_pins (connections p)
             /\ b ∈ connected_pins (connections p)
             /\ connected (connections p) a b.
Proof.
  split; [apply build_nets_returns|].
  intros nets Hrun a b.
  by rewrite (build_nets_on_linked _ _ _ Hrun a b), linked_elements,
    endpoints_elements.
Qed.

(** X12. After [add_connection] has parsed its two pins, whether it stored
    the pair or found it already stored, the two pins lie in one net
    whenever [build_nets] returns, as it does when the store has no more
    endpoints than [find] may nest calls. *)
Theorem add_connection_joins_nets (frames : nat) (p : project)
    (pin1 pin2 : string) (p1 p2 : parsed_pin) :
  parse_pin p pin1 = Some p1 -> parse_pin p pin2 = Some p2 ->
  let q := fst (add_connection p pin1 pin2) in
  (size (connected_pins (connections q)) <= frames ->
   is_Some (build_nets frames q))
  /\ forall nets,
       build_nets frames q = Some nets ->
       in_one_net nets (format_pin p1) (format_pin p2).
Proof.
  intros H1 H2 q. split; [apply build_nets_returns|].
  intros nets Hrun. apply (build_nets_on_linked _ _ _ Hrun).
  pose proof (add_connection_stores p pin1 pin2 p1 p2 H1 H2) as Hin.
  apply elem_of_elements in Hin. fold q in Hin.
  set (l := elements (connections q)) in *.
  unfold sort2 in Hin. destruct (String.ltb _ _).
  - split; [|split].
    + apply elem_of_endpoints. eexists. split; [exact Hin|]. simpl. auto.
    + apply elem_of_endpoints. eexists. split; [exact Hin|]. simpl. auto.
    + by apply rtsc_rl.
  - split; [|split].
    + apply elem_of_endpoints. eexists. split; [exact Hin|]. simpl. auto.
    + apply elem_of_endpoints. eexists. split; [exact Hin|]. simpl. auto.
    + by apply rtsc_lr.
Qed.

Lemma add_connection_joins_nets_witness :
  exists nets,
    build_nets 3 (fst (add_connection chain_bc "a-1" "c-1")) = Some nets
    /\ in_one_net nets "A-1" "C-1".
Proof.
  destruct (add_connection_joins_nets 3 chain_bc "a-1" "c-1"
              ("A", Some "1") ("C", Some "1")) as [Hreturns Hjoin].
  - reflexivity.
  - reflexivity.
  - destruct Hreturns as [nets Hrun]; [vm_compute; lia|].
    exists nets. split; [exact Hrun|]. apply Hjoin. exact Hrun.
Defined.

Lemma deletion_subseteq (p q : project) :
  deletion_of p q -> connections q ⊆ connections p.
Proof.
  intros [(pin1 & pin2 & ->)|[(pin & ->)|(ref & ->)]].
  - unfold delete_connection.
    destruct (parse_pin p pin1); [|done]. destruct (parse_pin p pin2); [|done].
    destruct (decide _); simpl; [set_solver|].
    destruct (List.find _ _); simpl; set_solver.
  - unfold delete_pin_connections.
    destruct (parse_pin p pin); [|done].
    destruct (List.filter _ _) as [|c l] eqn:E; [done|]. simpl fst.
    unfold set_connections, connections at 1. rewrite remove_each. set_solver.
  - unfold delete_component.
    destruct (decide _); [|done]. simpl. rewrite remove_each. set_solver.
Qed.

Lemma connected_pins_mono (X Y : gset (string * string)) :
  Y ⊆ X -> connected_pins Y ⊆ connected_pins X.
Proof.
  intros Hsub x (c & Hc & Hx)%connected_pins_spec.
  apply connected_pins_spec. exists c. split; [by apply Hsub|done].
Qed.

(** X13. Removing connections never joins nets: when [build_nets] returns
    before and after [delete_connection], [delete_pin_connections] or
    [delete_component], two pins that share a net afterwards shared a net
    before.  It returns both times when the store has, before the removal,
    no more endpoints than [find] may nest calls. *)
Theorem deletion_refines_nets (frames : nat) (p q : project) :
  deletion_of p q ->
  (size (connected_pins (connections p)) <= frames ->
   is_Some (build_nets frames p) /\ is_Some (build_nets frames q))
  /\ forall nets nets' a b,
       build_nets frames p = Some nets -> build_nets frames q = Some nets' ->
       in_one_net nets' a b -> in_one_net nets a b.
Proof.
  intros Hsub%deletion_subseteq. split.
  - intros Hsize. split; [by apply build_nets_returns|].
    apply build_nets_returns. etrans; [|exact Hsize].
    by apply subseteq_size, connected_pins_mono.
  - intros nets nets' a b Hrun Hrun'.
    rewrite (build_nets_on_linked _ _ _ Hrun a b),
      (build_nets_on_linked _ _ _ Hrun' a b).
    assert (forall c, c ∈ elements (connections q) -> c ∈ elements (connections p))
      as Hsub'.
    { intros c. rewrite !elem_of_elements. apply Hsub. }
    intros (Ha & Hb & Hl). split; [|split].
    + apply elem_of_endpoints in Ha as (c & Hc & Hx).
      apply elem_of_endpoints. eauto.
    + apply elem_of_endpoints in Hb as (c & Hc & Hx).
      apply elem_of_endpoints. eauto.
    + by eapply linked_mono.
Qed.

Lemma deletion_refines_nets_witness :
  exists nets, build_nets 3 chain_abc = Some nets /\ in_one_net nets "B-1" "C-1".
Proof.
  assert (deletion_of chain_abc chain_bc) as Hdel.
  { left. exists "A-1", "B-1". reflexivity. }
  destruct (deletion_refines_nets 3 chain_abc chain_bc Hdel) as [Hreturns Hrefines].
  destruct Hreturns as [[nets Hrun] [nets' Hrun']]; [vm_compute; lia|].
  exists nets. split; [exact Hrun|].
  apply (Hrefines nets nets' "B-1" "C-1" Hrun Hrun').
  assert (nets' = {[ "C-1" := {[ "B-1"; "C-1" ]} ]}) as ->.
  { assert (build_nets 3 chain_bc = Some {[ "C-1" := {[ "B-1"; "C-1" ]} ]}) as E
      by (vm_compute; reflexivity).
    rewrite E in Hrun'. injection Hrun' as <-. reflexivity. }
  exists "C-1", {[ "B-1"; "C-1" ]}.
  split; [reflexivity|].
  split; apply elem_of_elements; vm_compute; repeat constructor.
Defined.

(** ** find_connections *)

Lemma find_matches_acc (terms : list string) (l acc : list (string * string)) :
  let step := λ (matches : list (string * string)) c,
                if conn_matches terms c then
                  if decide (c ∈ matches) then matches else (matches ++ [c])%list
                else matches in
  (forall c, c ∈ fold_left step l acc <->
             c ∈ acc \/ (c ∈ l /\ conn_matches terms c = true))
  /\ (NoDup acc -> NoDup (fold_left step l acc)).
Proof.
  intros step. revert acc. induction l as [|d l IH]; intros acc; simpl.
  - split; [|done]. intros c. split; [by left|].
    intros [?|[[]%elem_of_nil _]]; done.
  - destruct (IH (step acc d)) as [IHin IHnd]. split.
    + intros c. rewrite IHin. unfold step at 1.
      destruct (conn_matches terms d) eqn:Hd.
      * destruct (decide (d ∈ acc)) as [Hin|Hnin].
        -- split; [intros [?|[? ?]]; [by left|right; split; [by right|done]]|].
           intros [?|[[->|?]%elem_of_cons ?]]; [by left|by left|by right].
        -- rewrite elem_of_app, list_elem_of_singleton. split.
           ++ intros [[?| ->]|[? ?]]; [by left|right; split; [by left|done]
                                       |right; split; [by right|done]].
           ++ intros [?|[[->|?]%elem_of_cons ?]];
                [by left; left|by left; right|by right].
      * split; [intros [?|[? ?]]; [by left|right; split; [by right|done]]|].
        intros [?|[[->|?]%elem_of_cons Hm]]; [by left|congruence|by right].
    + intros Hnd. apply IHnd. unfold step.
      destruct (conn_matches terms d); [|done].
      destruct (decide (d ∈ acc)) as [|Hnin]; [done|].
      apply NoDup_app. split; [done|split; [|apply NoDup_singleton]].
      intros x Hx ->%list_elem_of_singleton. done.
Qed.

Lemma conn_le_total : Total conn_le.
Proof.
  intros c d. unfold conn_le, String.ltb.
  rewrite (String.compare_antisym (fst d) (fst c)).
  destruct (String.compare (fst c) (fst d)) eqn:E; simpl.
  - apply String.compare_eq_iff in E. rewrite E.
    destruct (String.leb_total (snd c) (snd d)); [left|right]; right; done.
  - left. left. reflexivity.
  - right. left. reflexivity.
Qed.

(** X14. [find_connections] returns exactly the stored pairs that have one
    of the search terms as a substring of an endpoint, each once, sorted as
    Python sorts pairs. *)
Theorem find_connections_spec (p : project) (pin_or_ref : string) :
  (forall c, c ∈ find_connections p pin_or_ref <->
             c ∈ connections p
             /\ exists search, search ∈ search_terms p pin_or_ref
                               /\ (str_in search (fst c) = true
                                   \/ str_in search (snd c) = true))
  /\ NoDup (find_connections p pin_or_ref)
  /\ Sorted conn_le (find_connections p pin_or_ref).
Proof.
  unfold find_connections, find_matches.
  destruct (find_matches_acc (search_terms p pin_or_ref)
              (elements (connections p)) []) as [Hin Hnd].
  split; [|split].
  - intros c. rewrite merge_sort_Permutation, Hin, elem_of_elements.
    unfold conn_matches. rewrite existsb_exists.
    setoid_rewrite orb_true_iff. setoid_rewrite <- list_elem_of_In.
    split; [intros [[]%elem_of_nil|?]; done|by right].
  - rewrite merge_sort_Permutation. apply Hnd, NoDup_nil_2.
  - exact (@Sorted_merge_sort _ conn_le _ conn_le_total _).
Qed.

Lemma str_in_prefix (s h : string) : String.prefix s h = true -> str_in s h = true.
Proof. intros H. destruct h; simpl in *; by rewrite H. Qed.

(** X15. Searching with a bare reference (a token without [-] or [.])
    finds every stored pair that has an endpoint starting with the
    normalised reference: the pins [ref-label] of the component and the
    bare [ref] itself. *)
Theorem find_connections_by_ref (p : project) (tok : string) (c : string * string) :
  contains "-" (strip (upper tok)) = false ->
  contains "." (strip (upper tok)) = false ->
  c ∈ connections p ->
  startswith (fst c) (normalize_ref tok) = true
  \/ startswith (snd c) (normalize_ref tok) = true ->
  c ∈ find_connections p tok.
Proof.
  intros Hd Hp Hc Hstart.
  unfold find_connections, find_matches.
  destruct (find_matches_acc (search_terms p tok)
              (elements (connections p)) []) as [Hin _].
  rewrite merge_sort_Permutation. apply Hin. right.
  split; [by apply elem_of_elements|].
  unfold conn_matches. apply existsb_exists. exists (normalize_ref tok). split.
  - unfold search_terms. rewrite Hd, Hp. simpl.
    left. unfold normalize_ref. by rewrite canon_fixed.
  - apply orb_true_iff. destruct Hstart as [H|H]; [left|right];
      by apply str_in_prefix.
Qed.

Lemma find_connections_by_ref_witness :
  ("A-1", "B-1") ∈ find_connections chain_abc "b".
Proof.
  apply (find_connections_by_ref chain_abc "b" ("A-1", "B-1")).
  - reflexivity.
  - reflexivity.
  - apply elem_of_elements. vm_compute. constructor.
  - right. reflexivity.
Defined.

(** ** The component type of a reference *)

Lemma keep_lstrip (f : ascii -> bool) (s : string) :
  (forall c, isspace c = true -> f c = false) -> keep f (lstrip s) = keep f s.
Proof.
  intros Hf. induction s as [|c s IH]; simpl; [done|].
  destruct (isspace c) eqn:E; [|done]. by rewrite (Hf c E).
Qed.

Lemma keep_rstrip (f : ascii -> bool) (s : string) :
  (forall c, isspace c = true -> f c = false) -> keep f (rstrip s) = keep f s.
Proof.
  intros Hf. induction s as [|c s IH]; simpl; [done|].
  destruct (rstrip s) as [|c' r] eqn:E.
  - simpl in IH. rewrite <- IH.
    destruct (isspace c) eqn:Ec; simpl; [by rewrite (Hf c Ec)|done].
  - change (keep f (String c (String c' r)))
      with (if f c then String c (keep f (String c' r)) else keep f (String c' r)).
    by rewrite IH.
Qed.

Lemma isspace_not_alpha c : isspace c = true -> isalpha c = false.
Proof.
  intros H. destruct (isalpha c) eqn:E; [|done].
  apply isalpha_not_space in E. congruence.
Qed.

Lemma letters_of_normalized (x : string) :
  upper (keep isalpha (normalize_ref x)) = upper (keep isalpha x).
Proof.
  assert (keep isalpha (strip (upper x)) = upper (keep isalpha x)) as Hcanon.
  { unfold strip.
    rewrite (keep_rstrip _ _ isspace_not_alpha), (keep_lstrip _ _ isspace_not_alpha).
    symmetry. apply upper_keep, isalpha_upper_c. }
  destruct (normalize_ref_shape x) as [->|(d & Hd & Hl & ->)].
  - by rewrite Hcanon, upper_idem.
  - destruct (padded_form_fixed x d Hl Hd) as (_ & -> & _).
    by rewrite Hcanon, upper_idem.
Qed.

(** X16. The component type and the default pin count do not depend on the
    spelling of the reference: they are the same for a reference as typed
    and for its normalised form, so [add_component], which computes both
    from the normalised reference, files a component under the type of the
    reference the user typed. *)
Theorem component_type_of_normalized (ref : string) :
  get_component_type (normalize_ref ref) = get_component_type ref
  /\ get_default_pins (normalize_ref ref) = get_default_pins ref
  /\ forall p npins,
       components (add_component p ref npins) !! normalize_ref ref
       = Some (Component (Some (default (get_default_pins ref) npins))
                         "?" "?" "" (get_component_type ref)).
Proof.
  assert (get_component_type (normalize_ref ref) = get_component_type ref) as Ht.
  { unfold get_component_type. by rewrite letters_of_normalized. }
  assert (get_default_pins (normalize_ref ref) = get_default_pins ref) as Hp.
  { unfold get_default_pins. by rewrite Ht. }
  split; [done|split; [done|]].
  intros p npins. unfold add_component. simpl.
  rewrite lookup_insert_eq, Ht. destruct npins; simpl; by rewrite ?Hp.
Qed.

(** ** Outcomes of name_net *)

(** Every net is filed under one of its own pins. *)
Lemma build_nets_on_keys frames (order : list (string * string))
    (nets : gmap string (gset string)) :
  build_nets_on frames order = Some nets ->
  forall r s, nets !! r = Some s -> r ∈ s.
Proof.
  intros (m0 & Hm0 & Hdom & G1 & G2 & G3)%build_nets_on_run r s Hs.
  destruct (G3 r s Hs) as [pin Hpin].
  apply (G1 r s Hs) in Hpin as [_ Hroot].
  pose proof (root_of_is_root _ _ _ Hroot) as Hr.
  apply (G1 r s Hs). split.
  - rewrite <- Hdom. by apply elem_of_dom.
  - by apply root_of_root.
Qed.

(** X17. [name_net] returns when the store has no more endpoints than
    [find] may nest calls, and at once on a pin that does not parse.
    Whenever it returns it has touched neither the components nor the
    connections.  When it reports success it has written exactly one entry
    of the name registry, under the key of a net of [build_nets]; that key
    is itself a pin of the net, the net has the looked-up pin string as a
    member, and the reported count is the size of the net.  In every other
    case the project is unchanged. *)
Theorem name_net_outcome (frames : nat) (p : project) (pin name : string) :
  (size (connected_pins (connections p)) <= frames ->
   is_Some (name_net frames p pin name))
  /\ (parse_pin p pin = None -> name_net frames p pin name = Some (p, NameInvalid))
  /\ forall p' r,
       name_net frames p pin name = Some (p', r) ->
       components p' = components p
       /\ connections p' = connections p
       /\ match r with
          | Named root n =>
              net_names p' = <[root := name]> (net_names p)
              /\ exists pp nets s,
                   parse_pin p pin = Some pp
                   /\ build_nets frames p = Some nets
                   /\ nets !! root = Some s
                   /\ root ∈ s /\ fstring_pin pp ∈ s /\ n = size s
          | _ => p' = p
          end.
Proof.
  unfold name_net. split; [|split].
  - intros [nets Hrun]%build_nets_returns.
    destruct (parse_pin p pin) as [pp|]; [|done]. rewrite Hrun. simpl.
    by destruct (List.find _ (map_to_list nets)) as [[root members]|].
  - by intros ->.
  - intros p' r.
    destruct (parse_pin p pin) as [pp|] eqn:Hparse; [|by intros [= <- <-]].
    destruct (build_nets frames p) as [nets|] eqn:Hrun; [|done]. simpl.
    pose proof (build_nets_on_keys _ _ _ Hrun) as Hkeys.
    destruct (List.find _ (map_to_list nets)) as [[root members]|] eqn:Hfind.
    + apply find_net_some in Hfind as [Hl Hin]. intros [= <- <-].
      split; [done|split; [done|]].
      split; [done|]. exists pp, nets, members. eauto 10.
    + by intros [= <- <-].
Qed.

(** ** Order of get_remaining_pins *)

Lemma seqZ_increasing (m n : Z) : StronglySorted Z.lt (seqZ m n).
Proof.
  remember (Z.to_nat n) as k eqn:Hk. revert m n Hk.
  induction k as [|k IH]; intros m n Hk.
  - rewrite seqZ_nil by lia. constructor.
  - rewrite seqZ_cons by lia. constructor; [apply IH; lia|].
    apply Forall_forall. intros x Hx%elem_of_seqZ. lia.
Qed.

Lemma remaining_of_sorted (connected : gset string) (ref : string) (info : component) :
  StronglySorted remaining_lt (remaining_of connected ref info).
Proof.
  unfold remaining_of.
  induction (seqZ_increasing 1 (pins_or_0 info)) as [|k l Hl IH Hk]; simpl.
  - constructor.
  - destruct (decide _) as [Hfree|]; [|done].
    constructor; [done|]. apply Forall_forall.
    intros e (k' & Hk' & He)%list_elem_of_omap. cbv zeta in He.
    destruct (decide _); [|done]. injection He as <-.
    right. simpl. split; [done|].
    rewrite Forall_forall in Hk. by apply Hk.
Qed.

Lemma remaining_of_ref (connected : gset string) (ref : string) (info : component)
    (e : string * Z * string) :
  e ∈ remaining_of connected ref info -> fst (fst e) = ref.
Proof.
  intros (k & _ & He)%list_elem_of_omap. cbv zeta in He.
  destruct (decide _); [|done]. by injection He as <-.
Qed.

Lemma bind_sorted (g : string * component -> list (string * Z * string))
    (L : list (string * component)) :
  (forall x e, e ∈ g x -> fst (fst e) = fst x) ->
  (forall x, StronglySorted remaining_lt (g x)) ->
  StronglySorted item_le L -> NoDup (L.*1) ->
  StronglySorted remaining_lt (L ≫= g).
Proof.
  intros Hg Hs HL. induction HL as [|x L HL IH Hx]; intros Hnd; simpl.
  - constructor.
  - apply NoDup_cons in Hnd as [Hnin Hnd].
    apply StronglySorted_app; split; [|split; [done|by apply IH]].
    intros e1 e2 He1 (y & He2 & Hy)%list_elem_of_bind.
    left. rewrite (Hg _ _ He1), (Hg _ _ He2). split.
    + rewrite Forall_forall in Hx. by apply Hx.
    + intros Heq. apply Hnin. rewrite Heq. by apply list_elem_of_fmap_2.
Qed.

Lemma sorted_strict_NoDup {A} (R : relation A) (l : list A) :
  (forall x, ~ R x x) -> StronglySorted R l -> NoDup l.
Proof.
  intros Hirr. induction 1 as [|x l Hl IH Hx].
  - constructor.
  - apply NoDup_cons. split; [|done].
    intros Hin. rewrite Forall_forall in Hx. by apply (Hirr x), Hx.
Qed.

(** X18. [get_remaining_pins] reports the unconnected pins in order: by
    reference as Python compares strings and, for one component, by
    increasing pin number.  No pin is reported twice. *)
Theorem get_remaining_pins_sorted (p : project) (filter_prefix : option string) :
  StronglySorted remaining_lt (get_remaining_pins p filter_prefix)
  /\ NoDup (get_remaining_pins p filter_prefix).
Proof.
  assert (StronglySorted remaining_lt (get_remaining_pins p filter_prefix)) as H.
  { unfold get_remaining_pins. apply bind_sorted.
    - intros [ref info] e. simpl.
      destruct (pins_or_0 info <=? 1)%Z; [by intros ?%elem_of_nil|].
      destruct (filtered_out filter_prefix ref); [by intros ?%elem_of_nil|].
      apply remaining_of_ref.
    - intros [ref info].
      destruct (pins_or_0 info <=? 1)%Z; [constructor|].
      destruct (filtered_out filter_prefix ref); [constructor|].
      apply remaining_of_sorted.
    - apply (@StronglySorted_merge_sort _ item_le _).
      + intros a b c. unfold item_le. apply transitivity.
      + intros a b. unfold item_le. apply total, _.
    - rewrite merge_sort_Permutation. apply NoDup_fst_map_to_list. }
  split; [done|]. apply (sorted_strict_NoDup remaining_lt); [|done].
  intros e [[_ Hne]|[_ Hlt]]; [done|lia].
Qed.

(** ** export_named_nets *)

Section export.

Variable p : project.

Let names (l : list (string * gset string)) : list string :=
  (λ item, net_name p (fst item)) <$> l.

Lemma export_fold_origin (l : list (string * gset string))
    (acc : gmap string net_entry) (name : string) (e : net_entry) :
  fold_left (export_step p) l acc !! name = Some e ->
  acc !! name = Some e
  \/ exists item, item ∈ l /\ net_name p (fst item) = name
                  /\ e = export_entry (snd item).
Proof.
  revert acc. induction l as [|x l IH]; intros acc; simpl; [by left|].
  intros [H|(item & Hin & Hn & He)]%IH.
  - unfold export_step in H.
    destruct (decide (net_name p (fst x) = name)) as [Heq|Hne].
    + rewrite Heq, lookup_insert_eq in H. injection H as <-.
      right. exists x. split; [by left|done].
    + rewrite lookup_insert_ne in H by done. by left.
  - right. exists item. split; [by right|done].
Qed.

Lemma export_fold_dom (l : list (string * gset string))
    (acc : gmap string net_entry) :
  dom (fold_left (export_step p) l acc) = dom acc ∪ list_to_set (names l).
Proof.
  revert acc. induction l as [|x l IH]; intros acc; simpl.
  - by rewrite (right_id_L ∅ (∪)).
  - rewrite IH. unfold export_step. rewrite dom_insert_L. set_solver.
Qed.

Lemma export_fold_other (l : list (string * gset string))
    (acc : gmap string net_entry) (name : string) :
  name ∉ names l -> fold_left (export_step p) l acc !! name = acc !! name.
Proof.
  revert acc. induction l as [|x l IH]; intros acc Hn; simpl; [done|].
  unfold names in Hn. rewrite fmap_cons, not_elem_of_cons in Hn.
  destruct Hn as [Hne Hn]. rewrite IH by done.
  unfold export_step. by rewrite lookup_insert_ne.
Qed.

Lemma export_fold_distinct (l : list (string * gset string))
    (acc : gmap string net_entry) (item : string * gset string) :
  NoDup (names l) -> item ∈ l ->
  fold_left (export_step p) l acc !! net_name p (fst item)
  = Some (export_entry (snd item)).
Proof.
  revert acc. induction l as [|x l IH]; intros acc Hnd Hin; simpl.
  - by apply elem_of_nil in Hin.
  - unfold names in Hnd. rewrite fmap_cons in Hnd.
    apply NoDup_cons in Hnd as [Hx Hnd].
    apply elem_of_cons in Hin as [->|Hin]; [|by apply IH].
    rewrite export_fold_other by done.
    unfold export_step. by rewrite lookup_insert_eq.
Qed.

End export.

Lemma size_list_to_set_le (l : list string) :
  size (list_to_set l : gset string) <= length l
  /\ (~ NoDup l -> size (list_to_set l : gset string) < length l).
Proof.
  induction l as [|x l [IH1 IH2]].
  - rewrite list_to_set_nil, size_empty. split; [done|].
    intros H. destruct H. constructor.
  - rewrite list_to_set_cons. simpl length.
    destruct (decide (x ∈ l)) as [Hin|Hnin].
    + assert ({[x]} ∪ list_to_set l = (list_to_set l : gset string)) as ->
        by (apply subseteq_union_1_L; set_solver).
      split; [lia|]. intros _. lia.
    + rewrite size_union, size_singleton by set_solver. split; [lia|].
      intros Hnd. assert (~ NoDup l) as Hl.
      { intros Hl. apply Hnd. by constructor. }
      specialize (IH2 Hl). lia.
Qed.

Lemma NoDup_fmap_agree {A B} (f : A -> B) (l : list A) (x y : A) :
  NoDup (f <$> l) -> x ∈ l -> y ∈ l -> f x = f y -> x = y.
Proof.
  induction l as [|z l IH]; simpl; [by intros _ ?%elem_of_nil|].
  intros [Hz Hnd]%NoDup_cons [->|Hx]%elem_of_cons [->|Hy]%elem_of_cons Heq.
  - done.
  - destruct Hz. rewrite Heq. by apply list_elem_of_fmap_2.
  - destruct Hz. rewrite <- Heq. by apply list_elem_of_fmap_2.
  - by apply IH.
Qed.

Lemma export_entry_net (s : gset string) : exports_net (export_entry s) s.
Proof.
  unfold exports_net, export_entry. simpl.
  split; [done|split; [done|split; [|split]]].
  - by rewrite merge_sort_Permutation.
  - apply (Sorted_merge_sort String.le).
  - intros x. by rewrite merge_sort_Permutation, elem_of_elements.
Qed.

(** The table built from the nets [nets]. *)
Lemma export_table_spec (p : project) (nets : gmap string (gset string)) :
  let out := fold_left (export_step p) (map_to_list nets) ∅ in
  (forall name e,
      out !! name = Some e ->
      exists root s, nets !! root = Some s /\ net_name p root = name
                     /\ exports_net e s)
  /\ (forall root s, nets !! root = Some s -> is_Some (out !! net_name p root))
  /\ ((forall r1 r2, r1 ∈ dom nets -> r2 ∈ dom nets ->
                     net_name p r1 = net_name p r2 -> r1 = r2) ->
      forall root s, nets !! root = Some s ->
                     exists e, out !! net_name p root = Some e /\ exports_net e s)
  /\ size out <= size nets
  /\ (forall r1 r2, r1 ∈ dom nets -> r2 ∈ dom nets -> r1 <> r2 ->
                    net_name p r1 = net_name p r2 -> size out < size nets).
Proof.
  intros out. unfold out.
  set (l := map_to_list nets).
  set (names := (λ item : string * gset string, net_name p (fst item)) <$> l).
  assert (size (fold_left (export_step p) l ∅) = size (list_to_set names : gset string))
    as Hsize.
  { rewrite <- size_dom, export_fold_dom, dom_empty_L. f_equal. set_solver. }
  assert (length names = size nets) as Hlen.
  { unfold names, l. by rewrite length_fmap, length_map_to_list. }
  split; [|split; [|split; [|split]]].
  - intros name e [H|(item & Hin & Hn & ->)]%export_fold_origin.
    + by rewrite lookup_empty in H.
    + destruct item as [root s]. exists root, s.
      split; [by apply elem_of_map_to_list|]. split; [done|].
      apply export_entry_net.
  - intros root s Hs. apply elem_of_dom.
    rewrite export_fold_dom, dom_empty_L, elem_of_union, elem_of_list_to_set.
    right. apply elem_of_map_to_list in Hs.
    by apply (list_elem_of_fmap_2 (λ item : string * gset string, net_name p (fst item))
                _ (root, s)).
  - intros Hinj root s Hs.
    exists (export_entry s). split; [|apply export_entry_net].
    apply (export_fold_distinct p l ∅ (root, s)); [|by apply elem_of_map_to_list].
    apply NoDup_fmap_2_strong; [|apply NoDup_map_to_list].
    intros [r1 s1] [r2 s2] H1%elem_of_map_to_list H2%elem_of_map_to_list Heq.
    simpl in Heq.
    assert (r1 = r2) as <- by (apply Hinj; [by eapply elem_of_dom_2..|done]).
    by rewrite H1 in H2; injection H2 as <-.
  - rewrite Hsize, <- Hlen. apply size_list_to_set_le.
  - intros r1 r2 [s1 H1]%elem_of_dom [s2 H2]%elem_of_dom Hne Heq.
    rewrite Hsize, <- Hlen. apply size_list_to_set_le. intros Hnd.
    apply Hne.
    apply elem_of_map_to_list in H1, H2.
    by pose proof (NoDup_fmap_agree _ _ _ _ Hnd H1 H2 Heq) as [= ? _].
Qed.

(** X19. The table of nets that [export_named_nets] writes.  The method
    returns exactly when [build_nets] does, so on every store that has no
    more endpoints than [find] may nest calls.  Whenever it returns, every
    entry describes a net of [build_nets] under its name (the registered
    name of its key, else [NET_] and the key with [-] replaced by [_]),
    with the pins sorted and counted, and every net has an entry under its
    name.  When the names of the nets are pairwise distinct every net is
    exported as itself.  When two nets have the same name the table has
    fewer entries than there are nets: one overwrites the other. *)
Theorem export_named_nets_spec (frames : nat) (p : project) :
  (size (connected_pins (connections p)) <= frames ->
   is_Some (export_named_nets frames p))
  /\ (build_nets frames p = None -> export_named_nets frames p = None)
  /\ forall out,
       export_named_nets frames p = Some out ->
       exists nets,
         build_nets frames p = Some nets
         /\ (forall name e,
               out !! name = Some e ->
               exists root s, nets !! root = Some s /\ net_name p root = name
                              /\ exports_net e s)
         /\ (forall root s,
               nets !! root = Some s -> is_Some (out !! net_name p root))
         /\ ((forall r1 r2, r1 ∈ dom nets -> r2 ∈ dom nets ->
                            net_name p r1 = net_name p r2 -> r1 = r2) ->
             forall root s,
               nets !! root = Some s ->
               exists e, out !! net_name p root = Some e /\ exports_net e s)
         /\ size out <= size nets
         /\ (forall r1 r2, r1 ∈ dom nets -> r2 ∈ dom nets -> r1 <> r2 ->
                           net_name p r1 = net_name p r2 -> size out < size nets).
Proof.
  unfold export_named_nets. split; [|split].
  - intros [nets ->]%build_nets_returns. by eexists.
  - by intros ->.
  - intros out. destruct (build_nets frames p) as [nets|]; [|done].
    intros [= <-]. exists nets. split; [done|]. apply export_table_spec.
Qed.

(** Two nets given one name are exported as one: of the nets [{A-1, B-1}]
    and [{C-1, D-1}], both named [GND], the table keeps a single entry. *)
Lemma export_named_nets_overwrites :
  size <$> build_nets 2 two_nets_one_name = Some 2
  /\ dom <$> export_named_nets 2 two_nets_one_name
     = Some ({[ "GND" ]} : gset string).
Proof. split; compute_done. Qed.

(** ** Invariants of the reachable projects *)

Lemma format_pin_canon (p : project) (tok : string) (pp : parsed_pin) :
  parse_pin p tok = Some pp -> strip (upper (format_pin pp)) = format_pin pp.
Proof.
  intros Hparse.
  destruct (parse_pin_inv p tok pp Hparse)
    as [[_ ->]|[(_ & before & sep & after & part0 & part1 & _ & _ & Hsplit & ->)
               |(_ & _ & ->)]]; simpl.
  - apply canon_fixed.
  - destruct (single_pin p (normalize_ref part0)); simpl;
      [apply normalize_ref_canon|].
    destruct (split1_upper _ _ _ _ (upper_canon tok) Hsplit) as [_ Hu1].
    destruct (label_of_upper part1 Hu1) as (_ & Hul & Hsl).
    apply compound_canon; [apply normalize_ref_canon|done|done].
  - apply normalize_ref_canon.
Qed.

Lemma endpoints_subseteq (X Y : gset (string * string)) :
  Y ⊆ X -> canonical_endpoints X -> canonical_endpoints Y.
Proof. intros HYX HX c Hc. apply HX, HYX, Hc. Qed.

Lemma endpoints_add (X : gset (string * string)) (a b : string) :
  strip (upper a) = a -> strip (upper b) = b ->
  canonical_endpoints X -> canonical_endpoints (X ∪ {[sort2 a b]}).
Proof.
  intros Ha Hb HX c [Hc| ->%elem_of_singleton]%elem_of_union; [by apply HX|].
  unfold sort2. by destruct (String.ltb b a).
Qed.

Lemma add_connection_endpoints (p : project) (pin1 pin2 : string) :
  canonical_endpoints (connections p) ->
  canonical_endpoints (connections (fst (add_connection p pin1 pin2))).
Proof.
  intros HX. unfold add_connection.
  destruct (parse_pin p pin1) as [p1|] eqn:H1; [|done].
  destruct (parse_pin p pin2) as [p2|] eqn:H2; [|done].
  destruct (decide _); simpl; rewrite !auto_add_connections; [done|].
  apply endpoints_add; [by eapply format_pin_canon..|done].
Qed.

Lemma delete_connection_endpoints (p : project) (pin1 pin2 : string) :
  canonical_endpoints (connections p) ->
  canonical_endpoints (connections (fst (delete_connection p pin1 pin2))).
Proof.
  intros HX. unfold delete_connection.
  destruct (parse_pin p pin1) as [p1|]; [|done].
  destruct (parse_pin p pin2) as [p2|]; [|done].
  destruct (decide _); simpl.
  - eapply endpoints_subseteq; [|done]. set_solver.
  - destruct (List.find _ _); simpl; [|done].
    eapply endpoints_subseteq; [|done]. set_solver.
Qed.

Lemma merge_loop_endpoints (p_from : parsed_pin) (to_str : string)
    (l : list (string * string)) (X : gset (string * string)) (n : nat) :
  strip (upper to_str) = to_str ->
  canonical_endpoints (X ∪ list_to_set l) ->
  canonical_endpoints (fst (merge_loop p_from to_str l X n)).
Proof.
  intros Hto. revert X n. induction l as [|c l IH]; intros X n HX; simpl.
  - eapply endpoints_subseteq; [|done]. set_solver.
  - assert (canonical_endpoints (X ∖ {[c]} ∪ list_to_set l)) as HX'.
    { eapply endpoints_subseteq; [|done]. set_solver. }
    destruct (decide _); [destruct (decide _)|]; apply IH; try done.
    destruct (HX c) as [Hc1 Hc2]; [set_solver|].
    assert (canonical_endpoints
              (X ∖ {[c]} ∪ list_to_set l ∪ {[rewrite_conn p_from to_str c]})) as H.
    { apply endpoints_add; [| |done]; unfold replace_pin;
        by destruct (_ || _). }
    eapply endpoints_subseteq; [|exact H]. set_solver.
Qed.

Lemma merge_pins_endpoints (p : project) (from_pin to_pin : string) :
  canonical_endpoints (connections p) ->
  canonical_endpoints (connections (fst (merge_pins p from_pin to_pin))).
Proof.
  intros HX. unfold merge_pins, merge_pins_on.
  destruct (parse_pin p from_pin) as [p_from|]; [|done].
  destruct (parse_pin p to_pin) as [p_to|] eqn:Hto; [|done].
  destruct (List.filter _ _) as [|c l] eqn:E; [done|].
  pose proof (merge_loop_endpoints p_from (format_pin p_to) (c :: l)
                (connections p) 0 (format_pin_canon _ _ _ Hto)) as H.
  destruct (merge_loop _ _ _ _ _). apply H.
  eapply endpoints_subseteq; [|done].
  intros d [Hd|Hd%elem_of_list_to_set]%elem_of_union; [done|].
  rewrite <- E in Hd. apply list_elem_of_In, filter_In in Hd as [Hd _].
  by apply elem_of_elements, list_elem_of_In.
Qed.

Lemma delete_pin_connections_endpoints (p : project) (pin : string) :
  canonical_endpoints (connections p) ->
  canonical_endpoints (connections (fst (delete_pin_connections p pin))).
Proof.
  intros HX. unfold delete_pin_connections.
  destruct (parse_pin p pin) as [pp|]; [|done].
  destruct (List.filter _ _) as [|c l] eqn:E; [done|]. simpl fst.
  unfold set_connections, connections at 1. rewrite remove_each.
  eapply endpoints_subseteq; [|done]. set_solver.
Qed.

Lemma delete_component_endpoints (p : project) (ref : string) :
  canonical_endpoints (connections p) ->
  canonical_endpoints (connections (fst (delete_component p ref))).
Proof.
  intros HX. unfold delete_component. destruct (decide _); [|done]. simpl.
  rewrite remove_each. eapply endpoints_subseteq; [|done]. set_solver.
Qed.

Lemma add_component_keys (p : project) (ref : string) (n : option Z) :
  normalized_keys (components p) ->
  normalized_keys (components (add_component p ref n)).
Proof.
  intros Hk r. unfold add_component. simpl. rewrite dom_insert.
  intros [->%elem_of_singleton|Hr]%elem_of_union;
    [apply normalize_ref_fixed|by apply Hk].
Qed.

Lemma auto_add_keys (p : project) (pp : parsed_pin) :
  normalized_keys (components p) -> normalized_keys (components (auto_add p pp)).
Proof.
  intros Hk. unfold auto_add. destruct (decide _); [done|].
  by apply add_component_keys.
Qed.

Lemma add_connection_keys (p : project) (pin1 pin2 : string) :
  normalized_keys (components p) ->
  normalized_keys (components (fst (add_connection p pin1 pin2))).
Proof.
  intros Hk. unfold add_connection.
  destruct (parse_pin p pin1) as [p1|]; [|done].
  destruct (parse_pin p pin2) as [p2|]; [|done].
  destruct (decide _); simpl; by do 2 apply auto_add_keys.
Qed.

Lemma store_mutators_components (p : project) :
  (forall pin1 pin2, components (fst (delete_connection p pin1 pin2)) = components p)
  /\ (forall a b, components (fst (merge_pins p a b)) = components p)
  /\ (forall pin, components (fst (delete_pin_connections p pin)) = components p).
Proof.
  split; [|split].
  - intros pin1 pin2. unfold delete_connection.
    destruct (parse_pin p pin1); [|done]. destruct (parse_pin p pin2); [|done].
    destruct (decide _); [done|]. by destruct (List.find _ _).
  - intros a b. unfold merge_pins, merge_pins_on.
    destruct (parse_pin p a); [|done]. destruct (parse_pin p b); [|done].
    destruct (List.filter _ _); [done|]. by destruct (merge_loop _ _ _ _ _).
  - intros pin. unfold delete_pin_connections.
    destruct (parse_pin p pin); [|done]. by destruct (List.filter _ _).
Qed.

(** X20. What holds of every project obtained from the empty one by
    [add_component], [delete_component], [add_connection],
    [delete_connection], [merge_pins] and [delete_pin_connections]: every
    stored pair is sorted, so the store never holds the two permutations of
    one pair; every endpoint of a stored pair is upper-cased and stripped;
    and every key of the component table is a normalised reference. *)
Theorem reachable_invariants (p : project) :
  reachable p ->
  canonical_store (connections p)
  /\ no_permuted_pairs (connections p)
  /\ canonical_endpoints (connections p)
  /\ normalized_keys (components p).
Proof.
  intros Hp. split; [by apply reachable_canonical|].
  split; [by apply canonical_no_permuted, reachable_canonical|].
  induction Hp as [|p ref n _ [IH1 IH2]|p ref _ [IH1 IH2]|p a b _ [IH1 IH2]
                   |p a b _ [IH1 IH2]|p a b _ [IH1 IH2]|p a _ [IH1 IH2]].
  - split; [intros c Hc; simpl in Hc; set_solver|].
    intros r Hr. simpl in Hr. set_solver.
  - split; [done|by apply add_component_keys].
  - split; [by apply delete_component_endpoints|].
    unfold delete_component. destruct (decide _); [|done]. simpl.
    intros r Hr. apply IH2. rewrite dom_delete in Hr. set_solver.
  - split; [by apply add_connection_endpoints|by apply add_connection_keys].
  - split; [by apply delete_connection_endpoints|].
    by rewrite (proj1 (store_mutators_components p)).
  - split; [by apply merge_pins_endpoints|].
    by rewrite (proj1 (proj2 (store_mutators_components p))).
  - split; [by apply delete_pin_connections_endpoints|].
    by rewrite (proj2 (proj2 (store_mutators_components p))).
Qed.

Lemma reachable_invariants_witness :
  no_permuted_pairs (connections chain_abc)
  /\ normalized_keys (components chain_abc).
Proof.
  assert (reachable chain_abc) as H.
  { unfold chain_abc. do 2 apply reachable_add_connection. apply reachable_empty. }
  destruct (reachable_invariants chain_abc H) as (_ & Hperm & _ & Hkeys).
  split; [exact Hperm|exact Hkeys].
Defined.

(** ** name_net on a labelled pin *)

(** X21. For a pin that parses with a label, whenever [build_nets] returns
    (as it does when the store has no more endpoints than [find] may nest
    calls), [name_net] returns too.  If the pin [ref-label] is an endpoint
    of a stored connection it registers the name under the key of the net
    that has the pin as a member, and reports the size of that net;
    otherwise it reports that the pin is in no net and leaves the project
    unchanged. *)
Theorem name_net_labelled_iff (frames : nat) (p : project)
    (pin name ref label : string) :
  parse_pin p pin = Some (ref, Some label) ->
  let pin_str := ref +:+ "-" +:+ label in
  (size (connected_pins (connections p)) <= frames ->
   is_Some (build_nets frames p))
  /\ forall nets,
       build_nets frames p = Some nets ->
       (pin_str ∈ connected_pins (connections p) ->
        exists root s,
          nets !! root = Some s /\ pin_str ∈ s
          /\ name_net frames p pin name
             = Some (set_net_names p (<[root := name]> (net_names p)),
                     Named root (size s)))
       /\ (pin_str ∉ connected_pins (connections p) ->
           name_net frames p pin name = Some (p, NameNotInNet pin_str)).
Proof.
  intros Hparse pin_str. split; [apply build_nets_returns|].
  intros nets Hrun.
  destruct (name_net_labelled frames p pin name ref label nets Hparse Hrun)
    as [Hyes Hno].
  split.
  - intros Hin%connected_pins_spec. by apply Hyes.
  - intros Hnin. apply Hno. by rewrite <- connected_pins_spec.
Qed.

Lemma name_net_labelled_iff_witness :
  exists root (s : gset string),
    name_net 2 gnd_rail "R1-1" "GROUND"
    = Some (set_net_names gnd_rail (<[root := "GROUND"]> (net_names gnd_rail)),
            Named root (size s))
    /\ "R01-1" ∈ s.
Proof.
  destruct (name_net_labelled_iff 2 gnd_rail "R1-1" "GROUND" "R01" "1")
    as [Hreturns Hnamed].
  - reflexivity.
  - destruct Hreturns as [nets Hrun]; [vm_compute; lia|].
    destruct (Hnamed nets Hrun) as [Hyes _].
    destruct Hyes as (root & s & _ & Hin & Hname).
    + apply elem_of_elements. vm_compute. repeat constructor.
    + exists root, s. split; [exact Hname|exact Hin].
Defined.

(** ** export_bom *)

Lemma bom_group_snoc (key : string * string) (l : list (string * component))
    (y : string * component) :
  bom_group key (l ++ [y])
  = (bom_group key l
       ++ if decide (bom_skipped (snd y) = false /\ bom_key (snd y) = key)
          then [y] else [])%list.
Proof.
  unfold bom_group. rewrite filter_app. f_equal.
Qed.

Lemma bom_add_inv (bom : gmap (string * string) bom_item)
    (done : list (string * component)) (y : string * component) :
  bom_inv bom done -> bom_inv (bom_add bom y) (done ++ [y]).
Proof.
  intros Hinv key. specialize (Hinv key). rewrite bom_group_snoc.
  unfold bom_add. destruct (bom_skipped (snd y)) eqn:Hskip.
  - destruct (decide _) as [[? _]|_]; [done|]. by rewrite app_nil_r.
  - destruct (decide (bom_key (snd y) = key)) as [<-|Hne].
    + rewrite lookup_insert_eq. destruct (decide _) as [_|H]; [|by destruct H].
      destruct (bom !! bom_key (snd y)) as [it|]; simpl.
      * destruct Hinv as (Hrefs & Hcount & _).
        rewrite fmap_app, length_app, Hrefs, Hcount. simpl.
        split; [done|split; [lia|]]. exists y. by rewrite last_snoc.
      * rewrite Hinv. simpl. split; [done|split; [done|]]. by exists y.
    + rewrite lookup_insert_ne by done.
      destruct (decide _) as [[_ ?]|_]; [done|]. by rewrite app_nil_r.
Qed.

Lemma bom_fold_inv (l done : list (string * component))
    (bom : gmap (string * string) bom_item) :
  bom_inv bom done -> bom_inv (fold_left bom_add l bom) (done ++ l).
Proof.
  revert done bom. induction l as [|y l IH]; intros done bom Hinv; simpl.
  - by rewrite app_nil_r.
  - rewrite (cons_middle y done l), app_assoc. by apply IH, bom_add_inv.
Qed.

Lemma sorted_last {A} (R : relation A) `{!Reflexive R} (l : list A) (x : A) :
  StronglySorted R l -> last l = Some x -> forall y, y ∈ l -> R y x.
Proof.
  induction 1 as [|z l Hl IH Hz]; [done|].
  destruct l as [|z' l'].
  - intros [= <-] y ->%list_elem_of_singleton. done.
  - intros Hlast y [->|Hy]%elem_of_cons; [|by apply IH].
    rewrite Forall_forall in Hz. apply Hz.
    change (last (z :: z' :: l')) with (last (z' :: l')) in Hlast.
    by apply last_Some_elem_of.
Qed.

Lemma sorted_filter {A} (R : relation A) (P : A -> Prop)
    `{!forall x, Decision (P x)} (l : list A) :
  StronglySorted R l -> StronglySorted R (filter P l).
Proof.
  induction 1 as [|z l Hl IH Hz]; [constructor|].
  destruct (decide (P z)).
  - rewrite filter_cons_True by done. constructor; [done|].
    rewrite Forall_forall in Hz. apply Forall_forall.
    intros y [_ Hy]%list_elem_of_filter. by apply Hz.
  - by rewrite filter_cons_False.
Qed.

Lemma components_sorted (p : project) :
  let L := merge_sort item_le (map_to_list (components p)) in
  StronglySorted item_le L
  /\ NoDup L
  /\ forall x, x ∈ L <-> components p !! fst x = Some (snd x).
Proof.
  intros L. split; [|split].
  - apply (@StronglySorted_merge_sort _ item_le _).
    + intros a b c. unfold item_le. apply transitivity.
    + intros a b. unfold item_le. apply total, _.
  - unfold L. rewrite merge_sort_Permutation. apply NoDup_map_to_list.
  - intros [r info]. unfold L.
    by rewrite merge_sort_Permutation, elem_of_map_to_list.
Qed.

Lemma bom_table_inv (p : project) :
  bom_inv (bom_table p) (merge_sort item_le (map_to_list (components p))).
Proof.
  unfold bom_table.
  apply (bom_fold_inv (merge_sort item_le (map_to_list (components p))) [] ∅).
  intros key. by rewrite lookup_empty.
Qed.

Lemma elem_of_export_bom (p : project) (row : nat * string * string * string * string) :
  row ∈ export_bom p
  <-> exists key it, bom_table p !! key = Some it /\ row = bom_row_of (key, it).
Proof.
  unfold export_bom. rewrite list_elem_of_fmap. split.
  - intros ([key it] & -> & Hin). rewrite merge_sort_Permutation in Hin.
    apply elem_of_map_to_list in Hin. by exists key, it.
  - intros (key & it & Hl & ->). exists (key, it). split; [done|].
    rewrite merge_sort_Permutation. by apply elem_of_map_to_list.
Qed.

(** X22. The rows of the bill of materials.  A row counts the components
    that have the row's value and package and whose package is not [-],
    [Virtual] or empty: its quantity is their number, its reference column
    joins their references, sorted and without repetition, and its
    description is that of the last of them.  Every such component is
    counted in the row of its value and package, there is one row for each
    value and package, and the rows are sorted by value, then package. *)
Theorem export_bom_spec (p : project) :
  (forall row, row ∈ export_bom p ->
      exists refs,
        snd (fst row) = String.concat ", " refs
        /\ fst (fst (fst (fst row))) = length refs
        /\ 0 < length refs
        /\ Sorted String.le refs /\ NoDup refs
        /\ (forall r, r ∈ refs <->
                      exists info, components p !! r = Some info
                                   /\ bom_skipped info = false
                                   /\ bom_key info = bom_row_key row)
        /\ exists r info,
             r ∈ refs /\ (forall r', r' ∈ refs -> String.le r' r)
             /\ components p !! r = Some info
             /\ snd row = description info)
  /\ (forall r info,
        components p !! r = Some info -> bom_skipped info = false ->
        exists row, row ∈ export_bom p /\ bom_row_key row = bom_key info)
  /\ (forall row row',
        row ∈ export_bom p -> row' ∈ export_bom p ->
        bom_row_key row = bom_row_key row' -> row = row')
  /\ Sorted (λ a b, conn_le (bom_row_key a) (bom_row_key b)) (export_bom p).
Proof.
  pose proof (bom_table_inv p) as Hinv.
  destruct (components_sorted p) as (Hsorted & Hnd & Hmem).
  set (L := merge_sort item_le (map_to_list (components p))) in *.
  assert (forall key x, x ∈ bom_group key L <->
            components p !! fst x = Some (snd x)
            /\ bom_skipped (snd x) = false /\ bom_key (snd x) = key) as Hgroup.
  { intros key x. unfold bom_group. rewrite list_elem_of_filter, Hmem. tauto. }
  split; [|split; [|split]].
  - intros row ([v pk] & it & Hl & ->)%elem_of_export_bom.
    specialize (Hinv (v, pk)). rewrite Hl in Hinv.
    destruct Hinv as (Hrefs & Hcount & x & Hlast & Hdesc).
    set (G := bom_group (v, pk) L) in *.
    set (refs := merge_sort String.le (bom_refs it)).
    assert (refs ≡ₚ G.*1) as Hperm.
    { unfold refs. by rewrite merge_sort_Permutation, Hrefs. }
    assert (length refs = length G) as Hlen.
    { by rewrite (Permutation_length Hperm), length_fmap. }
    assert (forall r, r ∈ refs <-> exists info, (r, info) ∈ G) as Hin.
    { intros r. rewrite Hperm, list_elem_of_fmap. split.
      - intros ([r' info] & -> & Hx). by exists info.
      - intros (info & Hx). by exists (r, info). }
    assert (x ∈ G) as Hx by by apply last_Some_elem_of.
    assert (NoDup refs) as Hndr.
    { rewrite Hperm. apply (NoDup_fmap_2_strong fst).
      - intros [r1 i1] [r2 i2] [H1 _]%Hgroup [H2 _]%Hgroup Heq. simpl in *.
        subst r2. rewrite H1 in H2. by injection H2 as ->.
      - unfold G, bom_group. by apply NoDup_filter. }
    assert (forall r', r' ∈ refs -> String.le r' (fst x)) as Hmax.
    { intros r' [info Hy]%Hin.
      assert (Reflexive item_le) as Hrefl by (intros a; unfold item_le; done).
      apply (sorted_last item_le G x (sorted_filter _ _ _ Hsorted) Hlast _ Hy). }
    exists refs. unfold bom_row_of, bom_row_key. simpl.
    split; [done|]. split; [by rewrite Hlen|].
    split; [rewrite Hlen; destruct G; [done|simpl; lia]|].
    split; [apply (Sorted_merge_sort String.le)|].
    split; [done|]. split.
    { intros r. rewrite Hin. split.
      - intros [info Hi%Hgroup]. by exists info.
      - intros (info & H1 & H2 & H3). exists info. by apply Hgroup. }
    exists (fst x), (snd x).
    split; [apply Hin; exists (snd x); by destruct x|].
    split; [done|]. split; [by apply Hgroup in Hx as [? _]|done].
  - intros r info Hl Hskip.
    specialize (Hinv (bom_key info)).
    destruct (bom_table p !! bom_key info) as [it|] eqn:Hit.
    + exists (bom_row_of (bom_key info, it)). split; [|done].
      apply elem_of_export_bom. by exists (bom_key info), it.
    + assert ((r, info) ∈ bom_group (bom_key info) L) as Hin by by apply Hgroup.
      rewrite Hinv in Hin. by apply elem_of_nil in Hin.
  - intros row row' (key & it & Hl & ->)%elem_of_export_bom
      (key' & it' & Hl' & ->)%elem_of_export_bom Heq.
    unfold bom_row_of, bom_row_key in Heq. simpl in Heq.
    assert (key = key') as <- by (destruct key, key'; simpl in *; congruence).
    rewrite Hl in Hl'. by injection Hl' as <-.
  - unfold export_bom.
    apply (Sorted_fmap bom_row_of
             (λ a b : string * string * bom_item, conn_le (fst a) (fst b))).
    + intros [k1 i1] [k2 i2]. unfold bom_row_of, bom_row_key. simpl.
      by destruct k1, k2.
    + apply (@Sorted_merge_sort _ (λ a b, conn_le (fst a) (fst b)) _).
      intros a b. apply conn_le_total.
Qed.

(** The three parts of [three_parts] share the value [?] and the package
    [?]: the bill of materials has one row, of quantity 3. *)
Lemma export_bom_groups_equal_parts :
  export_bom three_parts = [(3, "?", "?", "C01, R01, R02", "")].
Proof. by vm_compute. Qed.

(** ** The nets do not depend on the order of visit *)

Lemma build_nets_on_same_sets frames (la lb : list (string * string))
    (na nb : gmap string (gset string)) :
  (forall c, c ∈ la <-> c ∈ lb) ->
  build_nets_on frames la = Some na -> build_nets_on frames lb = Some nb ->
  forall r s, na !! r = Some s -> exists r', nb !! r' = Some s.
Proof.
  intros Hsame Ha Hb r s Hs.
  pose proof (build_nets_on_linked _ _ _ Ha) as La.
  pose proof (build_nets_on_linked _ _ _ Hb) as Lb.
  destruct (build_nets_on_partition _ _ _ Ha) as (_ & Da & Na).
  destruct (build_nets_on_partition _ _ _ Hb) as (_ & Db & _).
  assert (forall x y, in_one_net na x y <-> in_one_net nb x y) as Hshare.
  { intros x y. rewrite La, Lb, !elem_of_endpoints.
    assert (linked la x y <-> linked lb x y) as ->.
    { split; apply linked_mono; intros c; apply Hsame. }
    by setoid_rewrite Hsame. }
  destruct (set_choose_L s (Na r s Hs)) as [a Ha0].
  destruct (proj1 (Hshare a a)) as (r' & s' & Hs' & Ha' & _); [by exists r, s|].
  exists r'. rewrite Hs'. f_equal. symmetry. apply set_eq. intros x. split.
  - intros Hx. destruct (proj1 (Hshare a x)) as (r2 & s2 & Hs2 & Ha2 & Hx2);
      [by exists r, s|].
    assert (r2 = r') as -> by exact (Db r2 r' s2 s' a Hs2 Hs' Ha2 Ha').
    rewrite Hs' in Hs2. by injection Hs2 as <-.
  - intros Hx. destruct (proj2 (Hshare a x)) as (r2 & s2 & Hs2 & Ha2 & Hx2);
      [by exists r', s'|].
    assert (r2 = r) as -> by exact (Da r2 r s2 s a Hs2 Hs Ha2 Ha0).
    rewrite Hs in Hs2. by injection Hs2 as <-.
Qed.

(** X23. The nets do not depend on the order in which [build_nets] visits
    the store: whenever it returns on two sequences holding the same
    connections, it returns the same sets of pins; only the keys, the roots
    of the union-find forest, can differ.  It returns on both when they
    have no more endpoints than [find] may nest calls. *)
Theorem build_nets_order_independent (frames : nat) (l1 l2 : list (string * string)) :
  (forall c, c ∈ l1 <-> c ∈ l2) ->
  (size (endpoints l1) <= frames ->
   is_Some (build_nets_on frames l1) /\ is_Some (build_nets_on frames l2))
  /\ forall nets1 nets2,
       build_nets_on frames l1 = Some nets1 ->
       build_nets_on frames l2 = Some nets2 ->
       forall s : gset string,
         (exists r, nets1 !! r = Some s) <-> (exists r, nets2 !! r = Some s).
Proof.
  intros Hsame. split.
  - intros Hsize. split; [by apply build_nets_on_returns|].
    apply build_nets_on_returns.
    assert (endpoints l2 = endpoints l1) as ->; [|done].
    apply set_eq. intros x. rewrite !elem_of_endpoints.
    by setoid_rewrite Hsame.
  - intros nets1 nets2 H1 H2 s. split; intros [r Hs].
    + by apply (build_nets_on_same_sets frames l1 l2 nets1 nets2 Hsame H1 H2 r).
    + apply (build_nets_on_same_sets frames l2 l1 nets2 nets1) with r; [|done..].
      intros c. by rewrite Hsame.
Qed.

Lemma build_nets_order_independent_witness :
  exists nets1 nets2,
    build_nets_on 3 [("A-1", "B-1"); ("A-1", "C-1")] = Some nets1
    /\ build_nets_on 3 [("A-1", "C-1"); ("A-1", "B-1")] = Some nets2
    /\ forall s : gset string,
         (exists r, nets1 !! r = Some s) <-> (exists r, nets2 !! r = Some s).
Proof.
  destruct (build_nets_order_independent 3
              [("A-1", "B-1"); ("A-1", "C-1")] [("A-1", "C-1"); ("A-1", "B-1")])
    as [Hreturns Hsame].
  - intros c. rewrite !elem_of_cons. tauto.
  - destruct Hreturns as [[nets1 H1] [nets2 H2]]; [vm_compute; lia|].
    exists nets1, nets2. split; [exact H1|]. split; [exact H2|].
    exact (Hsame nets1 nets2 H1 H2).
Defined.

(** The key of a net does depend on the order: the net [{A-1, B-1, C-1}] is
    filed under [C-1] for one order of the two connections and under [B-1]
    for the other, so a name registered under the key can be lost. *)
Lemma build_nets_key_depends_on_order :
  build_nets_on 3 [("A-1", "B-1"); ("A-1", "C-1")]
  = Some {[ "C-1" := {[ "A-1"; "B-1"; "C-1" ]} ]}
  /\ build_nets_on 3 [("A-1", "C-1"); ("A-1", "B-1")]
     = Some {[ "B-1" := {[ "A-1"; "B-1"; "C-1" ]} ]}.
Proof. split; compute_done. Qed.

(** Whether [build_nets] returns depends on the order too: with two nested
    calls of [find] left it raises on the chain [A-1~B-1], [B-1~C-1] visited
    in this order, and returns when the two connections are visited in the
    other order. *)
Lemma build_nets_return_depends_on_order :
  build_nets_on 2 [("A-1", "B-1"); ("B-1", "C-1")] = None
  /\ build_nets_on 2 [("B-1", "C-1"); ("A-1", "B-1")]
     = Some {[ "C-1" := {[ "A-1"; "B-1"; "C-1" ]} ]}.
Proof. split; compute_done. Qed.
